(** * eTree: the traversal-and-render engine, embedded and verified

    This development embeds the core of eTree (etree.cpp, etree.h, args.h,
    main.cpp, csv.cpp) in Rocq and settles the claims of the specification
    against it.

    - [Rtl]      : the console RTL shaper ([is_arabic], [contains_rtl],
                   [wrap_rtl]), which only the Windows build has.
    - [Pattern]  : the exclude-pattern matcher ([matchesPattern]) and a
                   model of the fragment of ECMAScript regular expressions
                   that translated patterns fall into.
    - [Tree]     : the directory model, [printTree] and [main] as the
                   POSIX build has them ([#else] branches), and the
                   relations in which the claims are stated.

    - [Cli]      : the command line ([parseArgs], with [std::stoi]).
    - [Win]      : the permission string of the Windows build.
    - [Notions]  : what the facts beyond the claims are stated with.

    The facts follow the definitions: the shaper, the matcher, then the
    traversal (effect of a call, depth limit, drawing and relative paths,
    order, the run of [main]), and the claims at work on examples; then
    what else the code keeps true: the matcher as a glob matcher, the
    invariants of a walk, the runs of [main], the command line and the
    permission strings. *)

From Stdlib Require Import ZArith List Bool Ascii String DecimalString Lia.
From Stdlib Require Import Sorting.Sorted Sorting.Permutation.
From Stdlib Require Import DecimalPos.
Import ListNotations.

Local Open Scope Z_scope.

(* ===================================================================== *)
(** * RTL shaping (Windows build, etree.cpp lines 135-225) *)
(* ===================================================================== *)

Module Rtl.

(** A [std::wstring] is a sequence of UTF-16 code units. *)
Definition wchar := Z.
Definition wstring := list wchar.

Definition SPACE : wchar := 32.

(** [bool is_arabic(wchar_t c)] *)
Definition is_arabic (c : wchar) : bool :=
  ((0x0590 <=? c) && (c <=? 0x08FF)) ||
  ((0xFB50 <=? c) && (c <=? 0xFDFF)) ||
  ((0xFE70 <=? c) && (c <=? 0xFEFF)).

(** [bool contains_rtl(const std::wstring &s)] *)
Definition contains_rtl (s : wstring) : bool := existsb is_arabic s.

(** The loop
    [while (!buf.empty() && buf.back() == L' ') { trailing_spaces += L' '; buf.pop_back(); }]
    run on the buffer seen from its back: [rbuf] is [buf] reversed, so that
    [buf.back()] is the head of [rbuf].  It returns what is left of the
    buffer (still reversed) and the spaces taken off. *)
Fixpoint pop_trailing_spaces (rbuf : wstring) (trailing_spaces : wstring)
  : wstring * wstring :=
  match rbuf with
  | c :: rbuf' =>
      if c =? SPACE
      then pop_trailing_spaces rbuf' (trailing_spaces ++ [SPACE])
      else (rbuf, trailing_spaces)
  | [] => ([], trailing_spaces)
  end.

(** What a flush of the buffer appends to [res]: for a buffer holding RTL
    text the trailing spaces are taken off, the rest is reversed
    ([std::reverse]) and the spaces are put back behind it; any other buffer
    is appended as it is. *)
Definition flush (buf : wstring) (buf_has_rtl : bool) : wstring :=
  if buf_has_rtl then
    let '(rbuf, trailing_spaces) := pop_trailing_spaces (rev buf) [] in
    rbuf ++ trailing_spaces
  else buf.

(** The [for (wchar_t c : s)] loop followed by the final flush. *)
Fixpoint wrap_rtl_loop (s res buf : wstring) (buf_has_rtl : bool) : wstring :=
  match s with
  | [] => res ++ flush buf buf_has_rtl
  | c :: s' =>
      if is_arabic c then wrap_rtl_loop s' res (buf ++ [c]) true
      else if c =? SPACE then wrap_rtl_loop s' res (buf ++ [c]) buf_has_rtl
      else wrap_rtl_loop s' (res ++ flush buf buf_has_rtl ++ [c]) [] false
  end.

(** [std::wstring wrap_rtl(std::wstring s)] *)
Definition wrap_rtl (s : wstring) : wstring := wrap_rtl_loop s [] [] false.

(** A character that stays in the buffer: RTL or a space. *)
Definition is_run_char (c : wchar) : bool := is_arabic c || (c =? SPACE).

Definition led_by_space (r : wstring) : bool :=
  match r with c :: _ => c =? SPACE | [] => false end.

(** [tidy s]: no stretch of RTL characters and spaces in [s] that holds an
    RTL character begins with a space.  [at_start] says that the stretch
    at hand has not begun, [space_led] that it began with a space. *)
Fixpoint tidy_from (s : wstring) (at_start space_led : bool) : bool :=
  match s with
  | [] => true
  | c :: s' =>
      if is_arabic c then negb space_led && tidy_from s' false false
      else if c =? SPACE then tidy_from s' false (space_led || at_start)
      else tidy_from s' true false
  end.

Definition tidy (s : wstring) : bool := tidy_from s true false.

(** The code units of an ASCII string. *)
Definition wstr (s : string) : wstring :=
  map (fun a => Z.of_N (N_of_ascii a)) (list_ascii_of_string s).

(** The Arabic word of the example in [wrap_rtl]'s documentation,
    alef lam ain alef lam meem. *)
Definition alalam : wstring := [0x627; 0x644; 0x639; 0x627; 0x644; 0x645].

(** "Hello <alalam> World", the documented input. *)
Definition doc_input : wstring :=
  wstr "Hello " ++ alalam ++ wstr " World".

(** "Hello <malala> World", the documented output: the Arabic word reversed
    in place, everything else where it was. *)
Definition doc_output : wstring :=
  wstr "Hello " ++ rev alalam ++ wstr " World".

End Rtl.

(* ===================================================================== *)
(** * Exceptions *)
(* ===================================================================== *)

(** A call that either returns or throws a [std::exception]; [what] is the
    text of [ex.what()]. *)
Inductive result (A : Type) : Type :=
| Ok (a : A)
| Throw (what : string).
Arguments Ok {A} a.
Arguments Throw {A} what.

(* ===================================================================== *)
(** * The exclude-pattern matcher (etree.cpp lines 391-433) *)
(* ===================================================================== *)

Module Pattern.

Local Open Scope string_scope.

(** [std::regex_replace(s, std::regex("\\c"), fmt)] for a regular expression
    that is one escaped character [c] and a format [fmt] without [$]: every
    occurrence of [c] is replaced by [fmt], left to right. *)
Fixpoint replace_char (c : ascii) (fmt : string) (s : string) : string :=
  match s with
  | EmptyString => EmptyString
  | String a s' =>
      if Ascii.eqb a c then fmt ++ replace_char c fmt s'
      else String a (replace_char c fmt s')
  end.

Definition BACKSLASH : ascii := ascii_of_nat 92.

(** The three [std::regex_replace] passes of [matchesPattern]:
    dots are escaped, then [?] becomes [.], then [*] becomes [.*]. *)
Definition regexPattern (pattern : string) : string :=
  let regexPattern := replace_char "." (String BACKSLASH ".") pattern in
  let regexPattern := replace_char "?" "." regexPattern in
  replace_char "*" ".*" regexPattern.

Section Matcher.

(** [regex_match re name] stands for
    [std::regex r(re, std::regex_constants::icase); std::regex_match(name, r)];
    it throws when the standard library throws [std::regex_error]. *)
Variable regex_match : string -> string -> result bool.

(** [bool matchesPattern(const std::string &name, const std::string &pattern)]
    (and [matchesPatternW], which first converts the name to UTF-8). *)
Definition matchesPattern (name pattern : string) : result bool :=
  match pattern with
  | EmptyString => Ok false
  | _ => regex_match ("^" ++ regexPattern pattern ++ "$") name
  end.

End Matcher.

(** ** The regular expressions of the standard library, in part

    [std::regex] is library code.  The fragment of ECMAScript regular
    expressions modelled here is: an optional leading [^], then terms, then an
    optional final [$]; a term is an atom followed by at most one of the
    quantifiers [*], [+], [?]; an atom is [.], an ordinary character, or a
    backslash followed by a syntax character.  Everything else (groups,
    brackets, braces, alternation, class escapes, an anchor in the middle, a
    quantifier after a quantifier) is [Beyond] the model. *)

Inductive token : Type :=
| TLit (c : ascii)      (* an ordinary or an escaped character *)
| TDot                  (* [.] *)
| TStar | TPlus | TQuest
| TCaret | TDollar
| TBadEscape            (* a backslash at the end of the expression *)
| TBeyond.              (* a construct outside the fragment *)

Definition is_syntax_char (c : ascii) : bool :=
  existsb (Ascii.eqb c)
    (list_ascii_of_string "^$.*+?()[]{}|" ++ [BACKSLASH]).

Definition token_of_char (c : ascii) : token :=
  if Ascii.eqb c "." then TDot
  else if Ascii.eqb c "*" then TStar
  else if Ascii.eqb c "+" then TPlus
  else if Ascii.eqb c "?" then TQuest
  else if Ascii.eqb c "^" then TCaret
  else if Ascii.eqb c "$" then TDollar
  else if is_syntax_char c then TBeyond
  else TLit c.

Fixpoint tokenize (s : list ascii) : list token :=
  match s with
  | [] => []
  | c :: rest =>
      if Ascii.eqb c BACKSLASH then
        match rest with
        | [] => [TBadEscape]
        | e :: rest' =>
            (if is_syntax_char e then TLit e else TBeyond) :: tokenize rest'
        end
      else token_of_char c :: tokenize rest
  end.

Inductive atom : Type :=
| Lit (c : ascii)
| AnyChar.

Inductive quant : Type := Once | ZeroOrMore | OneOrMore | ZeroOrOne.

Definition term : Type := (atom * quant)%type.

Inductive parsed : Type :=
| Terms (ts : list term)
| SyntaxError       (* the constructor of [std::regex] throws *)
| Unmodelled.

Definition atom_of_token (t : token) : option atom :=
  match t with
  | TLit c => Some (Lit c)
  | TDot => Some AnyChar
  | _ => None
  end.

Definition quant_of_token (t : token) : option quant :=
  match t with
  | TStar => Some ZeroOrMore
  | TPlus => Some OneOrMore
  | TQuest => Some ZeroOrOne
  | _ => None
  end.

Definition cons_term (t : term) (p : parsed) : parsed :=
  match p with
  | Terms ts => Terms (t :: ts)
  | _ => p
  end.

(** The terms up to the end of the expression.  [after_quant] tells that the
    token before was a quantifier. *)
Fixpoint parse_terms (ts : list token) (after_quant : bool) : parsed :=
  match ts with
  | [] => Terms []
  | TDollar :: [] => Terms []
  | t :: rest =>
      match atom_of_token t with
      | Some a =>
          match rest with
          | q :: rest' =>
              match quant_of_token q with
              | Some k => cons_term (a, k) (parse_terms rest' true)
              | None => cons_term (a, Once) (parse_terms rest false)
              end
          | [] => Terms [(a, Once)]
          end
      | None =>
          match quant_of_token t with
          | Some _ => if after_quant then Unmodelled else SyntaxError
          | None =>
              match t with
              | TBadEscape => SyntaxError
              | _ => Unmodelled
              end
          end
      end
  end.

Definition is_beyond (t : token) : bool :=
  match t with TBeyond => true | _ => false end.

Definition parse (re : string) : parsed :=
  let ts := tokenize (list_ascii_of_string re) in
  if existsb is_beyond ts then Unmodelled
  else match ts with
       | TCaret :: ts' => parse_terms ts' false
       | _ => parse_terms ts false
       end.

(** [tolower] of the classic locale, which [std::regex_constants::icase]
    applies to both sides of a comparison. *)
Definition to_lower (c : ascii) : ascii :=
  let n := N_of_ascii c in
  if ((65 <=? n) && (n <=? 90))%N then ascii_of_N (n + 32) else c.

Definition is_line_terminator (c : ascii) : bool :=
  Ascii.eqb c (ascii_of_nat 10) || Ascii.eqb c (ascii_of_nat 13).

Definition atom_matches (a : atom) (d : ascii) : bool :=
  match a with
  | Lit c => Ascii.eqb (to_lower c) (to_lower d)
  | AnyChar => negb (is_line_terminator d)
  end.

(** Whole-string match of a sequence of terms ([std::regex_match]). *)
Fixpoint match_terms (ts : list term) : list ascii -> bool :=
  match ts with
  | [] => fun s => match s with [] => true | _ => false end
  | (a, q) :: ts' =>
      let k := match_terms ts' in
      let one (k' : list ascii -> bool) (s : list ascii) :=
        match s with
        | d :: s' => atom_matches a d && k' s'
        | [] => false
        end in
      let many :=
        fix many (s : list ascii) : bool :=
          k s || match s with
                 | d :: s' => atom_matches a d && many s'
                 | [] => false
                 end in
      match q with
      | Once => one k
      | ZeroOrMore => many
      | OneOrMore => one many
      | ZeroOrOne => fun s => k s || one k s
      end
  end.

Inductive verdict : Type :=
| Accepts (b : bool)   (* the regex compiles; [regex_match] returns [b] *)
| Rejects              (* [std::regex_error] *)
| Beyond.              (* outside the modelled fragment *)

Definition ecma_fragment (re name : string) : verdict :=
  match parse re with
  | Terms ts => Accepts (match_terms ts (list_ascii_of_string name))
  | SyntaxError => Rejects
  | Unmodelled => Beyond
  end.

(** An engine is [standard] when it does what the fragment says wherever the
    fragment says something. *)
Definition standard (regex_match : string -> string -> result bool) : Prop :=
  forall re name,
    match ecma_fragment re name with
    | Accepts b => regex_match re name = Ok b
    | Rejects => exists what, regex_match re name = Throw what
    | Beyond => True
    end.

(** The engine used to run examples: the fragment, throwing outside it. *)
Definition fragment_engine (re name : string) : result bool :=
  match ecma_fragment re name with
  | Accepts b => Ok b
  | Rejects => Throw "regex_error"
  | Beyond => Throw "outside the modelled fragment"
  end.

(** ** Glob matching as the specification words it

    Anchored, case-insensitive; [*] is any sequence, [?] is exactly one
    character, every other character stands for itself. *)
Fixpoint glob (p : list ascii) : list ascii -> bool :=
  match p with
  | [] => fun s => match s with [] => true | _ => false end
  | c :: p' =>
      let k := glob p' in
      if Ascii.eqb c "*" then
        fix star (s : list ascii) : bool :=
          k s || match s with
                 | _ :: s' => star s'
                 | [] => false
                 end
      else if Ascii.eqb c "?" then
        fun s => match s with _ :: s' => k s' | [] => false end
      else
        fun s => match s with
                 | d :: s' => Ascii.eqb (to_lower c) (to_lower d) && k s'
                 | [] => false
                 end
  end.

Definition glob_matches (name pattern : string) : bool :=
  match pattern with
  | EmptyString => false
  | _ => glob (list_ascii_of_string pattern) (list_ascii_of_string name)
  end.

(** A pattern character that the translation accounts for: a wildcard, a
    dot, or a character without a meaning in regular expressions. *)
Definition glob_char (c : ascii) : bool :=
  Ascii.eqb c "*" || Ascii.eqb c "?" || Ascii.eqb c "." ||
  negb (is_syntax_char c).

Definition glob_only (pattern : string) : bool :=
  forallb glob_char (list_ascii_of_string pattern).

Definition no_line_terminator (name : string) : bool :=
  forallb (fun c => negb (is_line_terminator c)) (list_ascii_of_string name).

(** What one pattern character becomes in the regular expression, as
    text, as tokens and as a term. *)
Definition regex_of_char (c : ascii) : string :=
  if Ascii.eqb c "." then String BACKSLASH "."
  else if Ascii.eqb c "?" then "."
  else if Ascii.eqb c "*" then ".*"
  else String c EmptyString.

Definition tokens_of_char (c : ascii) : list token :=
  if Ascii.eqb c "." then [TLit "."]
  else if Ascii.eqb c "?" then [TDot]
  else if Ascii.eqb c "*" then [TDot; TStar]
  else [TLit c].

Definition term_of_char (c : ascii) : term :=
  if Ascii.eqb c "." then (Lit ".", Once)
  else if Ascii.eqb c "?" then (AnyChar, Once)
  else if Ascii.eqb c "*" then (AnyChar, ZeroOrMore)
  else (Lit c, Once).

End Pattern.


(* ===================================================================== *)
(** * The traversal engine (etree.h, args.h, etree.cpp lines 298-372 and
      737-850, main.cpp) *)
(* ===================================================================== *)

Module Tree.

Import Pattern.
Local Open Scope string_scope.

(** ** The file system

    A directory entry is a file or a directory ([is_directory()] follows
    links and is taken to answer; the tree is finite).  [mode] holds the
    permission bits ([fs::perms]).  [size] is [None] when [file_size()]
    throws.  A directory lists [children] in the order the operating
    system hands them out; [failure = Some what] says that
    [fs::directory_iterator] throws after it has handed them out (at once,
    when [children] is empty).

    The iterator is made with [skip_permission_denied] (lines 748-749):
    on a directory that the process may not read it hands out nothing
    and throws nothing.  Such a directory is a [Dir] without children
    and without failure here, as it is for the program; [directory]
    below builds a node from what opening the directory comes to. *)
#[warnings="-register-all"]
Inductive Node : Type :=
| File (name : string) (mode : Z) (size : option Z)
| Dir (name : string) (mode : Z) (children : list Node)
      (failure : option string).

(** [entry.path().filename().string()] *)
Definition filename (e : Node) : string :=
  match e with
  | File name _ _ => name
  | Dir name _ _ _ => name
  end.

(** [entry.is_directory()] *)
Definition is_directory (e : Node) : bool :=
  match e with
  | File _ _ _ => false
  | Dir _ _ _ _ => true
  end.

(** [entry.file_size()]; [None] when it throws. *)
Definition file_size (e : Node) : option Z :=
  match e with
  | File _ _ size => size
  | Dir _ _ _ _ => None
  end.

Definition permissions (e : Node) : Z :=
  match e with
  | File _ mode _ => mode
  | Dir _ mode _ _ => mode
  end.

(** ** args.h, etree.h

    The [int] fields are integers here: a run would have to take up
    [2^31] entries before a counter of the program leaves its range. *)

Record Args : Type := {
  folder : string;
  excludePattern : string;
  csvOut : string;
  maxLevel : Z;
  showHidden : bool;
  showDirsOnly : bool;
  showSize : bool;
  showPerms : bool;
  nocolors : bool;
  showHelp : bool;
  showVersion : bool
}.

Record CsvRow : Type := {
  relpath : string;
  name : string;
  type : string;
  perms : string;
  bytes : Z;
  created : string;
  modified : string
}.

Record TreeStats : Type := {
  maxDepth : Z;
  folders : Z;
  files : Z;
  csvRows : list CsvRow
}.

(** [TreeStats stats;] *)
Definition TreeStats_init : TreeStats :=
  {| maxDepth := 0; folders := 0; files := 0; csvRows := [] |}.

(** ** What a run touches

    [cout] and [cerr] hold the lines written so far, one element per
    [std::endl].  [visited] is a ghost record of the entries the loop of
    [printTree] has taken up, with the arguments of the call that did. *)
Record Visit : Type := {
  v_dir : string;
  v_level : Z;
  v_prefix : string;
  v_relpath : string;
  v_isLast : bool;
  v_entry : Node
}.

Record World : Type := {
  stats : TreeStats;
  cout : list string;
  cerr : list string;
  visited : list Visit
}.

Definition World_init : World :=
  {| stats := TreeStats_init; cout := []; cerr := []; visited := [] |}.

Definition with_stats (f : TreeStats -> TreeStats) (w : World) : World :=
  {| stats := f (stats w); cout := cout w; cerr := cerr w;
     visited := visited w |}.

Definition cout_line (line : string) (w : World) : World :=
  {| stats := stats w; cout := cout w ++ [line]; cerr := cerr w;
     visited := visited w |}.

Definition cerr_line (line : string) (w : World) : World :=
  {| stats := stats w; cout := cout w; cerr := cerr w ++ [line];
     visited := visited w |}.

Definition note_visit (v : Visit) (w : World) : World :=
  {| stats := stats w; cout := cout w; cerr := cerr w;
     visited := visited w ++ [v] |}.

(** [stats.csvRows.push_back(row)] *)
Definition push_row (row : CsvRow) (st : TreeStats) : TreeStats :=
  {| maxDepth := maxDepth st; folders := folders st; files := files st;
     csvRows := csvRows st ++ [row] |}.

(** [stats.folders++] *)
Definition incr_folders (st : TreeStats) : TreeStats :=
  {| maxDepth := maxDepth st; folders := folders st + 1; files := files st;
     csvRows := csvRows st |}.

(** [stats.files++] *)
Definition incr_files (st : TreeStats) : TreeStats :=
  {| maxDepth := maxDepth st; folders := folders st; files := files st + 1;
     csvRows := csvRows st |}.

(** [stats.maxDepth = std::max(stats.maxDepth, level)] *)
Definition raise_maxDepth (level : Z) (st : TreeStats) : TreeStats :=
  {| maxDepth := Z.max (maxDepth st) level; folders := folders st;
     files := files st; csvRows := csvRows st |}.

(** ** Strings and paths *)

Definition empty (s : string) : bool :=
  match s with EmptyString => true | _ => false end.

Definition ESC : ascii := ascii_of_nat 27.
Definition dircolor : string := String ESC "[1;34m".
Definition filecolor : string := String ESC "[0;32m".
Definition permcolor : string := String ESC "[0;36m".
Definition sizecolor : string := String ESC "[0;33m".
Definition resetcolor : string := String ESC "[0m".

Fixpoint last_char (s : string) : option ascii :=
  match s with
  | EmptyString => None
  | String c EmptyString => Some c
  | String _ s' => last_char s'
  end.

(** [fs::path(p) / q] on POSIX: [q] replaces [p] when it is absolute; else a
    separator is put between them when [p] has a filename, that is when it
    is not empty and does not end in a separator. *)
Definition path_append (p q : string) : string :=
  match q with
  | String "/" _ => q
  | _ =>
      match last_char p with
      | None => q
      | Some "/"%char => p ++ q
      | Some _ => p ++ "/" ++ q
      end
  end.

(** An [int] or a [uintmax_t] written to a stream of the classic locale. *)
Definition decimal (z : Z) : string :=
  DecimalString.NilZero.string_of_int (Z.to_int z).

(** [std::string getPermissions(const fs::directory_entry &entry)], POSIX
    branch. *)
Definition getPermissions (entry : Node) : string :=
  let p := permissions entry in
  let bit (i : Z) (c : ascii) : string :=
    String (if Z.testbit p i then c else "-"%char) EmptyString in
  let perms :=
    bit 8 "r"%char ++ bit 7 "w"%char ++ bit 6 "x"%char ++
    bit 5 "r"%char ++ bit 4 "w"%char ++ bit 3 "x"%char ++
    bit 2 "r"%char ++ bit 1 "w"%char ++ bit 0 "x"%char in
  if empty perms then "-" else perms.

(** [get_file_times], POSIX branch. *)
Definition get_file_times (path : string) : string * string := ("", "").

(** ** Sorting

    [std::sort] with the comparison [a.filename() < b.filename()], which on
    [std::string] is the order of the bytes.  Names are unique within a
    directory, so the outcome does not depend on the algorithm; an insertion
    sort stands for it. *)
Section Sort.
Context {A : Type} (node_of : A -> Node).

Definition name_lt (a b : A) : bool :=
  String.ltb (filename (node_of a)) (filename (node_of b)).

Fixpoint insert_entry (x : A) (l : list A) : list A :=
  match l with
  | [] => [x]
  | y :: l' => if name_lt x y then x :: l else y :: insert_entry x l'
  end.

Definition sort_entries (l : list A) : list A :=
  fold_right insert_entry [] l.
End Sort.

Section Engine.

(** The environment of a run: whether stdout is a terminal
    ([is_console()]), the number format of the user's locale
    ([formatIntWithCommas]), the regular expressions of the standard
    library, and the text of the exception that [fs::directory_iterator]
    throws on a path that is no directory. *)
Variable is_console : bool.
Variable formatIntWithCommas : Z -> string.
Variable regex_match : string -> string -> result bool.
Variable not_a_directory : string.

(** [bool enable_colors(bool nocolors)] *)
Definition enable_colors (nocolors : bool) : bool :=
  negb nocolors && is_console.

(** [std::string formatSizeBytes(uintmax_t bytes)] *)
Definition formatSizeBytes (bytes : Z) : string :=
  formatIntWithCommas bytes ++ " B".

Section Traversal.

Variable args : Args.

(** A call of [printTree] with its directory resolved: path, level,
    prefix, isLast, relpath, and the world it runs in. *)
Definition Walker : Type :=
  string -> Z -> string -> bool -> string -> World -> World.

Section Loop.
Context {A : Type} (node_of : A -> Node) (recurse : A -> Walker).

(** The filter loop over [fs::directory_iterator] (lines 748-768).
    The exceptions of [matchesPattern] are raised inside the same
    [try] block as those of the iterator. *)
Fixpoint collect (l : list A) (failure : option string)
  : result (list A) :=
  match l with
  | [] =>
      match failure with
      | Some what => Throw what
      | None => Ok []
      end
  | a :: l' =>
      let entry := node_of a in
      let name := filename entry in
      if negb (showHidden args) &&
         (match name with String "." _ => true | _ => false end)
      then collect l' failure
      else
        match (if empty (excludePattern args) then Ok false
               else matchesPattern regex_match name
                      (excludePattern args)) with
        | Throw what => Throw what
        | Ok true => collect l' failure
        | Ok false =>
            if showDirsOnly args && negb (is_directory entry)
            then collect l' failure
            else match collect l' failure with
                 | Ok entries => Ok (a :: entries)
                 | Throw what => Throw what
                 end
        end
  end.

(** The size recorded in the row of an entry (lines 804-808):
    [try { row.bytes = isDir ? 0 : entry.file_size(); }
     catch (...) { row.bytes = 0; }]. *)
Definition size_or_zero (entry : Node) : Z :=
  if is_directory entry then 0
  else match file_size entry with
       | Some n => n
       | None => 0
       end.

(** The line written for an entry when no export is asked for
    (lines 791-793 and 817-834).  The size is asked for in the middle of
    the chain of [<<] (line 821); the operands of [<<] are evaluated from
    left to right (C++17), so when [file_size()] throws, the colour and
    the opening bracket are out already, and the [catch] block writes the
    whole of [ [0 B]] after them. *)
Definition render_line (prefix : string) (entryIsLast : bool)
           (entry : Node) : string :=
  let isDir := is_directory entry in
  let branch := if entryIsLast then "`-- " else "|-- " in
  let color :=
    if enable_colors (nocolors args)
    then (if isDir then dircolor else filecolor) else "" in
  let reset := if enable_colors (nocolors args) then resetcolor else "" in
  prefix ++ color ++ branch ++ filename entry ++ reset ++
  (if showSize args then
     (if enable_colors (nocolors args) then sizecolor else "") ++
     " [" ++
     (if is_directory entry then formatSizeBytes 0 ++ "]"
      else match file_size entry with
           | Some n => formatSizeBytes n ++ "]"
           | None =>
               (if enable_colors (nocolors args) then sizecolor else "") ++
               " [0 B]"
           end) ++
     (if enable_colors (nocolors args) then resetcolor else "")
   else "") ++
  (if showPerms args then
     (if enable_colors (nocolors args) then permcolor else "") ++
     " (" ++ getPermissions entry ++ ")" ++
     (if enable_colors (nocolors args) then resetcolor else "")
   else "").

(** The row collected for an entry in export mode (lines 796-814). *)
Definition make_row (dir relpath : string) (entry : Node) : CsvRow :=
  let relp :=
    if empty relpath then filename entry
    else path_append relpath (filename entry) in
  let times := get_file_times (path_append dir (filename entry)) in
  {| relpath := relp;
     name := filename entry;
     type := if is_directory entry then "folder" else "file";
     perms := getPermissions entry;
     bytes := size_or_zero entry;
     created := fst times;
     modified := snd times |}.

(** One turn of the loop over the sorted entries (lines 781-847). *)
Definition processEntry (dir : string) (level : Z) (prefix : string)
           (relpath : string) (a : A) (entryIsLast : bool) (w : World)
  : World :=
  let entry := node_of a in
  let isDir := is_directory entry in
  let w := note_visit {| v_dir := dir; v_level := level;
                         v_prefix := prefix; v_relpath := relpath;
                         v_isLast := entryIsLast; v_entry := entry |}
                      w in
  let w := if empty (csvOut args)
           then cout_line (render_line prefix entryIsLast entry) w
           else with_stats (push_row (make_row dir relpath entry)) w in
  if isDir then
    let w := with_stats incr_folders w in
    recurse a (path_append dir (filename entry)) (level + 1)
      (prefix ++ (if entryIsLast then "    " else "|   "))
      entryIsLast
      (if empty relpath then filename entry
       else relpath ++ "/" ++ filename entry)
      w
  else with_stats incr_files w.

(** [for (size_t i = 0; i < entries.size(); ++i)], with
    [entryIsLast = (i + 1 == entries.size())]. *)
Fixpoint processEntries (dir : string) (level : Z) (prefix : string)
         (relpath : string) (entries : list A) (w : World) : World :=
  match entries with
  | [] => w
  | a :: rest =>
      let entryIsLast := match rest with [] => true | _ => false end in
      processEntries dir level prefix relpath rest
        (processEntry dir level prefix relpath a entryIsLast w)
  end.

(** The body of [printTree] once the depth check has passed, given the
    listing of the directory. *)
Definition walk (children : list A) (failure : option string)
           (dir : string) (level : Z) (prefix : string)
           (relpath : string) (w : World) : World :=
  match collect children failure with
  | Throw what =>
      cerr_line ("[etree] Failed to enumerate directory '" ++ dir ++
                 "': " ++ what) w
  | Ok entries =>
      with_stats (raise_maxDepth level)
        (processEntries dir level prefix relpath
           (sort_entries node_of entries) w)
  end.
End Loop.

(** [void printTree(const fs::path &dir, const Args &args, int level,
    std::string prefix, bool isLast, TreeStats &stats, std::string relpath)].

    [node] is what the file system holds at [dir].  The recursive call
    on an entry is handed to the loop together with the entry, which is
    how the recursion stays structural on the tree. *)
Fixpoint printTree (node : Node) (dir : string) (level : Z)
         (prefix : string) (isLast : bool) (relpath : string) (w : World)
         {struct node} : World :=
  if ((0 <? maxLevel args) && (maxLevel args <? level))%Z then w
  else
    match node with
    | File _ _ _ =>
        walk (A:=Node) (fun e => e) (fun _ _ _ _ _ _ w => w)
             [] (Some not_a_directory) dir level prefix relpath w
    | Dir _ _ children failure =>
        walk fst snd
             (map (fun c => (c, printTree c)) children) failure
             dir level prefix relpath w
    end.

(** ** The traversal, as a relation

    The definitions below do not embed code; they say what the
    specification says of a run, in terms of the functions above. *)

(** The depth check at the head of [printTree]. *)
Definition pruned (level : Z) : bool :=
  ((0 <? maxLevel args) && (maxLevel args <? level))%Z.

(** The children of a directory that pass the filters, sorted; nothing
    when the enumeration throws or the node is no directory. *)
Definition survivors (node : Node) : list Node :=
  match node with
  | File _ _ _ => []
  | Dir _ _ children failure =>
      match collect (fun e => e) children failure with
      | Ok entries => sort_entries (fun e => e) entries
      | Throw _ => []
      end
  end.

(** The entries that a call of [printTree] at [level] loops over. *)
Definition listing (level : Z) (node : Node) : list Node :=
  if pruned level then [] else survivors node.

Definition is_nil {A : Type} (l : list A) : bool :=
  match l with [] => true | _ => false end.

(** The relative path handed down to the call on a directory entry. *)
Definition child_relpath (relpath : string) (entry : Node) : string :=
  if empty relpath then filename entry
  else relpath ++ "/" ++ filename entry.

(** [traversal dir level prefix relpath entries vs]: [vs] is the
    pre-order walk of [entries], taken in the order given, each entry
    followed by the walk of its own listing one level down. *)
Inductive traversal (dir : string) (level : Z) (prefix relpath : string)
  : list Node -> list Visit -> Prop :=
| traversal_nil : traversal dir level prefix relpath [] []
| traversal_cons (e : Node) (rest : list Node) (sub vs : list Visit) :
    traversal (path_append dir (filename e)) (level + 1)
              (prefix ++ (if is_nil rest then "    " else "|   "))
              (child_relpath relpath e)
              (listing (level + 1) e) sub ->
    traversal dir level prefix relpath rest vs ->
    traversal dir level prefix relpath (e :: rest)
              ({| v_dir := dir; v_level := level; v_prefix := prefix;
                  v_relpath := relpath; v_isLast := is_nil rest;
                  v_entry := e |} :: sub ++ vs)%list.

(** The line and the row that belong to a visit. *)
Definition line_of (v : Visit) : string :=
  render_line (v_prefix v) (v_isLast v) (v_entry v).

Definition row_of (v : Visit) : CsvRow :=
  make_row (v_dir v) (v_relpath v) (v_entry v).

Definition dirs_in (vs : list Visit) : Z :=
  Z.of_nat (List.length (filter (fun v => is_directory (v_entry v)) vs)).

Definition files_in (vs : list Visit) : Z :=
  Z.of_nat (List.length (filter (fun v => negb (is_directory (v_entry v))) vs)).

(** [grows_by w w' vs errs]: from [w] to [w'] the entries [vs] were
    taken up and [errs] was written to [cerr]; each entry left one
    line (without export) or one row (with export) and one count, and
    nothing else changed but [maxDepth], which did not fall. *)
Definition grows_by (w w' : World) (vs : list Visit) (errs : list string)
  : Prop :=
  visited w' = (visited w ++ vs)%list /\
  cout w' = (cout w ++ (if empty (csvOut args) then map line_of vs
                        else []))%list /\
  csvRows (stats w') =
    (csvRows (stats w) ++ (if empty (csvOut args) then []
                           else map row_of vs))%list /\
  folders (stats w') = (folders (stats w) + dirs_in vs)%Z /\
  files (stats w') = (files (stats w) + files_in vs)%Z /\
  cerr w' = (cerr w ++ errs)%list /\
  (maxDepth (stats w) <= maxDepth (stats w'))%Z.

(** The effect of a call of [printTree] on [e]: whatever the
    arguments and the world, it takes up the pre-order walk of its
    listing and the world grows by it. *)
Definition effect_at (e : Node) : Prop :=
  forall dir level prefix isLast relpath (w : World),
  exists vs errs,
    traversal dir level prefix relpath (listing level e) vs /\
    grows_by w (printTree e dir level prefix isLast relpath w) vs errs.

(** The colour put before the glyph of an entry. *)
Definition entry_color (e : Node) : string :=
  if enable_colors (nocolors args)
  then (if is_directory e then dircolor else filecolor) else "".

(** [drawing last_glyph other_glyph level prefix entries lines]: the
    classic tree drawing of [entries].  The line of an entry is the
    prefix, the colour, [last_glyph] for the last of the entries and
    [other_glyph] for any other, the name, and a tail (colour reset,
    size, permissions); it is followed by the drawing of what the entry
    lists, one level down, under the prefix extended by four spaces
    when the entry is the last one and by a bar and three spaces when
    it is not. *)
Inductive drawing (last_glyph other_glyph : string)
  : Z -> string -> list Node -> list string -> Prop :=
| drawing_nil level prefix :
    drawing last_glyph other_glyph level prefix [] []
| drawing_cons level prefix (e : Node) (rest : list Node) (tail : string)
               (sub ls : list string) :
    drawing last_glyph other_glyph (level + 1)
            (prefix ++ (if is_nil rest then "    " else "|   "))
            (listing (level + 1) e) sub ->
    drawing last_glyph other_glyph level prefix rest ls ->
    drawing last_glyph other_glyph level prefix (e :: rest)
            ((prefix ++ entry_color e ++
              (if is_nil rest then last_glyph else other_glyph) ++
              filename e ++ tail)%string :: sub ++ ls)%list.

(** [reachable root e]: [e] lies below [root], along directories whose
    enumeration succeeds and entries that pass the filters. *)
Inductive reachable (root : Node) : Node -> Prop :=
| reachable_child (e : Node) :
    In e (survivors root) -> reachable root e
| reachable_below (c e : Node) :
    In c (survivors root) -> reachable c e -> reachable root e.

(** [rows_under level parent entries rows]: [rows] holds one row for
    each of [entries], each followed by the rows of what lies below it,
    and every row's relative path is [parent], a slash, and its name,
    or the bare name when [parent] is empty (the root). *)
Inductive rows_under (level : Z) (parent : string)
  : list Node -> list CsvRow -> Prop :=
| rows_under_nil : rows_under level parent [] []
| rows_under_cons (e : Node) (rest : list Node) (r : CsvRow)
                  (sub rs : list CsvRow) :
    name r = filename e ->
    relpath r = (if empty parent then name r
                 else parent ++ "/" ++ name r) ->
    rows_under (level + 1) (relpath r) (listing (level + 1) e) sub ->
    rows_under level parent rest rs ->
    rows_under level parent (e :: rest) (r :: sub ++ rs)%list.

End Traversal.

(** The header and the rows of [writeTsv] (csv.cpp), one string per line
    of the file after the byte-order mark. *)
Definition TAB : string := String (ascii_of_nat 9) EmptyString.

Definition tsv_header : string :=
  "Relative Path" ++ TAB ++ "Name" ++ TAB ++ "Type" ++ TAB ++
  "Size (bytes)" ++ TAB ++ "Created" ++ TAB ++ "Modified" ++ TAB ++
  "Permissions".

Definition tsv_row (row : CsvRow) : string :=
  relpath row ++ TAB ++ name row ++ TAB ++ type row ++ TAB ++
  decimal (bytes row) ++ TAB ++ created row ++ TAB ++ modified row ++ TAB ++
  perms row.

Definition writeTsv (st : TreeStats) : list string :=
  tsv_header :: map tsv_row (csvRows st).

(** The summary line of [main]. *)
Definition summary (st : TreeStats) : string :=
  "The tree counts " ++ decimal (maxDepth st) ++ " layers, " ++
  decimal (folders st) ++ " folders, " ++ decimal (files st) ++ " files.".

(** [if (!is_console()) args.nocolors = true;] *)
Definition redirected (args0 : Args) : Args :=
  if negb is_console then
    {| folder := folder args0; excludePattern := excludePattern args0;
       csvOut := csvOut args0; maxLevel := maxLevel args0;
       showHidden := showHidden args0; showDirsOnly := showDirsOnly args0;
       showSize := showSize args0; showPerms := showPerms args0;
       nocolors := true; showHelp := showHelp args0;
       showVersion := showVersion args0 |}
  else args0.

(** [main] from the point where the arguments are parsed and neither
    help nor version is asked for.  [root] is what the file system holds
    at [args.folder].  The result is the world at exit and the lines of
    the exported file, if one is written.

    [writeTsv] is taken to create and to write its file: its two error
    paths (csv.cpp lines 45-48 and 72-75, a line on [cerr] each) are not
    part of this model.  What is said below of [cerr] at the end of a
    run is said of runs without an export file, and what is said of the
    exported file is said of a file that could be written. *)
Definition main (args0 : Args) (root : Node) : World * option (list string) :=
  let args := redirected args0 in
  let w := World_init in
  let w :=
    if empty (csvOut args)
    then cout_line ((if enable_colors (nocolors args) then dircolor else "")
                    ++ folder args ++
                    (if enable_colors (nocolors args) then resetcolor else ""))
                   w
    else w in
  let w := printTree args root (folder args) 1 "" true "" w in
  if negb (empty (csvOut args))
  then (w, Some (writeTsv (stats w)))
  else (cout_line (summary (stats w)) (cout_line "" w), None).

End Engine.

(** The glyphs of the specification, in UTF-8:
    U+2514 U+2500 U+2500 and a space, U+251C U+2500 U+2500 and a space. *)
Definition box_last : string := "└── ".
Definition box_other : string := "├── ".

Definition starts_with_slash (s : string) : bool :=
  match s with
  | String "/" _ => true
  | _ => false
  end.

(** [a] comes before [b] in the order of [std::string::operator<]. *)
Definition name_before (a b : Node) : Prop :=
  String.ltb (filename a) (filename b) = true.

(** What a directory holds, and the same directory handing out its
    children in another order. *)
Definition children_of (node : Node) : list Node :=
  match node with
  | File _ _ _ => []
  | Dir _ _ children _ => children
  end.

Definition failure_of (node : Node) : option string :=
  match node with
  | File _ _ _ => None
  | Dir _ _ _ failure => failure
  end.

Definition relisted (node : Node) (l : list Node) : Node :=
  match node with
  | File _ _ _ => node
  | Dir name mode _ failure => Dir name mode l failure
  end.

(** What opening a directory for enumeration comes to. *)
Inductive opening : Type :=
| Opens                      (* the entries can be read *)
| PermissionDenied           (* the process may not read the directory *)
| Fails (what : string).     (* any other error; [what] is [ex.what()] *)

(** [fs::directory_iterator(dir,
    fs::directory_options::skip_permission_denied)] on a directory that
    holds [held]: what the loop is handed, and what is thrown.  A denial
    of permission gives the end iterator and no exception. *)
Definition iterate (o : opening) (held : list Node)
  : list Node * option string :=
  match o with
  | Opens => (held, None)
  | PermissionDenied => ([], None)
  | Fails what => ([], Some what)
  end.

(** The node that the program sees at a directory holding [held]. *)
Definition directory (name : string) (mode : Z) (o : opening)
           (held : list Node) : Node :=
  Dir name mode (fst (iterate o held)) (snd (iterate o held)).

(** [same_tree a b]: the same files and directories, the directories
    handing out their children in whatever order. *)
#[warnings="-register-all"]
Inductive same_tree : Node -> Node -> Prop :=
| same_file name mode size :
    same_tree (File name mode size) (File name mode size)
| same_dir name mode children children0 children' failure :
    Permutation children children0 ->
    Forall2 same_tree children0 children' ->
    same_tree (Dir name mode children failure)
              (Dir name mode children' failure).

(** Two worlds with the same lines on [cout] and the same statistics and
    rows. *)
Definition same_output (w1 w2 : World) : Prop :=
  cout w1 = cout w2 /\ stats w1 = stats w2.

(** A relative path handed down by [printTree]: empty at the root, and
    otherwise neither led nor ended by a separator. *)
Definition handed_down (relpath : string) : Prop :=
  relpath = "" \/
  (starts_with_slash relpath = false /\
   exists c, last_char relpath = Some c /\ c <> "/"%char).

(** The arguments with another depth limit. *)
Definition set_maxLevel (k : Z) (args : Args) : Args :=
  {| folder := folder args; excludePattern := excludePattern args;
     csvOut := csvOut args; maxLevel := k;
     showHidden := showHidden args; showDirsOnly := showDirsOnly args;
     showSize := showSize args; showPerms := showPerms args;
     nocolors := nocolors args; showHelp := showHelp args;
     showVersion := showVersion args |}.

(** A directory entry's name is never empty and holds no separator. *)
Fixpoint has_slash (s : string) : bool :=
  match s with
  | EmptyString => false
  | String c s' => Ascii.eqb c "/" || has_slash s'
  end.

Definition valid_name (s : string) : bool :=
  negb (empty s) && negb (has_slash s).

(** Every name below the node is a valid name. *)
Fixpoint valid_names (node : Node) : bool :=
  match node with
  | File _ _ _ => true
  | Dir _ _ children _ =>
      forallb (fun c => valid_name (filename c) && valid_names c) children
  end.

(** No two children of a directory share a name, at any depth. *)
Fixpoint name_in (s : string) (l : list Node) : bool :=
  match l with
  | [] => false
  | e :: l' => String.eqb s (filename e) || name_in s l'
  end.

Fixpoint distinct_names_in (l : list Node) : bool :=
  match l with
  | [] => true
  | e :: l' => negb (name_in (filename e) l') && distinct_names_in l'
  end.

Fixpoint distinct_names (node : Node) : bool :=
  match node with
  | File _ _ _ => true
  | Dir _ _ children _ =>
      distinct_names_in children && forallb distinct_names children
  end.

(** ** The example of the specification: [/x] holds the folder [a], which
    holds [f.txt] of 10 bytes, and the file [b.tmp]. *)
Definition example_root : Node :=
  Dir "x" 493
    [ File "b.tmp" 420 (Some 3);
      Dir "a" 493 [ File "f.txt" 420 (Some 10) ] None ]
    None.

(** A directory with one file; an empty directory. *)
Definition one_file_root : Node :=
  Dir "x" 493 [ File "f" 420 (Some 1) ] None.

(** A directory that the process may not read, with a file in it: the
    iterator skips the denial, and the program sees an empty directory. *)
Definition locked_dir : Node :=
  directory "locked" 448 PermissionDenied [ File "key" 384 (Some 1) ].

(** A directory that is gone when the iterator is made: the iterator
    throws. *)
Definition vanished_dir : Node :=
  directory "gone" 493 (Fails "No such file or directory") [].

Definition empty_root : Node := Dir "x" 493 [] None.

Definition default_args : Args :=
  {| folder := "."; excludePattern := ""; csvOut := ""; maxLevel := 0;
     showHidden := false; showDirsOnly := false; showSize := false;
     showPerms := false; nocolors := false; showHelp := false;
     showVersion := false |}.

Definition export_args : Args :=
  {| folder := "/x"; excludePattern := "*.tmp"; csvOut := "out.tsv";
     maxLevel := 0; showHidden := false; showDirsOnly := false;
     showSize := false; showPerms := false; nocolors := false;
     showHelp := false; showVersion := false |}.

End Tree.


(* ===================================================================== *)
(** * The command line (args.cpp) *)
(* ===================================================================== *)

Module Cli.

Import Tree.
Local Open Scope string_scope.

(** [s.substr(n)] *)
Fixpoint substr (n : nat) (s : string) : string :=
  match n, s with
  | O, _ => s
  | S n', String _ s' => substr n' s'
  | S _, EmptyString => EmptyString
  end.

(** [s.rfind(p, 0) == 0]: [s] begins with [p]. *)
Fixpoint begins_with (p s : string) : bool :=
  match p, s with
  | EmptyString, _ => true
  | String a p', String b s' => Ascii.eqb a b && begins_with p' s'
  | String _ _, EmptyString => false
  end.

(** [std::isdigit] and [std::isspace] of the classic locale. *)
Definition isdigit (c : ascii) : bool :=
  let n := N_of_ascii c in ((48 <=? n) && (n <=? 57))%N.

Definition isspace (c : ascii) : bool :=
  let n := N_of_ascii c in (n =? 32)%N || ((9 <=? n) && (n <=? 13))%N.

Definition digit_value (c : ascii) : Z := Z.of_N (N_of_ascii c) - 48.

(** ** [std::stoi]

    Library code: [strtol] in base 10 skips white space, takes an optional
    sign and the longest run of digits, and ignores what follows;
    [std::stoi] throws [std::invalid_argument] when there is no digit and
    [std::out_of_range] when the value is no [int].  [what()] is ["stoi"]
    for both (libstdc++). *)
Fixpoint skip_spaces (s : string) : string :=
  match s with
  | String c s' => if isspace c then skip_spaces s' else s
  | EmptyString => EmptyString
  end.

(** The digits at the head of [s], read into [acc]; [seen] tells that a
    digit has been read. *)
Fixpoint scan_digits (s : string) (acc : Z) (seen : bool) : option Z :=
  match s with
  | String c s' =>
      if isdigit c then scan_digits s' (10 * acc + digit_value c) true
      else if seen then Some acc else None
  | EmptyString => if seen then Some acc else None
  end.

Definition INT_MAX : Z := 2147483647.
Definition INT_MIN : Z := -2147483648.

Definition stoi (str : string) : result Z :=
  let s := skip_spaces str in
  let '(negative, digits) :=
    match s with
    | String "-" s' => (true, s')
    | String "+" s' => (false, s')
    | _ => (false, s)
    end in
  match scan_digits digits 0 false with
  | None => Throw "stoi"
  | Some v =>
      let n := if negative then - v else v in
      if ((INT_MIN <=? n) && (n <=? INT_MAX))%Z then Ok n else Throw "stoi"
  end.

(** ** Assignments to the fields of [Args] *)

Definition set_folder (v : string) (a : Args) : Args :=
  {| folder := v; excludePattern := excludePattern a; csvOut := csvOut a;
     maxLevel := maxLevel a; showHidden := showHidden a;
     showDirsOnly := showDirsOnly a; showSize := showSize a;
     showPerms := showPerms a; nocolors := nocolors a;
     showHelp := showHelp a; showVersion := showVersion a |}.

Definition set_excludePattern (v : string) (a : Args) : Args :=
  {| folder := folder a; excludePattern := v; csvOut := csvOut a;
     maxLevel := maxLevel a; showHidden := showHidden a;
     showDirsOnly := showDirsOnly a; showSize := showSize a;
     showPerms := showPerms a; nocolors := nocolors a;
     showHelp := showHelp a; showVersion := showVersion a |}.

Definition set_csvOut (v : string) (a : Args) : Args :=
  {| folder := folder a; excludePattern := excludePattern a; csvOut := v;
     maxLevel := maxLevel a; showHidden := showHidden a;
     showDirsOnly := showDirsOnly a; showSize := showSize a;
     showPerms := showPerms a; nocolors := nocolors a;
     showHelp := showHelp a; showVersion := showVersion a |}.

Definition set_showHidden (a : Args) : Args :=
  {| folder := folder a; excludePattern := excludePattern a;
     csvOut := csvOut a; maxLevel := maxLevel a; showHidden := true;
     showDirsOnly := showDirsOnly a; showSize := showSize a;
     showPerms := showPerms a; nocolors := nocolors a;
     showHelp := showHelp a; showVersion := showVersion a |}.

Definition set_showDirsOnly (a : Args) : Args :=
  {| folder := folder a; excludePattern := excludePattern a;
     csvOut := csvOut a; maxLevel := maxLevel a; showHidden := showHidden a;
     showDirsOnly := true; showSize := showSize a;
     showPerms := showPerms a; nocolors := nocolors a;
     showHelp := showHelp a; showVersion := showVersion a |}.

Definition set_showSize (a : Args) : Args :=
  {| folder := folder a; excludePattern := excludePattern a;
     csvOut := csvOut a; maxLevel := maxLevel a; showHidden := showHidden a;
     showDirsOnly := showDirsOnly a; showSize := true;
     showPerms := showPerms a; nocolors := nocolors a;
     showHelp := showHelp a; showVersion := showVersion a |}.

Definition set_showPerms (a : Args) : Args :=
  {| folder := folder a; excludePattern := excludePattern a;
     csvOut := csvOut a; maxLevel := maxLevel a; showHidden := showHidden a;
     showDirsOnly := showDirsOnly a; showSize := showSize a;
     showPerms := true; nocolors := nocolors a;
     showHelp := showHelp a; showVersion := showVersion a |}.

Definition set_nocolors (a : Args) : Args :=
  {| folder := folder a; excludePattern := excludePattern a;
     csvOut := csvOut a; maxLevel := maxLevel a; showHidden := showHidden a;
     showDirsOnly := showDirsOnly a; showSize := showSize a;
     showPerms := showPerms a; nocolors := true;
     showHelp := showHelp a; showVersion := showVersion a |}.

Definition set_showHelp (a : Args) : Args :=
  {| folder := folder a; excludePattern := excludePattern a;
     csvOut := csvOut a; maxLevel := maxLevel a; showHidden := showHidden a;
     showDirsOnly := showDirsOnly a; showSize := showSize a;
     showPerms := showPerms a; nocolors := nocolors a;
     showHelp := true; showVersion := showVersion a |}.

Definition set_showVersion (a : Args) : Args :=
  {| folder := folder a; excludePattern := excludePattern a;
     csvOut := csvOut a; maxLevel := maxLevel a; showHidden := showHidden a;
     showDirsOnly := showDirsOnly a; showSize := showSize a;
     showPerms := showPerms a; nocolors := nocolors a;
     showHelp := showHelp a; showVersion := true |}.

(** ** [parseArgs] *)

(** The [switch] of the loop over the characters of a combined option
    (lines 121-143): the arguments and [foundUnknown] after one
    character. *)
Definition short_option (c : ascii) (st : Args * bool) : Args * bool :=
  let '(a, foundUnknown) := st in
  if Ascii.eqb c "d" then (set_showDirsOnly a, foundUnknown)
  else if Ascii.eqb c "a" then (set_showHidden a, foundUnknown)
  else if Ascii.eqb c "s" then (set_showSize a, foundUnknown)
  else if Ascii.eqb c "p" then (set_showPerms a, foundUnknown)
  else if Ascii.eqb c "l" || Ascii.eqb c "I" || Ascii.eqb c "o"
       then (a, foundUnknown)
  else (a, true).

(** [for (size_t j = 1; j < arg.size(); ++j)], on the characters from
    index 1 on. *)
Fixpoint short_options (cs : string) (st : Args * bool) : Args * bool :=
  match cs with
  | EmptyString => st
  | String c cs' => short_options cs' (short_option c st)
  end.

(** [/option] becomes [-option] (lines 55-56). *)
Definition dashed (arg : string) : string :=
  if (1 <? String.length arg)%nat && begins_with "/" arg
  then "-" ++ substr 1 arg else arg.

(** The loop of [parseArgs] from index [i] on: [argv] holds
    [argv[i]], [argv[i+1]], ...  An option that takes the next argument
    as its value goes on behind it ([++i]). *)
Fixpoint parse_from (argv : list string) (a : Args) (foundUnknown : bool)
  : result (bool * Args) :=
  match argv with
  | [] => Ok (negb foundUnknown, a)
  | raw :: rest =>
      let next := match rest with n :: _ => n | [] => "" end in
      let behind_next := match rest with _ :: r => r | [] => rest end in
      let arg := dashed raw in
      if String.eqb arg "-v" || String.eqb arg "--version"
      then Ok (true, set_showVersion a)
      else if String.eqb arg "-?" || String.eqb arg "--help"
      then Ok (true, set_showHelp a)
      else if String.eqb arg "-nc"
      then parse_from rest (set_nocolors a) foundUnknown
      else if String.eqb arg "-o" && negb (empty next)
      then parse_from behind_next (set_csvOut next a) foundUnknown
      else if begins_with "-l" arg then
        if (2 <? String.length arg)%nat then
          match stoi (substr 2 arg) with
          | Ok n => parse_from rest (set_maxLevel n a) foundUnknown
          | Throw what => Throw what
          end
        else if negb (empty next) &&
                match next with String c _ => isdigit c | _ => false end
        then
          match stoi next with
          | Ok n => parse_from behind_next (set_maxLevel n a) foundUnknown
          | Throw what => Throw what
          end
        else parse_from rest (set_maxLevel 1 a) foundUnknown
      else if begins_with "-I" arg then
        if (2 <? String.length arg)%nat
        then parse_from rest (set_excludePattern (substr 2 arg) a)
                        foundUnknown
        else if negb (empty next)
        then parse_from behind_next (set_excludePattern next a) foundUnknown
        else parse_from rest a foundUnknown
      else if (2 <=? String.length arg)%nat && begins_with "-" arg then
        let '(a', foundUnknown') :=
          short_options (substr 1 arg) (a, foundUnknown) in
        parse_from rest a' foundUnknown'
      else if String.eqb (folder a) "."
      then parse_from rest (set_folder arg a) foundUnknown
      else parse_from rest a true
  end.

(** [bool parseArgs(int argc, char *argv[], Args &args)]: [argv[0]] is the
    name of the program.  The result is [Throw] when [std::stoi] throws,
    which nothing catches. *)
Definition parseArgs (argv : list string) (args : Args)
  : result (bool * Args) :=
  parse_from (tl argv) args false.

(** An argument that can become the directory: empty, one character, or
    led by neither [-] nor [/]. *)
Definition positional (arg : string) : bool :=
  (String.length arg <? 2)%nat ||
  negb (begins_with "-" arg || begins_with "/" arg).

(** A combined option made of the four flags only. *)
Definition flag_char (c : ascii) : bool :=
  Ascii.eqb c "d" || Ascii.eqb c "a" || Ascii.eqb c "s" || Ascii.eqb c "p".

Fixpoint flags_only (cs : string) : bool :=
  match cs with
  | EmptyString => true
  | String c cs' => flag_char c && flags_only cs'
  end.

(** Each flag of a combined option as an option of its own. *)
Fixpoint one_by_one (cs : string) : list string :=
  match cs with
  | EmptyString => []
  | String c cs' => String "-" (String c EmptyString) :: one_by_one cs'
  end.

End Cli.

(* ===================================================================== *)
(** * Permissions on Windows (etree.cpp lines 336-350, 371) *)
(* ===================================================================== *)

Module Win.

Local Open Scope string_scope.

Section Attributes.

(** The attribute masks and the error value of [GetFileAttributesW], which
    the Windows headers define. *)
Variables FILE_ATTRIBUTE_READONLY FILE_ATTRIBUTE_HIDDEN
          FILE_ATTRIBUTE_SYSTEM FILE_ATTRIBUTE_ARCHIVE
          INVALID_FILE_ATTRIBUTES : Z.

Definition flag (attr mask : Z) (c : ascii) : string :=
  if Z.eqb (Z.land attr mask) 0 then "" else String c EmptyString.

(** [std::string getPermissions(const fs::directory_entry &entry)],
    [_WIN32] branch, on the attributes of the entry. *)
Definition getPermissions (attr : Z) : string :=
  if Z.eqb attr INVALID_FILE_ATTRIBUTES then "-"
  else
    let perms :=
      flag attr FILE_ATTRIBUTE_READONLY "R" ++
      flag attr FILE_ATTRIBUTE_HIDDEN "H" ++
      flag attr FILE_ATTRIBUTE_SYSTEM "S" ++
      flag attr FILE_ATTRIBUTE_ARCHIVE "A" in
    if Tree.empty perms then "-" else perms.

End Attributes.

(** [sub] can be had from [s] by leaving characters out. *)
Fixpoint subsequence (sub s : string) : bool :=
  match sub, s with
  | EmptyString, _ => true
  | String _ _, EmptyString => false
  | String a sub', String b s' =>
      if Ascii.eqb a b then subsequence sub' s' else subsequence sub s'
  end.

End Win.

(* ===================================================================== *)
(** * Notions used to state what the code keeps true *)
(* ===================================================================== *)

Module Notions.

Import Pattern Tree.
Local Open Scope string_scope.

(** A pattern character that stands for itself. *)
Definition literal_char (c : ascii) : bool :=
  negb (Ascii.eqb c "*") && negb (Ascii.eqb c "?").

(** [name[0] == '.'] (line 751). *)
Definition hidden_name (s : string) : bool :=
  match s with String "." _ => true | _ => false end.

(** The three [continue] tests of the filter loop (lines 751-762), taken
    together: the entry is kept. *)
Definition passes (regex_match : string -> string -> result bool)
           (args : Args) (e : Node) : bool :=
  (showHidden args || negb (hidden_name (filename e))) &&
  (empty (excludePattern args) ||
   match matchesPattern regex_match (filename e) (excludePattern args) with
   | Ok false => true
   | _ => false
   end) &&
  (negb (showDirsOnly args) || is_directory e).

(** A string of the characters that [printTree] puts into a prefix. *)
Fixpoint indent_only (s : string) : bool :=
  match s with
  | EmptyString => true
  | String c s' => (Ascii.eqb c " " || Ascii.eqb c "|") && indent_only s'
  end.

(** What a visit's prefix is, below a call at [level] under [prefix]: the
    prefix of the call and four characters of indentation per level. *)
Definition indented (level : Z) (prefix : string) (v : Visit) : Prop :=
  exists ext : string,
    v_prefix v = prefix ++ ext /\
    indent_only ext = true /\
    Z.of_nat (String.length ext) = (4 * (v_level v - level))%Z.

(** Every directory below the node can be enumerated. *)
Fixpoint readable (node : Node) : bool :=
  match node with
  | File _ _ _ => true
  | Dir _ _ children failure =>
      match failure with None => true | Some _ => false end &&
      forallb readable children
  end.

(** Two sets of arguments that filter and cut alike. *)
Definition same_filters (a b : Args) : Prop :=
  excludePattern a = excludePattern b /\
  maxLevel a = maxLevel b /\
  showHidden a = showHidden b /\
  showDirsOnly a = showDirsOnly b.

(** What a run leaves behind apart from the lines and the rows. *)
Definition skeleton (w : World)
  : list Visit * list string * Z * Z * Z :=
  (visited w, cerr w, maxDepth (stats w), folders (stats w),
   files (stats w)).

(** The pattern test returns on the entry, if the entry reaches it: the
    entry is skipped as hidden before, or there is no pattern, or
    [matchesPattern] does not throw. *)
Definition answers (regex_match : string -> string -> result bool)
           (args : Args) (e : Node) : bool :=
  negb (showHidden args || negb (hidden_name (filename e))) ||
  empty (excludePattern args) ||
  match matchesPattern regex_match (filename e) (excludePattern args) with
  | Ok _ => true
  | Throw _ => false
  end.

(** The enumeration of the node succeeds: it is a directory, the
    iterator does not throw, and no pattern test throws. *)
Definition enumerable (regex_match : string -> string -> result bool)
           (args : Args) (d : Node) : bool :=
  is_directory d &&
  match failure_of d with None => true | Some _ => false end &&
  forallb (answers regex_match args) (children_of d).

(** [below root e]: the reachable tree of the specification.  [e] is a
    child of [root] that passes the filters, or lies below such a child;
    the directories on the way are those that the file system lets
    enumerate.  Nothing here refers to the loop of [printTree]. *)
Inductive below (regex_match : string -> string -> result bool)
          (args : Args) (root : Node) : Node -> Prop :=
| below_child (e : Node) :
    enumerable regex_match args root = true ->
    In e (children_of root) ->
    passes regex_match args e = true ->
    below regex_match args root e
| below_deeper (c e : Node) :
    enumerable regex_match args root = true ->
    In c (children_of root) ->
    passes regex_match args c = true ->
    below regex_match args c e ->
    below regex_match args root e.

End Notions.

(* ===================================================================== *)
(** * Facts about the traversal *)
(* ===================================================================== *)

Import Rtl Pattern Tree.

(* --------------------------------------------------------------------- *)
(** ** The RTL shaper *)

(** C7.  On the input of its own documentation, "Hello <alalam> World",
    [wrap_rtl] does not return the documented "Hello <malala> World": the
    space before the Arabic word is carried behind it.  Applying
    [wrap_rtl] to the result does not give the input back. *)
Theorem wrap_rtl_twice_is_not_identity :
  contains_rtl doc_input = true /\
  wrap_rtl doc_input =
    (wstr "Hello" ++ rev alalam ++ wstr "  World")%list /\
  wrap_rtl doc_input <> doc_output /\
  wrap_rtl (wrap_rtl doc_input) =
    (wstr "Hello" ++ alalam ++ wstr "  World")%list /\
  wrap_rtl (wrap_rtl doc_input) <> doc_input.
Proof.
  repeat split; try reflexivity; vm_compute; discriminate.
Qed.

(** *** Where the shaper is its own inverse *)

Lemma loop_res (s : wstring) : forall res buf has,
  wrap_rtl_loop s res buf has = res ++ wrap_rtl_loop s [] buf has.
Proof.
  induction s as [| c s IH]; intros res buf has; simpl.
  - reflexivity.
  - destruct (is_arabic c); [apply IH |].
    destruct (c =? SPACE); [apply IH |].
    rewrite IH, (IH (_ ++ _)). now rewrite <- !app_assoc.
Qed.

Lemma loop_run (r : wstring) : forall rest res buf has,
  forallb is_run_char r = true ->
  wrap_rtl_loop (r ++ rest) res buf has =
  wrap_rtl_loop rest res (buf ++ r) (has || contains_rtl r).
Proof.
  induction r as [| c r IH]; intros rest res buf has Hr; simpl.
  - now rewrite app_nil_r, orb_false_r.
  - simpl in Hr. apply andb_true_iff in Hr. destruct Hr as [Hc Hr].
    unfold is_run_char in Hc.
    destruct (is_arabic c) eqn:Ha.
    + rewrite IH by exact Hr. rewrite <- app_assoc. simpl.
      now rewrite orb_true_r.
    + simpl in Hc. rewrite Hc. rewrite IH by exact Hr.
      rewrite <- app_assoc. reflexivity.
Qed.

Lemma wrap_rtl_run (r : wstring) :
  forallb is_run_char r = true -> wrap_rtl r = flush r (contains_rtl r).
Proof.
  intro Hr. unfold wrap_rtl.
  rewrite <- (app_nil_r r) at 1. rewrite loop_run by exact Hr. reflexivity.
Qed.

Lemma wrap_rtl_run_ltr (r : wstring) (l : wchar) (t : wstring) :
  forallb is_run_char r = true -> is_run_char l = false ->
  wrap_rtl (r ++ l :: t) = flush r (contains_rtl r) ++ l :: wrap_rtl t.
Proof.
  intros Hr Hl. unfold wrap_rtl. rewrite loop_run by exact Hr.
  unfold is_run_char in Hl. apply orb_false_iff in Hl. destruct Hl as [Ha Hs].
  cbn [wrap_rtl_loop app]. rewrite Ha, Hs. cbn [orb app].
  rewrite loop_res. now rewrite <- app_assoc.
Qed.

Lemma pop_spaces (n : nat) (tl acc : wstring) :
  pop_trailing_spaces (repeat SPACE n ++ tl) acc =
  pop_trailing_spaces tl (acc ++ repeat SPACE n).
Proof.
  revert acc. induction n as [| n IH]; intro acc; simpl.
  - now rewrite app_nil_r.
  - rewrite IH, <- app_assoc. reflexivity.
Qed.

Lemma pop_stop (x : wchar) (tl acc : wstring) :
  (x =? SPACE) = false ->
  pop_trailing_spaces (x :: tl) acc = (x :: tl, acc).
Proof. intro H. simpl. now rewrite H. Qed.

Lemma leading_spaces (l : wstring) :
  exists n tl,
    l = repeat SPACE n ++ tl /\
    match tl with [] => True | x :: _ => (x =? SPACE) = false end.
Proof.
  induction l as [| c l (n & tl & -> & Htl)].
  - now exists 0%nat, [].
  - destruct (c =? SPACE) eqn:E.
    + apply Z.eqb_eq in E. subst c. now exists (S n), tl.
    + now exists 0%nat, (c :: repeat SPACE n ++ tl).
Qed.

Lemma rev_repeat_space (n : nat) : rev (repeat SPACE n) = repeat SPACE n.
Proof.
  induction n as [| n IH]; [reflexivity |].
  simpl. rewrite IH. clear IH.
  induction n as [| n IH]; [reflexivity |]. simpl. now rewrite IH.
Qed.

Lemma contains_rtl_spaces (n : nat) : contains_rtl (repeat SPACE n) = false.
Proof. induction n; [reflexivity | exact IHn]. Qed.

Lemma contains_rtl_app (a b : wstring) :
  contains_rtl (a ++ b) = contains_rtl a || contains_rtl b.
Proof. apply existsb_app. Qed.

Lemma contains_rtl_rev (a : wstring) : contains_rtl (rev a) = contains_rtl a.
Proof.
  induction a as [| c a IH]; [reflexivity |].
  simpl. rewrite contains_rtl_app, IH. simpl. rewrite orb_false_r.
  apply orb_comm.
Qed.

(** What a flush of a buffer with RTL text is: the buffer is its core
    followed by [n] spaces, and the flush is the core reversed followed by
    the spaces. *)
Lemma flush_rtl (buf : wstring) :
  exists n tl,
    buf = rev tl ++ repeat SPACE n /\
    match tl with [] => True | x :: _ => (x =? SPACE) = false end /\
    flush buf true = tl ++ repeat SPACE n.
Proof.
  destruct (leading_spaces (rev buf)) as (n & tl & Hrev & Htl).
  exists n, tl. split; [| split; [exact Htl |]].
  - rewrite <- (rev_involutive buf), Hrev, rev_app_distr, rev_repeat_space.
    reflexivity.
  - unfold flush. rewrite Hrev, pop_spaces. cbn [app].
    destruct tl as [| x tl]; [reflexivity |].
    now rewrite pop_stop.
Qed.

Lemma flush_flush (r : wstring) :
  (contains_rtl r = true -> led_by_space r = false) ->
  flush (flush r (contains_rtl r))
        (contains_rtl (flush r (contains_rtl r))) = r /\
  contains_rtl (flush r (contains_rtl r)) = contains_rtl r.
Proof.
  intro Hled. destruct (contains_rtl r) eqn:Hh.
  2: { cbn [flush]. now rewrite Hh. }
  specialize (Hled eq_refl).
  destruct (flush_rtl r) as (n & tl & Hr & Htl & Hf).
  rewrite Hf.
  assert (Hc : contains_rtl (tl ++ repeat SPACE n) = true).
  { rewrite Hr, contains_rtl_app, contains_rtl_rev in Hh.
    now rewrite contains_rtl_app. }
  rewrite Hc. split; [| reflexivity].
  unfold flush. rewrite rev_app_distr, rev_repeat_space, pop_spaces.
  cbn [app].
  destruct tl as [| x tl].
  - rewrite contains_rtl_app, contains_rtl_spaces in Hc. discriminate.
  - destruct (rev (x :: tl)) as [| y k] eqn:Hk.
    + apply (f_equal (@List.length _)) in Hk. rewrite length_rev in Hk.
      discriminate.
    + rewrite Hr in Hled. cbn [app led_by_space] in Hled.
      rewrite pop_stop by exact Hled. now rewrite Hr.
Qed.

Lemma flush_run (r : wstring) (h : bool) :
  forallb is_run_char r = true -> forallb is_run_char (flush r h) = true.
Proof.
  intro Hr. destruct h; [| exact Hr].
  destruct (flush_rtl r) as (n & tl & Hrr & _ & Hf). rewrite Hf.
  rewrite Hrr, forallb_app in Hr. apply andb_true_iff in Hr.
  destruct Hr as [Ht Hn]. rewrite forallb_app, Hn, andb_true_r.
  rewrite forallb_forall in *. intros x Hx. apply Ht. now apply -> in_rev.
Qed.

Lemma run_split (s : wstring) :
  exists r rest,
    s = r ++ rest /\ forallb is_run_char r = true /\
    match rest with [] => True | l :: _ => is_run_char l = false end.
Proof.
  induction s as [| c s (r & rest & -> & Hr & Hrest)].
  - now exists [], [].
  - destruct (is_run_char c) eqn:E.
    + exists (c :: r), rest. repeat split; [| exact Hrest].
      simpl. now rewrite E.
    + exists [], (c :: r ++ rest). now repeat split.
Qed.

Lemma tidy_after_ltr (l : wchar) (t : wstring) (a b : bool) :
  is_run_char l = false -> tidy_from (l :: t) a b = tidy t.
Proof.
  unfold is_run_char. intro H. apply orb_false_iff in H. destruct H as [Ha Hs].
  simpl. now rewrite Ha, Hs.
Qed.

Lemma tidy_run_started (r rest : wstring) :
  forallb is_run_char r = true ->
  tidy_from (r ++ rest) false false = true ->
  tidy_from rest false false = true.
Proof.
  induction r as [| c r IH]; intros Hr H; [exact H |].
  simpl in Hr. apply andb_true_iff in Hr. destruct Hr as [Hc Hr].
  unfold is_run_char in Hc. simpl in H.
  destruct (is_arabic c); [now apply IH |].
  simpl in Hc. rewrite Hc in H. now apply IH.
Qed.

Lemma tidy_run_space_led (r rest : wstring) :
  forallb is_run_char r = true ->
  tidy_from (r ++ rest) false true = true ->
  contains_rtl r = false /\ tidy_from rest false true = true.
Proof.
  induction r as [| c r IH]; intros Hr H; [now split |].
  simpl in Hr. apply andb_true_iff in Hr. destruct Hr as [Hc Hr].
  unfold is_run_char in Hc. simpl in H. simpl.
  destruct (is_arabic c); [discriminate |].
  simpl in Hc. rewrite Hc in H. now apply IH.
Qed.

Lemma tidy_run (r rest : wstring) :
  forallb is_run_char r = true ->
  tidy (r ++ rest) = true ->
  (contains_rtl r = true -> led_by_space r = false) /\
  exists a b, tidy_from rest a b = true.
Proof.
  unfold tidy. destruct r as [| c r]; intros Hr H.
  - split; [discriminate | eauto].
  - simpl in Hr. apply andb_true_iff in Hr. destruct Hr as [Hc Hr].
    unfold is_run_char in Hc. simpl in H. cbn [led_by_space].
    destruct (is_arabic c) eqn:Ha.
    + split; [| eauto using tidy_run_started].
      intros _. unfold is_arabic in Ha.
      destruct (c =? SPACE) eqn:E; [| reflexivity].
      apply Z.eqb_eq in E. subst c. discriminate.
    + simpl in Hc. rewrite Hc in H. cbn [orb] in H.
      destruct (tidy_run_space_led r rest Hr H) as [Hn Ht].
      split; [| eauto].
      simpl. rewrite Ha, Hn. discriminate.
Qed.

(** X4.  Where no stretch of RTL characters and spaces that holds an RTL
    character begins with a space, [wrap_rtl] undoes itself. *)
Theorem wrap_rtl_twice_on_tidy (s : wstring) :
  tidy s = true -> wrap_rtl (wrap_rtl s) = s.
Proof.
  remember (List.length s) as n eqn:Hn. revert s Hn.
  induction n as [n IH] using lt_wf_ind. intros s Hn Ht.
  destruct (run_split s) as (r & rest & -> & Hr & Hrest).
  destruct (tidy_run r rest Hr Ht) as (Hled & a & b & Hrest_tidy).
  destruct (flush_flush r Hled) as [Hff Hc].
  destruct rest as [| l t].
  - rewrite app_nil_r. rewrite (wrap_rtl_run r Hr).
    rewrite wrap_rtl_run by (now apply flush_run). exact Hff.
  - rewrite (wrap_rtl_run_ltr r l t Hr Hrest).
    rewrite wrap_rtl_run_ltr by (try apply flush_run; assumption).
    rewrite Hff. f_equal. f_equal.
    rewrite (tidy_after_ltr l t a b Hrest) in Hrest_tidy.
    apply (IH (List.length t)); [| reflexivity | exact Hrest_tidy].
    subst n. rewrite length_app. simpl. lia.
Qed.

(** *** What the shaper leaves alone *)

Lemma loop_without_rtl (s : wstring) : forall res buf,
  contains_rtl s = false ->
  wrap_rtl_loop s res buf false = (res ++ buf ++ s)%list.
Proof.
  induction s as [| c s IH]; intros res buf H; simpl.
  - now rewrite app_nil_r.
  - simpl in H. apply orb_false_iff in H. destruct H as [Hc Hs].
    rewrite Hc. destruct (c =? SPACE).
    + rewrite IH by exact Hs. now rewrite <- app_assoc.
    + rewrite IH by exact Hs. simpl. now rewrite <- !app_assoc.
Qed.

(** X2.  A string without RTL characters comes back as it is. *)
Theorem wrap_rtl_without_rtl (s : wstring) :
  contains_rtl s = false -> wrap_rtl s = s.
Proof. intro H. unfold wrap_rtl. now rewrite loop_without_rtl. Qed.

Lemma flush_perm (r : wstring) (h : bool) : Permutation r (flush r h).
Proof.
  destruct h; [| apply Permutation_refl].
  destruct (flush_rtl r) as (n & tl & Hr & _ & Hf). rewrite Hf.
  rewrite Hr at 1. apply Permutation_app_tail, Permutation_sym, Permutation_rev.
Qed.

Lemma flush_length (r : wstring) (h : bool) :
  List.length (flush r h) = List.length r.
Proof. symmetry. apply Permutation_length, flush_perm. Qed.

(** X1.  [wrap_rtl] only moves characters: its result is a permutation of
    its argument, of the same length, and holds RTL text exactly when
    the argument does. *)
Theorem wrap_rtl_permutes (s : wstring) :
  Permutation s (wrap_rtl s) /\
  List.length (wrap_rtl s) = List.length s /\
  contains_rtl (wrap_rtl s) = contains_rtl s.
Proof.
  assert (HP : Permutation s (wrap_rtl s)).
  { remember (List.length s) as n eqn:Hn. revert s Hn.
    induction n as [n IH] using lt_wf_ind. intros s Hn.
    destruct (run_split s) as (r & rest & -> & Hr & Hrest).
    destruct rest as [| l t].
    - rewrite app_nil_r, (wrap_rtl_run r Hr). apply flush_perm.
    - rewrite (wrap_rtl_run_ltr r l t Hr Hrest).
      apply Permutation_app; [apply flush_perm |].
      apply perm_skip. apply (IH (List.length t)); [| reflexivity].
      subst n. rewrite length_app. simpl. lia. }
  split; [exact HP |]. split.
  - symmetry. now apply Permutation_length.
  - unfold contains_rtl.
    destruct (existsb is_arabic s) eqn:E.
    + apply existsb_exists in E. destruct E as (x & Hx & Ha).
      apply existsb_exists. exists x. split; [| exact Ha].
      eapply Permutation_in; eassumption.
    + destruct (existsb is_arabic (wrap_rtl s)) eqn:E'; [| reflexivity].
      apply existsb_exists in E'. destruct E' as (x & Hx & Ha).
      assert (existsb is_arabic s = true).
      { apply existsb_exists. exists x. split; [| exact Ha].
        eapply Permutation_in; [apply Permutation_sym; exact HP | exact Hx]. }
      congruence.
Qed.

Lemma wrap_rtl_index (s : wstring) (i : nat) (c : wchar) :
  nth_error s i = Some c -> is_run_char c = false ->
  nth_error (wrap_rtl s) i = Some c.
Proof.
  remember (List.length s) as n eqn:Hn. revert s Hn i.
  induction n as [n IH] using lt_wf_ind. intros s Hn i Hi Hc.
  destruct (run_split s) as (r & rest & -> & Hr & Hrest).
  destruct (Nat.lt_ge_cases i (List.length r)) as [Hlt | Hge].
  - rewrite nth_error_app1 in Hi by exact Hlt.
    apply nth_error_In in Hi. rewrite forallb_forall in Hr.
    rewrite (Hr c Hi) in Hc. discriminate.
  - rewrite nth_error_app2 in Hi by exact Hge.
    destruct rest as [| l t].
    + destruct (i - List.length r)%nat; discriminate.
    + rewrite (wrap_rtl_run_ltr r l t Hr Hrest).
      rewrite nth_error_app2 by (rewrite flush_length; exact Hge).
      rewrite flush_length.
      destruct (i - List.length r)%nat as [| j] eqn:Ej; [exact Hi |].
      cbn [nth_error] in *.
      apply (IH (List.length t)); [| reflexivity | exact Hi | exact Hc].
      subst n. rewrite length_app. simpl. lia.
Qed.

Lemma wrap_rtl_split (a t : wstring) (l : wchar) :
  is_run_char l = false ->
  wrap_rtl (a ++ l :: t) = (wrap_rtl a ++ l :: wrap_rtl t)%list.
Proof.
  intro Hl. remember (List.length a) as n eqn:Hn. revert a Hn.
  induction n as [n IH] using lt_wf_ind. intros a Hn.
  destruct (run_split a) as (r & rest & -> & Hr & Hrest).
  destruct rest as [| l' t'].
  - rewrite app_nil_r, (wrap_rtl_run_ltr r l t Hr Hl), (wrap_rtl_run r Hr).
    reflexivity.
  - rewrite <- app_assoc. cbn [app].
    rewrite (wrap_rtl_run_ltr r l' (t' ++ l :: t) Hr Hrest).
    rewrite (wrap_rtl_run_ltr r l' t' Hr Hrest).
    rewrite (IH (List.length t')); [| | reflexivity].
    + rewrite <- app_assoc. reflexivity.
    + subst n. rewrite length_app. simpl. lia.
Qed.

(** X3.  A character that is neither RTL nor a space stays at its index,
    and [wrap_rtl] works on what is before it and on what is behind it
    apart; a stretch of RTL characters and spaces comes back as a
    permutation of itself, made of RTL characters and spaces.  So only
    the stretches between such characters are rearranged, each within
    itself. *)
Theorem wrap_rtl_keeps_ltr_in_place :
  (forall (s : wstring) (i : nat) (c : wchar),
      nth_error s i = Some c -> is_run_char c = false ->
      nth_error (wrap_rtl s) i = Some c) /\
  (forall (a t : wstring) (l : wchar),
      is_run_char l = false ->
      wrap_rtl (a ++ l :: t) = (wrap_rtl a ++ l :: wrap_rtl t)%list) /\
  (forall r : wstring,
      forallb is_run_char r = true ->
      Permutation r (wrap_rtl r) /\
      forallb is_run_char (wrap_rtl r) = true).
Proof.
  split; [exact wrap_rtl_index |]. split; [exact wrap_rtl_split |].
  intros r Hr. rewrite (wrap_rtl_run r Hr).
  split; [apply flush_perm | now apply flush_run].
Qed.

Lemma wrap_rtl_without_rtl_witness :
  contains_rtl (wstr "a.txt  b") = false /\
  wrap_rtl (wstr "a.txt  b") = wstr "a.txt  b".
Proof.
  split; [reflexivity |].
  apply (wrap_rtl_without_rtl (wstr "a.txt  b")). reflexivity.
Defined.

Lemma wrap_rtl_keeps_ltr_in_place_witness :
  nth_error doc_input 13 = Some 87 /\ is_run_char 87 = false /\
  nth_error (wrap_rtl doc_input) 13 = Some 87 /\
  wrap_rtl doc_input =
    (wrap_rtl (wstr "Hello " ++ alalam ++ wstr " ") ++
     87 :: wrap_rtl (wstr "orld"))%list /\
  forallb is_run_char (alalam ++ wstr " ") = true /\
  Permutation (alalam ++ wstr " ") (wrap_rtl (alalam ++ wstr " ")).
Proof.
  split; [reflexivity |]. split; [reflexivity |].
  destruct wrap_rtl_keeps_ltr_in_place as (Hindex & Hsplit & Hrun).
  split; [apply (Hindex doc_input 13%nat 87); reflexivity |].
  split; [exact (Hsplit (wstr "Hello " ++ alalam ++ wstr " ")%list
                   (wstr "orld") 87 eq_refl) |].
  split; [reflexivity |].
  exact (proj1 (Hrun (alalam ++ wstr " ")%list eq_refl)).
Defined.

Lemma wrap_rtl_twice_on_tidy_witness :
  tidy (wstr "ab" ++ alalam ++ wstr " c") = true /\
  wrap_rtl (wstr "ab" ++ alalam ++ wstr " c") =
    (wstr "ab" ++ rev alalam ++ wstr " c")%list /\
  wrap_rtl (wrap_rtl (wstr "ab" ++ alalam ++ wstr " c")) =
    (wstr "ab" ++ alalam ++ wstr " c")%list.
Proof.
  split; [reflexivity |]. split; [reflexivity |].
  apply (wrap_rtl_twice_on_tidy (wstr "ab" ++ alalam ++ wstr " c")).
  reflexivity.
Defined.

Local Open Scope string_scope.

(* --------------------------------------------------------------------- *)
(** ** The pattern matcher *)

Lemma fragment_engine_standard : standard fragment_engine.
Proof.
  intros re name. unfold fragment_engine.
  destruct (ecma_fragment re name); eauto.
Qed.

(** C3.  A [+] in the pattern is not matched literally: it reaches the
    regular expression as it is and repeats the character before it.  The
    pattern [a+] does not match the name [a+] and matches the name [aa],
    where anchored glob matching says the opposite. *)
Theorem plus_in_pattern_is_a_quantifier
  (regex_match : string -> string -> result bool) :
  standard regex_match ->
  matchesPattern regex_match "a+" "a+" = Ok false /\
  glob_matches "a+" "a+" = true /\
  matchesPattern regex_match "aa" "a+" = Ok true /\
  glob_matches "aa" "a+" = false.
Proof.
  intro Hstd.
  pose proof (Hstd "^a+$" "a+") as H1. pose proof (Hstd "^a+$" "aa") as H2.
  vm_compute in H1, H2. repeat split; assumption || reflexivity.
Qed.

Lemma plus_in_pattern_is_a_quantifier_witness :
  standard fragment_engine /\
  matchesPattern fragment_engine "a+" "a+" = Ok false /\
  glob_matches "a+" "a+" = true /\
  matchesPattern fragment_engine "aa" "a+" = Ok true /\
  glob_matches "aa" "a+" = false.
Proof.
  split; [exact fragment_engine_standard |].
  exact (plus_in_pattern_is_a_quantifier fragment_engine
           fragment_engine_standard).
Defined.

(** *** Where the matcher is a glob matcher *)

Lemma string_append_assoc (a b c : string) :
  (a ++ b) ++ c = a ++ b ++ c.
Proof. induction a as [| x a IH]; simpl; [| rewrite IH]; reflexivity. Qed.

Lemma replace_char_app (c : ascii) (fmt a b : string) :
  replace_char c fmt (a ++ b) = replace_char c fmt a ++ replace_char c fmt b.
Proof.
  induction a as [| x a IH]; simpl; [reflexivity |].
  destruct (Ascii.eqb x c); rewrite IH; [| reflexivity].
  now rewrite string_append_assoc.
Qed.

Lemma regexPattern_cons (c : ascii) (p : string) :
  regexPattern (String c p) = regex_of_char c ++ regexPattern p.
Proof.
  unfold regexPattern, regex_of_char.
  change (String c p) with (String c EmptyString ++ p).
  rewrite !replace_char_app.
  destruct (Ascii.eqb_spec c "."); [subst; reflexivity |].
  destruct (Ascii.eqb_spec c "?"); [subst; reflexivity |].
  destruct (Ascii.eqb_spec c "*"); [subst; reflexivity |].
  simpl.
  destruct (Ascii.eqb_spec c "."); [contradiction |]. simpl.
  destruct (Ascii.eqb_spec c "?"); [contradiction |]. simpl.
  destruct (Ascii.eqb_spec c "*"); [contradiction |]. reflexivity.
Qed.

Lemma list_ascii_of_string_app (a b : string) :
  list_ascii_of_string (a ++ b) =
  (list_ascii_of_string a ++ list_ascii_of_string b)%list.
Proof. induction a as [| x a IH]; simpl; [| rewrite IH]; reflexivity. Qed.

Lemma is_syntax_char_backslash : is_syntax_char BACKSLASH = true.
Proof. reflexivity. Qed.

Lemma tokenize_regex_of_char (c : ascii) (rest : list ascii) :
  glob_char c = true ->
  tokenize (list_ascii_of_string (regex_of_char c) ++ rest) =
  (tokens_of_char c ++ tokenize rest)%list.
Proof.
  unfold glob_char, regex_of_char, tokens_of_char. intro Hg.
  destruct (Ascii.eqb_spec c "."); [subst; reflexivity |].
  destruct (Ascii.eqb_spec c "?"); [subst; reflexivity |].
  destruct (Ascii.eqb_spec c "*"); [subst; reflexivity |].
  simpl in Hg. apply negb_true_iff in Hg.
  cbn [list_ascii_of_string app tokenize].
  destruct (Ascii.eqb_spec c BACKSLASH) as [-> | _];
    [rewrite is_syntax_char_backslash in Hg; discriminate |].
  unfold token_of_char. rewrite Hg.
  destruct (Ascii.eqb_spec c "."); [contradiction |].
  destruct (Ascii.eqb_spec c "*"); [contradiction |].
  destruct (Ascii.eqb_spec c "?"); [contradiction |].
  destruct (Ascii.eqb_spec c "+") as [-> | _]; [discriminate |].
  destruct (Ascii.eqb_spec c "^") as [-> | _]; [discriminate |].
  destruct (Ascii.eqb_spec c "$") as [-> | _]; [discriminate |].
  reflexivity.
Qed.

(** The tokens of a translated pattern, the closing anchor included. *)
Lemma tokenize_regexPattern (p : string) :
  glob_only p = true ->
  tokenize (list_ascii_of_string (regexPattern p ++ "$")) =
  (flat_map tokens_of_char (list_ascii_of_string p) ++ [TDollar])%list.
Proof.
  unfold glob_only. induction p as [| c p IH]; [reflexivity |].
  cbn [list_ascii_of_string forallb flat_map]. rewrite andb_true_iff.
  intros [Hc Hp].
  rewrite regexPattern_cons, string_append_assoc, list_ascii_of_string_app.
  rewrite tokenize_regex_of_char by exact Hc.
  rewrite IH by exact Hp. now rewrite app_assoc.
Qed.

Lemma tokens_of_char_no_beyond (c : ascii) :
  existsb is_beyond (tokens_of_char c) = false.
Proof.
  unfold tokens_of_char.
  destruct (Ascii.eqb c "."), (Ascii.eqb c "?"), (Ascii.eqb c "*");
    reflexivity.
Qed.

Lemma tokens_no_beyond (l : list ascii) :
  existsb is_beyond (flat_map tokens_of_char l ++ [TDollar]) = false.
Proof.
  induction l as [| c l IH]; [reflexivity |].
  cbn [flat_map]. rewrite <- app_assoc, existsb_app, IH.
  now rewrite tokens_of_char_no_beyond.
Qed.

(** What follows the tokens of a pattern character is never a
    quantifier: it is the first token of the next character, or the
    closing anchor. *)
Lemma tokens_head_no_quant (l : list ascii) :
  exists t ts,
    (flat_map tokens_of_char l ++ [TDollar])%list = t :: ts /\
    quant_of_token t = None.
Proof.
  destruct l as [| c l]; [now exists TDollar, [] |].
  cbn [flat_map]. unfold tokens_of_char.
  destruct (Ascii.eqb c "."), (Ascii.eqb c "?"), (Ascii.eqb c "*");
    cbn [app]; eexists _, _; split; reflexivity.
Qed.

Lemma parse_terms_once (t q : token) (a : atom) (rest : list token)
      (after_quant : bool) :
  atom_of_token t = Some a -> quant_of_token q = None ->
  parse_terms (t :: q :: rest) after_quant =
  cons_term (a, Once) (parse_terms (q :: rest) false).
Proof.
  intros Ha Hq. destruct t; try discriminate; inversion Ha; subst;
    cbn [parse_terms atom_of_token]; now rewrite Hq.
Qed.

Lemma parse_terms_star (rest : list token) (after_quant : bool) :
  parse_terms (TDot :: TStar :: rest) after_quant =
  cons_term (AnyChar, ZeroOrMore) (parse_terms rest true).
Proof. reflexivity. Qed.

Lemma parse_terms_tokens (l : list ascii) (after_quant : bool) :
  parse_terms (flat_map tokens_of_char l ++ [TDollar]) after_quant =
  Terms (map term_of_char l).
Proof.
  revert after_quant. induction l as [| c l IH]; intro aq; [reflexivity |].
  cbn [flat_map map]. rewrite <- app_assoc.
  destruct (tokens_head_no_quant l) as (t & ts & Ht & Hq).
  unfold tokens_of_char at 1. unfold term_of_char at 1.
  destruct (Ascii.eqb c "."); [| destruct (Ascii.eqb c "?");
                                 [| destruct (Ascii.eqb c "*")]];
    cbn [app].
  - rewrite Ht, (parse_terms_once _ _ (Lit ".")), <- Ht, IH by easy.
    reflexivity.
  - rewrite Ht, (parse_terms_once _ _ AnyChar), <- Ht, IH by easy.
    reflexivity.
  - rewrite parse_terms_star, IH. reflexivity.
  - rewrite Ht, (parse_terms_once _ _ (Lit c)), <- Ht, IH by easy.
    reflexivity.
Qed.

Lemma parse_regexPattern (p : string) :
  glob_only p = true ->
  parse ("^" ++ regexPattern p ++ "$") =
  Terms (map term_of_char (list_ascii_of_string p)).
Proof.
  intro Hg. unfold parse.
  change (list_ascii_of_string ("^" ++ regexPattern p ++ "$"))
    with ("^"%char :: list_ascii_of_string (regexPattern p ++ "$")).
  cbn [tokenize]. change (Ascii.eqb "^" BACKSLASH) with false. cbv iota.
  change (token_of_char "^") with TCaret.
  rewrite tokenize_regexPattern by exact Hg.
  cbn [existsb is_beyond orb]. rewrite tokens_no_beyond.
  apply parse_terms_tokens.
Qed.

Lemma match_terms_once (a : atom) (ts : list term) (s : list ascii) :
  match_terms ((a, Once) :: ts) s =
  match s with
  | d :: s' => atom_matches a d && match_terms ts s'
  | [] => false
  end.
Proof. reflexivity. Qed.

Lemma match_terms_many (a : atom) (ts : list term) (s : list ascii) :
  match_terms ((a, ZeroOrMore) :: ts) s =
  match_terms ts s ||
  match s with
  | d :: s' => atom_matches a d && match_terms ((a, ZeroOrMore) :: ts) s'
  | [] => false
  end.
Proof. destruct s; reflexivity. Qed.

Lemma glob_star (p s : list ascii) :
  glob ("*"%char :: p) s =
  glob p s || match s with
              | _ :: s' => glob ("*"%char :: p) s'
              | [] => false
              end.
Proof. destruct s; reflexivity. Qed.

Lemma glob_quest (p s : list ascii) :
  glob ("?"%char :: p) s =
  match s with _ :: s' => glob p s' | [] => false end.
Proof. reflexivity. Qed.

Lemma glob_literal (c : ascii) (p s : list ascii) :
  c <> "*"%char -> c <> "?"%char ->
  glob (c :: p) s =
  match s with
  | d :: s' => Ascii.eqb (to_lower c) (to_lower d) && glob p s'
  | [] => false
  end.
Proof.
  intros Hs Hq. cbn [glob].
  destruct (Ascii.eqb_spec c "*"); [contradiction |].
  destruct (Ascii.eqb_spec c "?"); [contradiction |]. reflexivity.
Qed.

Lemma match_terms_glob (p s : list ascii) :
  forallb (fun c => negb (is_line_terminator c)) s = true ->
  match_terms (map term_of_char p) s = glob p s.
Proof.
  revert s. induction p as [| c p IH]; intros s Hs; [reflexivity |].
  cbn [map]. unfold term_of_char at 1.
  destruct (Ascii.eqb_spec c ".") as [-> | Hdot].
  - rewrite match_terms_once, glob_literal by discriminate.
    destruct s as [| d s]; [reflexivity |].
    cbn [forallb] in Hs. apply andb_true_iff in Hs. destruct Hs as [_ Hs].
    now rewrite IH.
  - destruct (Ascii.eqb_spec c "?") as [-> | Hq].
    + rewrite match_terms_once, glob_quest.
      destruct s as [| d s]; [reflexivity |].
      cbn [forallb] in Hs. apply andb_true_iff in Hs. destruct Hs as [Hd Hs].
      cbn [atom_matches]. rewrite Hd. now apply IH.
    + destruct (Ascii.eqb_spec c "*") as [-> | Hst].
      * cbv iota. induction s as [| d s IHs].
        -- rewrite match_terms_many, glob_star. now rewrite IH.
        -- rewrite match_terms_many, glob_star. rewrite IH by exact Hs.
           cbn [forallb] in Hs. apply andb_true_iff in Hs.
           destruct Hs as [Hd Hs].
           cbn [atom_matches]. rewrite Hd. cbn [andb].
           f_equal. exact (IHs Hs).
      * rewrite match_terms_once, glob_literal by assumption.
        destruct s as [| d s]; [reflexivity |].
        cbn [forallb] in Hs. apply andb_true_iff in Hs. destruct Hs as [_ Hs].
        cbn [atom_matches]. now rewrite IH.
Qed.

(** X5.  On patterns made of wildcards, dots and characters without a
    meaning in regular expressions, and on names without a line break,
    [matchesPattern] is anchored, case-insensitive glob matching
    (given a regular-expression engine that is [standard]). *)
Theorem matchesPattern_is_glob_matching
  (regex_match : string -> string -> result bool) (name pattern : string) :
  standard regex_match ->
  glob_only pattern = true ->
  no_line_terminator name = true ->
  matchesPattern regex_match name pattern = Ok (glob_matches name pattern).
Proof.
  intros Hstd Hp Hn. unfold matchesPattern, glob_matches.
  destruct pattern as [| c p]; [reflexivity |].
  specialize (Hstd ("^" ++ regexPattern (String c p) ++ "$") name).
  unfold ecma_fragment in Hstd. rewrite parse_regexPattern in Hstd by exact Hp.
  rewrite Hstd. f_equal. now apply match_terms_glob.
Qed.

(* --------------------------------------------------------------------- *)
(** ** The traversal *)

(** Induction on a tree, with the property at hand for every child. *)
Lemma Node_ind'
  (P : Node -> Prop)
  (HFile : forall name mode size, P (File name mode size))
  (HDir : forall name mode children failure,
      Forall P children -> P (Dir name mode children failure)) :
  forall n, P n.
Proof.
  fix IH 1. intros [nm md sz | nm md ch fl].
  - apply HFile.
  - apply HDir. induction ch as [| c ch IHch]; constructor.
    + apply IH.
    + exact IHch.
Qed.

Section SortFacts.
Context {A : Type} (node_of : A -> Node).

Lemma insert_entry_perm (x : A) (l : list A) :
  Permutation (x :: l) (insert_entry node_of x l).
Proof.
  induction l as [| y l IH]; simpl.
  - apply Permutation_refl.
  - destruct (name_lt node_of x y).
    + apply Permutation_refl.
    + eapply Permutation_trans; [apply perm_swap |].
      apply perm_skip, IH.
Qed.

Lemma sort_entries_perm (l : list A) :
  Permutation l (sort_entries node_of l).
Proof.
  induction l as [| x l IH]; simpl.
  - constructor.
  - eapply Permutation_trans; [apply perm_skip, IH |].
    apply insert_entry_perm.
Qed.

Lemma sort_entries_In (l : list A) (x : A) :
  In x (sort_entries node_of l) <-> In x l.
Proof.
  split; intro H.
  - eapply Permutation_in; [apply Permutation_sym, sort_entries_perm | exact H].
  - eapply Permutation_in; [apply sort_entries_perm | exact H].
Qed.
End SortFacts.

(** The loop functions commute with a relabelling of the entries; this is
    what turns the recursion of [printTree], which carries each recursive
    call along with its entry, back into the plain one. *)
Section Relabel.
Context {A B : Type} (g : B -> A) (node_of : A -> Node).
Variable is_console : bool.
Variable formatIntWithCommas : Z -> string.
Variable regex_match : string -> string -> result bool.
Variable args : Args.
Variable recurse : A -> Walker.

Lemma insert_entry_map (x : B) (l : list B) :
  insert_entry node_of (g x) (map g l) =
  map g (insert_entry (fun b => node_of (g b)) x l).
Proof.
  induction l as [| y l IH]; simpl; [reflexivity |].
  unfold name_lt. destruct (String.ltb _ _); simpl.
  - reflexivity.
  - now rewrite IH.
Qed.

Lemma sort_entries_map (l : list B) :
  sort_entries node_of (map g l) =
  map g (sort_entries (fun b => node_of (g b)) l).
Proof.
  induction l as [| x l IH]; simpl; [reflexivity |].
  rewrite IH. apply insert_entry_map.
Qed.

Lemma collect_map (l : list B) (failure : option string) :
  collect regex_match args node_of (map g l) failure =
  match collect regex_match args (fun b => node_of (g b)) l failure with
  | Ok entries => Ok (map g entries)
  | Throw what => Throw what
  end.
Proof.
  induction l as [| x l IH]; simpl.
  - now destruct failure.
  - rewrite IH.
    destruct (negb (showHidden args) && _); [reflexivity |].
    destruct (if empty (excludePattern args) then _ else _) as [[|] | what];
      try reflexivity.
    destruct (showDirsOnly args && _); [reflexivity |].
    now destruct (collect regex_match args _ l failure).
Qed.

Lemma processEntries_map dir level prefix relpath (l : list B) (w : World) :
  processEntries is_console formatIntWithCommas args node_of recurse
    dir level prefix relpath (map g l) w =
  processEntries is_console formatIntWithCommas args
    (fun b => node_of (g b)) (fun b => recurse (g b))
    dir level prefix relpath l w.
Proof.
  revert w. induction l as [| x l IH]; intro w; simpl; [reflexivity |].
  rewrite IH. now destruct l.
Qed.

Lemma walk_map (l : list B) failure dir level prefix relpath (w : World) :
  walk is_console formatIntWithCommas regex_match args node_of recurse
    (map g l) failure dir level prefix relpath w =
  walk is_console formatIntWithCommas regex_match args
    (fun b => node_of (g b)) (fun b => recurse (g b))
    l failure dir level prefix relpath w.
Proof.
  unfold walk. rewrite collect_map.
  destruct (collect regex_match args _ l failure); [| reflexivity].
  now rewrite sort_entries_map, processEntries_map.
Qed.
End Relabel.

Section TraversalFacts.
Variable is_console : bool.
Variable formatIntWithCommas : Z -> string.
Variable regex_match : string -> string -> result bool.
Variable not_a_directory : string.
Variable args : Args.

Local Abbreviation printTree :=
  (Tree.printTree is_console formatIntWithCommas regex_match
     not_a_directory args).
Local Abbreviation processEntries :=
  (Tree.processEntries is_console formatIntWithCommas args
     (fun e : Node => e) (fun e : Node => printTree e)).
Local Abbreviation processEntry :=
  (Tree.processEntry is_console formatIntWithCommas args
     (fun e : Node => e) (fun e : Node => printTree e)).
Local Abbreviation collect := (Tree.collect regex_match args (fun e : Node => e)).
Local Abbreviation sort_entries := (Tree.sort_entries (fun e : Node => e)).
Local Abbreviation line_of := (Tree.line_of is_console formatIntWithCommas args).
Local Abbreviation row_of := Tree.row_of.
Local Abbreviation traversal := (Tree.traversal regex_match args).
Local Abbreviation listing := (Tree.listing regex_match args).
Local Abbreviation survivors := (Tree.survivors regex_match args).
Local Abbreviation pruned := (Tree.pruned args).

(** [printTree] as the source reads: the depth check, the filter loop
    under [try], the sort, the loop over the entries with the recursive
    calls, the update of [maxDepth]. *)
Lemma printTree_Dir name mode children failure dir level prefix isLast
      relpath (w : World) :
  printTree (Dir name mode children failure) dir level prefix isLast
            relpath w =
  if pruned level then w
  else match collect children failure with
       | Throw what =>
           cerr_line ("[etree] Failed to enumerate directory '" ++ dir ++
                      "': " ++ what) w
       | Ok entries =>
           with_stats (raise_maxDepth level)
             (processEntries dir level prefix relpath
                (sort_entries entries) w)
       end.
Proof.
  cbn [Tree.printTree]. unfold Tree.pruned.
  destruct ((0 <? maxLevel args)%Z && (maxLevel args <? level)%Z);
    [reflexivity |].
  rewrite walk_map. reflexivity.
Qed.

Lemma printTree_File name mode size dir level prefix isLast relpath
      (w : World) :
  printTree (File name mode size) dir level prefix isLast relpath w =
  if pruned level then w
  else cerr_line ("[etree] Failed to enumerate directory '" ++ dir ++
                  "': " ++ not_a_directory) w.
Proof. reflexivity. Qed.

Local Abbreviation grows_by :=
  (Tree.grows_by is_console formatIntWithCommas args).
Local Abbreviation effect_at :=
  (Tree.effect_at is_console formatIntWithCommas regex_match
     not_a_directory args).

Lemma dirs_in_app (vs1 vs2 : list Visit) :
  dirs_in (vs1 ++ vs2) = (dirs_in vs1 + dirs_in vs2)%Z.
Proof.
  unfold dirs_in. rewrite filter_app, length_app. apply Nat2Z.inj_add.
Qed.

Lemma files_in_app (vs1 vs2 : list Visit) :
  files_in (vs1 ++ vs2) = (files_in vs1 + files_in vs2)%Z.
Proof.
  unfold files_in. rewrite filter_app, length_app. apply Nat2Z.inj_add.
Qed.

Lemma dirs_files_in (vs : list Visit) :
  (dirs_in vs + files_in vs)%Z = Z.of_nat (List.length vs).
Proof.
  unfold dirs_in, files_in.
  induction vs as [| v vs IH]; simpl; [reflexivity |].
  destruct (is_directory (v_entry v)); simpl List.length; lia.
Qed.

Lemma grows_by_refl (w : World) : grows_by w w [] [].
Proof.
  unfold Tree.grows_by. simpl.
  destruct (empty (csvOut args)); rewrite ?app_nil_r;
    repeat split; try reflexivity; unfold dirs_in, files_in; simpl; lia.
Qed.

Lemma grows_by_trans (w1 w2 w3 : World) vs1 vs2 errs1 errs2 :
  grows_by w1 w2 vs1 errs1 -> grows_by w2 w3 vs2 errs2 ->
  grows_by w1 w3 (vs1 ++ vs2) (errs1 ++ errs2).
Proof.
  unfold Tree.grows_by.
  intros (Hv1 & Ho1 & Hr1 & Hd1 & Hf1 & He1 & Hm1)
         (Hv2 & Ho2 & Hr2 & Hd2 & Hf2 & He2 & Hm2).
  rewrite Hv2, Hv1, Ho2, Ho1, Hr2, Hr1, Hd2, Hd1, Hf2, Hf1, He2, He1.
  rewrite dirs_in_app, files_in_app.
  destruct (empty (csvOut args)); rewrite ?map_app, ?app_nil_r, <- ?app_assoc;
    repeat split; try reflexivity; lia.
Qed.

(** What the loop does with an entry before it descends or counts a
    file: the ghost note and the line or the row. *)
Lemma processEntry_unfold dir level prefix relpath (e : Node)
      (entryIsLast : bool) (w : World) :
  processEntry dir level prefix relpath e entryIsLast w =
  let v := {| v_dir := dir; v_level := level; v_prefix := prefix;
              v_relpath := relpath; v_isLast := entryIsLast;
              v_entry := e |} in
  let w1 := note_visit v w in
  let w2 := if empty (csvOut args) then cout_line (line_of v) w1
            else with_stats (push_row (row_of v)) w1 in
  if is_directory e then
    printTree e (path_append dir (filename e)) (level + 1)
      (prefix ++ (if entryIsLast then "    " else "|   ")) entryIsLast
      (child_relpath relpath e) (with_stats incr_folders w2)
  else with_stats incr_files w2.
Proof. reflexivity. Qed.

Lemma listing_File level name mode size :
  listing level (File name mode size) = [].
Proof. unfold Tree.listing. now destruct (pruned level). Qed.

Lemma processEntry_effect dir level prefix relpath (e : Node) (rest : list Node)
      (w : World) :
  effect_at e ->
  exists sub errs,
    traversal (path_append dir (filename e)) (level + 1)
              (prefix ++ (if is_nil rest then "    " else "|   "))
              (child_relpath relpath e) (listing (level + 1) e) sub /\
    grows_by w (processEntry dir level prefix relpath e (is_nil rest) w)
      ({| v_dir := dir; v_level := level; v_prefix := prefix;
          v_relpath := relpath; v_isLast := is_nil rest; v_entry := e |}
         :: sub) errs.
Proof.
  intro IH. rewrite processEntry_unfold. cbv zeta.
  set (v := {| v_dir := dir; v_level := level; v_prefix := prefix;
               v_relpath := relpath; v_isLast := is_nil rest; v_entry := e |}).
  destruct (is_directory e) eqn:Hdir.
  - match goal with
    | |- context [printTree e ?d ?l ?p ?il ?r ?w0] =>
        destruct (IH d l p il r w0) as (sub & errs & Htr & Hg)
    end.
    exists sub, errs. split; [exact Htr |].
    change (v :: sub) with ([v] ++ sub)%list.
    change errs with ([] ++ errs)%list.
    eapply grows_by_trans; [| exact Hg].
    unfold Tree.grows_by, dirs_in, files_in. simpl. subst v; simpl.
    rewrite Hdir. simpl.
    destruct (empty (csvOut args)); simpl; rewrite ?app_nil_r;
      repeat split; try reflexivity; lia.
  - exists [], []. split.
    + destruct e; [| discriminate]. rewrite listing_File. constructor.
    + unfold Tree.grows_by, dirs_in, files_in. simpl. subst v; simpl.
      rewrite Hdir. simpl.
      destruct (empty (csvOut args)); simpl; rewrite ?app_nil_r;
        repeat split; try reflexivity; lia.
Qed.

Lemma processEntries_effect dir level prefix relpath (es : list Node) :
  Forall effect_at es ->
  forall w : World,
  exists vs errs,
    traversal dir level prefix relpath es vs /\
    grows_by w (processEntries dir level prefix relpath es w) vs errs.
Proof.
  induction 1 as [| e rest He Hrest IH]; intro w.
  - exists [], []. split; [constructor | apply grows_by_refl].
  - cbn [Tree.processEntries].
    change (match rest with [] => true | _ :: _ => false end)
      with (is_nil rest).
    destruct (processEntry_effect dir level prefix relpath e rest w He)
      as (sub & errs1 & Htr1 & Hg1).
    destruct (IH (processEntry dir level prefix relpath e (is_nil rest) w))
      as (vs & errs2 & Htr2 & Hg2).
    eexists _, _. split.
    + eapply traversal_cons; eassumption.
    + change (?v :: sub ++ vs)%list with ((v :: sub) ++ vs)%list.
      eapply grows_by_trans; eassumption.
Qed.

Lemma collect_In (l : list Node) failure entries (e : Node) :
  collect l failure = Ok entries -> In e entries -> In e l.
Proof.
  revert entries. induction l as [| x l IH]; simpl; intros entries H Hin.
  - destruct failure; inversion H; subst. destruct Hin.
  - destruct (negb (showHidden args) && _); [right; eauto |].
    destruct (if empty (excludePattern args) then _ else _) as [[|] | what];
      [right; eauto | | discriminate].
    destruct (showDirsOnly args && _); [right; eauto |].
    destruct (collect l failure) as [es |]; [| discriminate].
    inversion H; subst. destruct Hin as [-> | Hin]; [now left |].
    right; eauto.
Qed.

Lemma survivors_In name mode children failure (e : Node) :
  In e (survivors (Dir name mode children failure)) -> In e children.
Proof.
  simpl. destruct (collect children failure) as [es |] eqn:Hc; [| intros []].
  intro H. apply sort_entries_In in H. eapply collect_In; eassumption.
Qed.

Lemma raise_maxDepth_grows level (w : World) :
  grows_by w (with_stats (raise_maxDepth level) w) [] [].
Proof.
  unfold Tree.grows_by, dirs_in, files_in. simpl.
  destruct (empty (csvOut args)); rewrite ?app_nil_r;
    repeat split; try reflexivity; lia.
Qed.

Lemma cerr_line_grows line (w : World) :
  grows_by w (cerr_line line w) [] [line].
Proof.
  unfold Tree.grows_by, dirs_in, files_in. simpl.
  destruct (empty (csvOut args)); rewrite ?app_nil_r;
    repeat split; try reflexivity; lia.
Qed.

(** Every call of [printTree] takes up exactly the pre-order walk of its
    listing and leaves the world grown by it. *)
Lemma printTree_effect (node : Node) : effect_at node.
Proof.
  induction node as [nm md sz | nm md ch fl IH] using Node_ind';
    intros dir level prefix isLast relpath w.
  - rewrite printTree_File, listing_File.
    destruct (pruned level).
    + exists [], []. split; [constructor | apply grows_by_refl].
    + eexists [], [_]. split; [constructor | apply cerr_line_grows].
  - rewrite printTree_Dir. unfold Tree.listing.
    destruct (pruned level).
    + exists [], []. split; [constructor | apply grows_by_refl].
    + pose proof (survivors_In nm md ch fl) as Hsub.
      cbn [Tree.survivors] in *.
      destruct (collect ch fl) as [entries | what] eqn:Hc.
      * destruct (processEntries_effect dir level prefix relpath
                    (sort_entries entries)) with (w := w)
          as (vs & errs & Htr & Hg).
        { rewrite Forall_forall in *. intros e He. apply IH, Hsub, He. }
        exists vs, errs. split; [exact Htr |].
        rewrite <- (app_nil_r vs), <- (app_nil_r errs).
        eapply grows_by_trans; [exact Hg | apply raise_maxDepth_grows].
      * eexists [], [_]. split; [constructor | apply cerr_line_grows].
Qed.

(** C1.  Whatever the tree, the arguments and the world a call of
    [printTree] starts in: the entries [vs] it takes up are each counted
    once, a directory in [folders] and anything else in [files], so that
    [folders + files] grows by their number; without export each leaves
    one line on [cout], in order, and no row; with export each leaves one
    row, in order, and no line. *)
Theorem stats_count_emitted_entries
  (node : Node) dir level prefix isLast relpath (w : World) :
  let w' := printTree node dir level prefix isLast relpath w in
  exists vs : list Visit,
    visited w' = (visited w ++ vs)%list /\
    folders (stats w') = (folders (stats w) + dirs_in vs)%Z /\
    files (stats w') = (files (stats w) + files_in vs)%Z /\
    (folders (stats w') + files (stats w'))%Z =
      (folders (stats w) + files (stats w) + Z.of_nat (List.length vs))%Z /\
    cout w' =
      (cout w ++ (if empty (csvOut args) then map line_of vs else []))%list /\
    csvRows (stats w') =
      (csvRows (stats w) ++
       (if empty (csvOut args) then [] else map row_of vs))%list /\
    (List.length (if empty (csvOut args) then map line_of vs else []) +
     List.length (if empty (csvOut args) then [] else map row_of vs) =
       List.length vs)%nat.
Proof.
  intro w'. subst w'.
  destruct (printTree_effect node dir level prefix isLast relpath w)
    as (vs & errs & _ & Hv & Ho & Hr & Hd & Hf & _ & _).
  exists vs. repeat split; try assumption.
  - rewrite Hd, Hf, <- dirs_files_in. lia.
  - destruct (empty (csvOut args)); simpl; rewrite length_map; lia.
Qed.

(** The error line of the [catch] block. *)
Local Abbreviation failed_line dir what :=
  ("[etree] Failed to enumerate directory '" ++ dir ++ "': " ++ what).

(** C8.  A directory, met at [level] as an entry of the loop, the
    enumeration of which throws (and which the depth limit does not cut
    off): the call on it writes one line to [cerr] and changes nothing
    else; the loop of the parent has written the directory's own line
    or row and counted it as a folder, and goes on with the remaining
    entries from there.  A directory that the process may not read is
    no such directory: the iterator skips the denial, and the call on
    it, whatever the directory holds, is the call on an empty
    directory, which writes nothing and raises [maxDepth]. *)
Theorem failed_enumeration_is_reported_once_and_skipped
  name mode children failure what dir level prefix relpath
  (rest : list Node) (w : World) :
  pruned (level + 1) = false ->
  collect children failure = Throw what ->
  let d := Dir name mode children failure in
  let v := {| v_dir := dir; v_level := level; v_prefix := prefix;
              v_relpath := relpath; v_isLast := is_nil rest;
              v_entry := d |} in
  let w1 := if empty (csvOut args)
            then cout_line (line_of v) (note_visit v w)
            else with_stats (push_row (row_of v)) (note_visit v w) in
  let w2 := with_stats incr_folders w1 in
  (forall dir' prefix' isLast' relpath' (w0 : World),
      printTree d dir' (level + 1) prefix' isLast' relpath' w0 =
      cerr_line (failed_line dir' what) w0) /\
  processEntries dir level prefix relpath (d :: rest) w =
  processEntries dir level prefix relpath rest
    (cerr_line (failed_line (path_append dir name) what) w2) /\
  (forall (held : list Node) dir' prefix' isLast' relpath' (w0 : World),
      printTree (directory name mode PermissionDenied held) dir'
                (level + 1) prefix' isLast' relpath' w0 =
      with_stats (raise_maxDepth (level + 1)) w0).
Proof.
  intros Hp Hc d v w1 w2.
  assert (Hcall : forall dir' prefix' isLast' relpath' (w0 : World),
             printTree d dir' (level + 1) prefix' isLast' relpath' w0 =
             cerr_line (failed_line dir' what) w0).
  { intros. subst d. rewrite printTree_Dir, Hp, Hc. reflexivity. }
  split; [exact Hcall |]. split.
  - cbn [Tree.processEntries].
    change (match rest with [] => true | _ :: _ => false end)
      with (is_nil rest).
    rewrite processEntry_unfold. cbv zeta. cbn [is_directory d].
    fold v. fold w1. fold w2. subst d. rewrite Hcall. reflexivity.
  - intros held dir' prefix' isLast' relpath' w0.
    unfold directory. cbn [iterate fst snd].
    rewrite printTree_Dir, Hp. reflexivity.
Qed.


(** [maxDepth] never falls during a call. *)
Lemma printTree_maxDepth_mono (node : Node) dir level prefix isLast
      relpath (w : World) :
  (maxDepth (stats w) <=
   maxDepth (stats (printTree node dir level prefix isLast relpath w)))%Z.
Proof.
  destruct (printTree_effect node dir level prefix isLast relpath w)
    as (vs & errs & _ & _ & _ & _ & _ & _ & _ & Hm).
  exact Hm.
Qed.

End TraversalFacts.

Import Notions.

(** *** The reachable tree of the specification and the loop *)

Section ReachFacts.
Variable regex_match : string -> string -> result bool.
Variable args : Args.

Lemma collect_Ok (l : list Node) failure entries :
  Tree.collect regex_match args (fun e => e) l failure = Ok entries ->
  failure = None /\
  forallb (answers regex_match args) l = true /\
  forall c, In c entries <->
            In c l /\ passes regex_match args c = true.
Proof.
  revert entries. induction l as [| x l IH]; intros entries H.
  - cbn in H. destruct failure; inversion H; subst.
    split; [reflexivity | split; [reflexivity |]]. intro c. simpl. tauto.
  - cbn [Tree.collect] in H. cbn [forallb In].
    pose proof (eq_refl (passes regex_match args x)) as Hpx.
    pose proof (eq_refl (answers regex_match args x)) as Hax.
    unfold Notions.passes at 2 in Hpx. unfold answers at 2 in Hax.
    unfold hidden_name in Hpx, Hax.
    destruct (showHidden args),
      (match filename x with String "."%char _ => true | _ => false end),
      (empty (excludePattern args)), (showDirsOnly args), (is_directory x);
      cbn [negb andb orb] in H, Hpx, Hax;
      try (destruct (matchesPattern regex_match (filename x)
                       (excludePattern args)) as [[|] | what];
           try discriminate H);
      cbn [negb andb orb] in H, Hpx, Hax;
      lazymatch type of H with
      | Tree.collect _ _ _ l failure = Ok entries =>
          destruct (IH _ H) as (Hf & Ha & Hin);
          split; [exact Hf |]; split; [now rewrite Hax, Ha |];
          intro c; rewrite Hin; split;
          [ intros [Hl Hp]; split; [now right | exact Hp]
          | intros [[<- | Hl] Hp]; [congruence | now split] ]
      | _ =>
          destruct (Tree.collect regex_match args (fun e => e) l failure)
            as [es |] eqn:Hc; [| discriminate H];
          injection H as <-;
          destruct (IH es eq_refl) as (Hf & Ha & Hin);
          split; [exact Hf |]; split; [now rewrite Hax, Ha |];
          intro c; cbn [In]; rewrite Hin; split;
          [ intros [<- | [Hl Hp]];
            [split; [now left | exact Hpx] | split; [now right | exact Hp]]
          | intros [[<- | Hl] Hp]; [now left | right; now split] ]
      end.
Qed.

Lemma collect_enumerable (l : list Node) :
  forallb (answers regex_match args) l = true ->
  exists entries,
    Tree.collect regex_match args (fun e => e) l None = Ok entries.
Proof.
  induction l as [| x l IH]; simpl; [now exists [] |].
  intro H. apply andb_true_iff in H. destruct H as [Hx Hl].
  destruct (IH Hl) as (es & Hc). rewrite Hc.
  unfold answers, hidden_name in Hx.
  destruct (showHidden args), (showDirsOnly args), (is_directory x),
    (empty (excludePattern args)),
    (match filename x with String "."%char _ => true | _ => false end);
    cbn [negb andb orb] in Hx |- *; eauto;
    destruct (matchesPattern regex_match (filename x) (excludePattern args))
      as [[|] | what]; try discriminate Hx; eauto.
Qed.

Lemma survivors_below (d c : Node) :
  In c (Tree.survivors regex_match args d) <->
  enumerable regex_match args d = true /\ In c (children_of d) /\
  passes regex_match args c = true.
Proof.
  destruct d as [nm md sz | nm md ch fl]; cbn [Tree.survivors].
  - split; [intros [] | intros [H _]; discriminate H].
  - unfold enumerable. cbn [is_directory failure_of children_of andb].
    destruct (Tree.collect regex_match args (fun e => e) ch fl)
      as [es |] eqn:Hc.
    + destruct (collect_Ok _ _ _ Hc) as (-> & Ha & Hin).
      rewrite sort_entries_In, Hin, Ha. tauto.
    + split; [intros [] |]. intros (He & _).
      destruct fl; [discriminate He |].
      destruct (collect_enumerable ch He) as (es & Hc'). congruence.
Qed.

Lemma reachable_iff_below (d e : Node) :
  Tree.reachable regex_match args d e <-> below regex_match args d e.
Proof.
  split.
  - induction 1 as [d e Hin | d c e Hin _ IH];
      apply survivors_below in Hin; destruct Hin as (He & Hc & Hp).
    + now apply below_child.
    + now apply below_deeper with c.
  - induction 1 as [d e He Hc Hp | d c e He Hc Hp _ IH].
    + apply Tree.reachable_child. apply survivors_below. now repeat split.
    + apply Tree.reachable_below with c; [| exact IH].
      apply survivors_below. now repeat split.
Qed.

Lemma listing_survivors level (d c : Node) :
  In c (Tree.listing regex_match args level d) ->
  In c (Tree.survivors regex_match args d).
Proof. unfold Tree.listing. now destruct (pruned args level). Qed.

Lemma traversal_within dir level prefix relpath es vs :
  Tree.traversal regex_match args dir level prefix relpath es vs ->
  forall e, In e (map v_entry vs) ->
    In e es \/ exists c, In c es /\ Tree.reachable regex_match args c e.
Proof.
  induction 1 as [| dir level prefix relpath x rest sub vs Hs IHs Hr IHr];
    intros e He; [destruct He |].
  cbn [map v_entry] in He. rewrite map_app in He.
  destruct He as [<- | He]; [left; now left |].
  apply in_app_or in He. destruct He as [He | He].
  - right. exists x. split; [now left |].
    destruct (IHs e He) as [Hin | (c & Hin & Hc)].
    + apply Tree.reachable_child. eapply listing_survivors; exact Hin.
    + apply Tree.reachable_below with c; [| exact Hc].
      eapply listing_survivors; exact Hin.
  - destruct (IHr e He) as [Hin | (c & Hin & Hc)].
    + left. now right.
    + right. exists c. split; [now right | exact Hc].
Qed.

End ReachFacts.

Section DepthFacts.
Variable is_console : bool.
Variable formatIntWithCommas : Z -> string.
Variable regex_match : string -> string -> result bool.
Variable not_a_directory : string.

Local Abbreviation printTree :=
  (Tree.printTree is_console formatIntWithCommas regex_match
     not_a_directory).
Local Abbreviation traversal := (Tree.traversal regex_match).
Local Abbreviation listing := (Tree.listing regex_match).
Local Abbreviation survivors := (Tree.survivors regex_match).
Local Abbreviation reachable := (Tree.reachable regex_match).
Local Abbreviation grows_by :=
  (Tree.grows_by is_console formatIntWithCommas).

(** The walk of a list of entries is determined by the list. *)
Lemma traversal_functional (args : Args) dir level prefix relpath es vs :
  traversal args dir level prefix relpath es vs ->
  forall vs', traversal args dir level prefix relpath es vs' -> vs = vs'.
Proof.
  induction 1 as [| dir level prefix relpath e rest sub vs Hs IHs Hr IHr];
    intros vs' H'; inversion H'; subst.
  - reflexivity.
  - f_equal. f_equal; [apply IHs | apply IHr]; assumption.
Qed.

Lemma traversal_levels (args : Args) dir level prefix relpath es vs :
  traversal args dir level prefix relpath es vs ->
  Forall (fun v => (level <= v_level v)%Z) vs.
Proof.
  induction 1 as [| dir level prefix relpath e rest sub vs Hs IHs Hr IHr].
  - constructor.
  - constructor; [simpl; lia |].
    apply Forall_app. split; [| exact IHr].
    eapply Forall_impl; [| exact IHs]. simpl. intros; lia.
Qed.

Lemma listing_pruned (args : Args) level (node : Node) :
  (0 < maxLevel args)%Z -> (maxLevel args < level)%Z ->
  listing args level node = [].
Proof.
  intros H0 H1. unfold Tree.listing, pruned.
  apply Z.ltb_lt in H0, H1. now rewrite H0, H1.
Qed.

Lemma listing_not_pruned (args : Args) level (node : Node) :
  (maxLevel args <= 0 \/ level <= maxLevel args)%Z ->
  listing args level node = survivors args node.
Proof.
  intros H. unfold Tree.listing, pruned.
  destruct (0 <? maxLevel args)%Z eqn:H0; [| reflexivity].
  destruct (maxLevel args <? level)%Z eqn:H1; [| reflexivity].
  apply Z.ltb_lt in H0, H1. lia.
Qed.

Lemma traversal_bounded (args : Args) dir level prefix relpath es vs :
  (0 < maxLevel args)%Z ->
  traversal args dir level prefix relpath es vs ->
  (level <= maxLevel args)%Z \/ es = [] ->
  Forall (fun v => (v_level v <= maxLevel args)%Z) vs.
Proof.
  intro Hk.
  induction 1 as [| dir level prefix relpath e rest sub vs Hs IHs Hr IHr];
    intro Hl.
  - constructor.
  - destruct Hl as [Hl | Hl]; [| discriminate].
    constructor; [exact Hl |].
    apply Forall_app. split; [| apply IHr; now left].
    apply IHs.
    destruct (Z_le_gt_dec (level + 1) (maxLevel args)) as [Hle | Hgt];
      [now left | right].
    apply listing_pruned; lia.
Qed.

Lemma collect_set_maxLevel k (args : Args) (l : list Node) failure :
  Tree.collect regex_match (set_maxLevel k args) (fun e => e) l failure =
  Tree.collect regex_match args (fun e => e) l failure.
Proof. induction l as [| x l IH]; simpl; [| rewrite IH]; reflexivity. Qed.

Lemma survivors_set_maxLevel k (args : Args) (node : Node) :
  survivors (set_maxLevel k args) node = survivors args node.
Proof.
  destruct node; simpl; [reflexivity |]. now rewrite collect_set_maxLevel.
Qed.

Lemma filter_all_false {A : Type} (f : A -> bool) (l : list A) :
  Forall (fun x => f x = false) l -> filter f l = [].
Proof.
  induction 1 as [| x l Hx _ IH]; simpl; [reflexivity |]. now rewrite Hx.
Qed.

(** With a limit [k > 0], the walk is the unlimited walk with the levels
    above [k] taken out. *)
Lemma traversal_filter (args : Args) dir level prefix relpath es vs0 :
  (0 < maxLevel args)%Z ->
  traversal (set_maxLevel 0 args) dir level prefix relpath es vs0 ->
  (level <= maxLevel args)%Z ->
  traversal args dir level prefix relpath es
    (filter (fun v => (v_level v <=? maxLevel args)%Z) vs0).
Proof.
  intro Hk.
  induction 1 as [| dir level prefix relpath e rest sub vs Hs IHs Hr IHr];
    intro Hl.
  - constructor.
  - cbn [filter v_level].
    replace (level <=? maxLevel args)%Z with true
      by (symmetry; now apply Z.leb_le).
    rewrite filter_app. constructor; [| now apply IHr].
    destruct (Z_le_gt_dec (level + 1) (maxLevel args)) as [Hle | Hgt].
    + rewrite listing_not_pruned in * by (simpl; lia).
      rewrite survivors_set_maxLevel in IHs. now apply IHs.
    + rewrite listing_pruned by lia.
      rewrite filter_all_false; [constructor |].
      eapply Forall_impl; [| eapply traversal_levels; exact Hs].
      simpl. intros v Hv. apply Z.leb_gt. lia.
Qed.

(** Without a limit, the walk of a list of entries holds each of them
    and all that is reachable from them. *)
Lemma traversal_reaches (args : Args) dir level prefix relpath es vs :
  (maxLevel args <= 0)%Z ->
  traversal args dir level prefix relpath es vs ->
  forall c, In c es ->
    In c (map v_entry vs) /\
    forall e, reachable args c e -> In e (map v_entry vs).
Proof.
  intro Hk.
  induction 1 as [| dir level prefix relpath e rest sub vs Hs IHs Hr IHr];
    intros c Hc; [destruct Hc |].
  rewrite listing_not_pruned in * by now left.
  cbn [map v_entry]. rewrite map_app.
  destruct Hc as [-> | Hc].
  - split; [now left |].
    intros x Hx. right. apply in_or_app. left.
    inversion Hx as [x' Hin | c' x' Hin Hreach]; subst.
    + now apply IHs.
    + destruct (IHs c' Hin) as [_ Hbelow]. now apply Hbelow.
  - destruct (IHr c Hc) as [Hin Hbelow].
    split; [right; apply in_or_app; now right |].
    intros x Hx. right. apply in_or_app. right. now apply Hbelow.
Qed.

Lemma processEntries_ext (args : Args) (rec1 rec2 : Node -> Walker)
      dir level prefix relpath (es : list Node) :
  Forall (fun e => forall d l p il r w, rec1 e d l p il r w = rec2 e d l p il r w)
         es ->
  forall w : World,
    Tree.processEntries is_console formatIntWithCommas args (fun e => e)
      rec1 dir level prefix relpath es w =
    Tree.processEntries is_console formatIntWithCommas args (fun e => e)
      rec2 dir level prefix relpath es w.
Proof.
  induction 1 as [| e rest He _ IH]; intro w; [reflexivity |].
  cbn [Tree.processEntries]. rewrite IH. f_equal.
  unfold Tree.processEntry. destruct (is_directory e); [| reflexivity].
  apply He.
Qed.

Lemma processEntries_set_maxLevel k (args : Args) (rec : Node -> Walker)
      dir level prefix relpath (es : list Node) (w : World) :
  Tree.processEntries is_console formatIntWithCommas (set_maxLevel k args)
    (fun e => e) rec dir level prefix relpath es w =
  Tree.processEntries is_console formatIntWithCommas args
    (fun e => e) rec dir level prefix relpath es w.
Proof.
  revert w. induction es as [| e rest IH]; intro w; [reflexivity |].
  cbn [Tree.processEntries]. rewrite IH. reflexivity.
Qed.

(** A limit of zero or less is no limit. *)
Lemma printTree_unlimited (args : Args) (node : Node) :
  (maxLevel args <= 0)%Z ->
  forall dir level prefix isLast relpath (w : World),
    printTree args node dir level prefix isLast relpath w =
    printTree (set_maxLevel 0 args) node dir level prefix isLast relpath w.
Proof.
  intro Hk.
  assert (Hp : forall level, pruned args level = false).
  { intro level. unfold pruned.
    destruct (0 <? maxLevel args)%Z eqn:H0; [| reflexivity].
    apply Z.ltb_lt in H0. lia. }
  induction node as [nm md sz | nm md ch fl IH] using Node_ind';
    intros dir level prefix isLast relpath w.
  - rewrite !printTree_File, Hp. reflexivity.
  - rewrite !printTree_Dir, Hp, collect_set_maxLevel.
    change (pruned (set_maxLevel 0 args) level) with false. cbv iota.
    destruct (Tree.collect regex_match args (fun e => e) ch fl)
      as [entries | what] eqn:Hc; [| reflexivity].
    rewrite processEntries_set_maxLevel.
    f_equal. apply processEntries_ext.
    rewrite Forall_forall in *. intros e He. apply IH.
    apply sort_entries_In in He.
    eapply collect_In; eassumption.
Qed.

(** C2.  [vs] is what a call takes up under the arguments as they are,
    [vs0] what it takes up with the limit set to 0; both worlds grow by
    their walks and by nothing else.  With a limit [k > 0] no entry of
    [vs] lies at a level above [k], and [vs] is [vs0] with the levels
    above [k] taken out, in the same order.  With a limit of 0 or less
    the call does what it does with the limit 0, and the entries it
    takes up are those of the reachable tree, all of them and no other:
    the children that pass the filters, of the directory and of every
    directory so reached that the file system lets enumerate
    ([below], which is stated on the tree and not on the loop). *)
Theorem depth_limit_cuts_levels_above_it
  (args : Args) (node : Node) dir level prefix isLast relpath (w : World) :
  let w' := printTree args node dir level prefix isLast relpath w in
  let w0 := printTree (set_maxLevel 0 args) node dir level prefix isLast
              relpath w in
  exists vs vs0 errs errs0,
    grows_by args w w' vs errs /\
    grows_by (set_maxLevel 0 args) w w0 vs0 errs0 /\
    ((0 < maxLevel args)%Z ->
     Forall (fun v => (v_level v <= maxLevel args)%Z) vs /\
     vs = filter (fun v => (v_level v <=? maxLevel args)%Z) vs0) /\
    ((maxLevel args <= 0)%Z ->
     w' = w0 /\
     forall e, In e (map v_entry vs) <-> below regex_match args node e).
Proof.
  intros w' w0. subst w' w0.
  destruct (printTree_effect is_console formatIntWithCommas regex_match
              not_a_directory args node dir level prefix isLast relpath w)
    as (vs & errs & Htr & Hg).
  destruct (printTree_effect is_console formatIntWithCommas regex_match
              not_a_directory (set_maxLevel 0 args) node dir level prefix
              isLast relpath w)
    as (vs0 & errs0 & Htr0 & Hg0).
  exists vs, vs0, errs, errs0. split; [exact Hg |]. split; [exact Hg0 |].
  split.
  - intro Hk. split.
    + eapply traversal_bounded; [exact Hk | exact Htr |].
      destruct (Z_le_gt_dec level (maxLevel args)); [now left | right].
      apply listing_pruned; lia.
    + destruct (Z_le_gt_dec level (maxLevel args)) as [Hle | Hgt].
      * eapply traversal_functional; [exact Htr |].
        rewrite listing_not_pruned in Htr0 by (simpl; lia).
        rewrite survivors_set_maxLevel in Htr0.
        rewrite listing_not_pruned by lia.
        now apply traversal_filter.
      * rewrite listing_pruned in Htr by lia.
        inversion Htr; subst.
        symmetry. apply filter_all_false.
        eapply Forall_impl; [| eapply traversal_levels; exact Htr0].
        simpl. intros v Hv. apply Z.leb_gt. lia.
  - intro Hk. split; [now apply printTree_unlimited |].
    intro e. rewrite <- reachable_iff_below.
    rewrite listing_not_pruned in Htr by now left.
    split.
    + intro He.
      destruct (traversal_within _ _ _ _ _ _ _ _ Htr e He)
        as [Hin | (c & Hin & Hc)].
      * now apply Tree.reachable_child.
      * now apply Tree.reachable_below with c.
    + intro He. inversion He as [e' Hin | c e' Hin Hreach]; subst.
      * now destruct (traversal_reaches _ _ _ _ _ _ _ Hk Htr e Hin).
      * destruct (traversal_reaches _ _ _ _ _ _ _ Hk Htr c Hin)
          as [_ Hb].
        now apply Hb.
Qed.

End DepthFacts.

Section ShapeFacts.
Variable is_console : bool.
Variable formatIntWithCommas : Z -> string.
Variable regex_match : string -> string -> result bool.
Variable not_a_directory : string.
Variable args : Args.

Local Abbreviation printTree :=
  (Tree.printTree is_console formatIntWithCommas regex_match
     not_a_directory args).
Local Abbreviation traversal := (Tree.traversal regex_match args).
Local Abbreviation listing := (Tree.listing regex_match args).
Local Abbreviation survivors := (Tree.survivors regex_match args).
Local Abbreviation line_of :=
  (Tree.line_of is_console formatIntWithCommas args).
Local Abbreviation drawing :=
  (Tree.drawing is_console regex_match args).
Local Abbreviation rows_under := (Tree.rows_under regex_match args).

Lemma traversal_drawing dir level prefix relpath es vs :
  traversal dir level prefix relpath es vs ->
  drawing "`-- " "|-- " level prefix es (map line_of vs).
Proof.
  induction 1 as [| dir level prefix relpath e rest sub vs Hs IHs Hr IHr].
  - constructor.
  - cbn [map]. rewrite map_app.
    unfold Tree.line_of at 1, render_line. cbn [v_prefix v_isLast v_entry].
    eapply drawing_cons; eassumption.
Qed.

(** C4, as the code has it.  Without export, the lines that a call of
    [printTree] writes are the tree drawing of its listing with the
    glyph [`-- ] for the last entry of a directory and [|-- ] for any
    other, the entries of a directory entry being drawn under the prefix
    extended by four spaces when that entry is the last one and by a bar
    and three spaces when it is not. *)
Theorem lines_draw_the_tree_with_ascii_glyphs
  (node : Node) dir level prefix isLast relpath (w : World) :
  empty (csvOut args) = true ->
  exists lines,
    cout (printTree node dir level prefix isLast relpath w) =
      (cout w ++ lines)%list /\
    drawing "`-- " "|-- " level prefix (listing level node) lines.
Proof.
  intro Hr.
  destruct (printTree_effect is_console formatIntWithCommas regex_match
              not_a_directory args node dir level prefix isLast relpath w)
    as (vs & errs & Htr & _ & Ho & _).
  rewrite Hr in Ho. exists (map line_of vs). split; [exact Ho |].
  eapply traversal_drawing; exact Htr.
Qed.

(** *** Relative paths *)

Lemma last_char_app (a b : string) :
  b <> "" -> last_char (a ++ b) = last_char b.
Proof.
  intro Hb. induction a as [| c a IH]; [reflexivity |].
  cbn [append last_char]. rewrite IH.
  destruct (a ++ b) eqn:E; [| reflexivity].
  destruct a; [simpl in E; contradiction | discriminate].
Qed.

Lemma valid_name_last (n : string) :
  valid_name n = true -> exists c, last_char n = Some c /\ c <> "/"%char.
Proof.
  unfold valid_name. induction n as [| c n IH]; [discriminate |].
  cbn [empty negb andb has_slash]. intro H.
  apply negb_true_iff, orb_false_iff in H. destruct H as [Hc Hn].
  destruct n as [| c' n'].
  - exists c. split; [reflexivity |]. intros ->. discriminate.
  - cbn [last_char]. apply IH. cbn [empty negb andb]. now rewrite Hn.
Qed.

Lemma valid_name_no_leading_slash (n : string) :
  valid_name n = true -> starts_with_slash n = false.
Proof.
  unfold valid_name. destruct n as [| c n]; [discriminate |].
  cbn [empty negb andb has_slash]. intro H.
  apply negb_true_iff, orb_false_iff in H. destruct H as [Hc _].
  unfold starts_with_slash.
  destruct (Ascii.eqb_spec c "/"); [discriminate |].
  destruct c as [[] [] [] [] [] [] [] []]; try reflexivity. now elim n0.
Qed.

Lemma path_append_plain (p q : string) (c : ascii) :
  starts_with_slash q = false ->
  last_char p = Some c -> c <> "/"%char ->
  path_append p q = p ++ "/" ++ q.
Proof.
  intros Hq Hp Hc. unfold path_append. rewrite Hp.
  assert (Hc' : match c with
                | "/"%char => p ++ q
                | _ => p ++ "/" ++ q
                end = p ++ "/" ++ q).
  { destruct c as [[] [] [] [] [] [] [] []]; try reflexivity. now elim Hc. }
  destruct q as [| a q]; [exact Hc' |].
  unfold starts_with_slash in Hq.
  destruct a as [[] [] [] [] [] [] [] []]; try exact Hc'. discriminate.
Qed.

Lemma starts_with_slash_app (a b : string) :
  a <> "" -> starts_with_slash (a ++ b) = starts_with_slash a.
Proof. destruct a; [contradiction | reflexivity]. Qed.

Lemma handed_down_child (relpath : string) (e : Node) :
  handed_down relpath -> valid_name (filename e) = true ->
  handed_down (child_relpath relpath e) /\
  child_relpath relpath e <> "" /\
  (if empty relpath then filename e
   else path_append relpath (filename e)) = child_relpath relpath e.
Proof.
  intros Hh Hv. unfold child_relpath.
  pose proof (valid_name_no_leading_slash _ Hv) as Hs.
  destruct (valid_name_last _ Hv) as (c & Hl & Hc).
  assert (Hne : filename e <> "") by (intro E; rewrite E in Hl; discriminate).
  destruct Hh as [-> | (Hs' & c' & Hl' & Hc')]; cbn [empty].
  - split; [| split; [exact Hne | reflexivity]].
    right. split; [exact Hs |]. now exists c.
  - assert (Hr : relpath <> "")
      by (intro E; rewrite E in Hl'; discriminate).
    destruct relpath as [| a r]; [contradiction |]. cbn [empty].
    split; [| split; [discriminate |]].
    + right. split; [rewrite starts_with_slash_app by discriminate;
                     exact Hs' |].
      exists c. split; [| exact Hc].
      rewrite last_char_app by (destruct (filename e); discriminate).
      change ("/" ++ filename e) with (String "/" (filename e)).
      cbn [last_char]. destruct (filename e); [contradiction | exact Hl].
    + eapply path_append_plain; eassumption.
Qed.

Lemma valid_names_listing level (e : Node) :
  valid_names e = true ->
  Forall (fun c => valid_name (filename c) = true /\ valid_names c = true)
         (listing level e).
Proof.
  intro Hv. apply Forall_forall. intros c Hc.
  unfold Tree.listing in Hc. destruct (pruned args level); [destruct Hc |].
  destruct e as [nm md sz | nm md ch fl]; [destruct Hc |].
  apply survivors_In in Hc. cbn [valid_names] in Hv.
  rewrite forallb_forall in Hv. apply Hv in Hc.
  now apply andb_true_iff in Hc.
Qed.

Lemma traversal_rows dir level prefix relpath es vs :
  traversal dir level prefix relpath es vs ->
  handed_down relpath ->
  Forall (fun c => valid_name (filename c) = true /\ valid_names c = true)
         es ->
  rows_under level relpath es (map row_of vs) /\
  Forall (fun r => Tree.relpath r <> "" /\
                   starts_with_slash (Tree.relpath r) = false)
         (map row_of vs).
Proof.
  induction 1 as [| dir level prefix relpath e rest sub vs Hs IHs Hr IHr];
    intros Hh Hv.
  - split; constructor.
  - inversion Hv as [| e' rest' [Hn Hns] Hrest]; subst.
    destruct (handed_down_child relpath e Hh Hn) as (Hh' & Hne & Hrel).
    destruct (IHs Hh' (valid_names_listing _ _ Hns)) as [IHs1 IHs2].
    destruct (IHr Hh Hrest) as [IHr1 IHr2].
    cbn [map]. rewrite map_app. split.
    + eapply rows_under_cons.
      * reflexivity.
      * unfold row_of, make_row.
        cbn [Tree.relpath Tree.name v_relpath v_entry].
        rewrite Hrel. reflexivity.
      * unfold row_of at 1, make_row at 1.
        cbn [Tree.relpath v_relpath v_entry]. rewrite Hrel. exact IHs1.
      * exact IHr1.
    + constructor; [| apply Forall_app; now split].
      unfold row_of, make_row. cbn [Tree.relpath v_relpath v_entry].
      rewrite Hrel. split; [exact Hne |].
      destruct Hh' as [E | [Hs' _]]; [contradiction | exact Hs'].
Qed.

(** C6.  With export, on a tree whose names are names (not empty, no
    separator), the rows that the call on the root adds are the rows of
    its listing: one row for each entry, carrying the entry's name and,
    as relative path, the bare name at the root and below it the
    relative path of the row of the directory that lists the entry, a
    slash, and the name; no relative path is empty or begins with a
    slash; the root has no row. *)
Theorem row_relpath_is_parent_relpath_slash_name
  (root : Node) dir level prefix isLast (w : World) :
  valid_names root = true ->
  empty (csvOut args) = false ->
  exists rows,
    csvRows (stats (printTree root dir level prefix isLast "" w)) =
      (csvRows (stats w) ++ rows)%list /\
    rows_under level "" (listing level root) rows /\
    Forall (fun r => Tree.relpath r <> "" /\
                     starts_with_slash (Tree.relpath r) = false) rows.
Proof.
  intros Hv Hx.
  destruct (printTree_effect is_console formatIntWithCommas regex_match
              not_a_directory args root dir level prefix isLast "" w)
    as (vs & errs & Htr & _ & _ & Hr & _).
  rewrite Hx in Hr. exists (map row_of vs). split; [exact Hr |].
  apply (traversal_rows _ _ _ _ _ _ Htr).
  - now left.
  - now apply valid_names_listing.
Qed.

End ShapeFacts.

(** *** The order of names *)

Lemma ascii_compare_refl (a : ascii) : Ascii.compare a a = Eq.
Proof. apply N.compare_refl. Qed.

Lemma ascii_compare_lt_trans (a b c : ascii) :
  Ascii.compare a b = Lt -> Ascii.compare b c = Lt -> Ascii.compare a c = Lt.
Proof.
  unfold Ascii.compare. rewrite !N.compare_lt_iff. apply N.lt_trans.
Qed.

Lemma string_compare_refl (s : string) : String.compare s s = Eq.
Proof.
  induction s as [| a s IH]; [reflexivity |].
  simpl. now rewrite ascii_compare_refl.
Qed.

Lemma string_compare_lt_trans (s1 s2 s3 : string) :
  String.compare s1 s2 = Lt -> String.compare s2 s3 = Lt ->
  String.compare s1 s3 = Lt.
Proof.
  revert s2 s3. induction s1 as [| a s1 IH]; intros [| b s2] [| c s3];
    simpl; try congruence.
  destruct (Ascii.compare a b) eqn:Hab; try discriminate;
    destruct (Ascii.compare b c) eqn:Hbc; try discriminate; intros H1 H2.
  - apply Ascii.compare_eq_iff in Hab, Hbc. subst.
    rewrite ascii_compare_refl. eauto.
  - apply Ascii.compare_eq_iff in Hab. subst. now rewrite Hbc.
  - apply Ascii.compare_eq_iff in Hbc. subst. now rewrite Hab.
  - now rewrite (ascii_compare_lt_trans _ _ _ Hab Hbc).
Qed.

Lemma ltb_compare (s1 s2 : string) :
  String.ltb s1 s2 = true <-> String.compare s1 s2 = Lt.
Proof.
  unfold String.ltb. destruct (String.compare s1 s2); split; congruence.
Qed.

Lemma name_before_trans (a b c : Node) :
  name_before a b -> name_before b c -> name_before a c.
Proof.
  unfold name_before. rewrite !ltb_compare. apply string_compare_lt_trans.
Qed.

Lemma name_before_irrefl (a : Node) : ~ name_before a a.
Proof.
  unfold name_before. rewrite ltb_compare, string_compare_refl. discriminate.
Qed.

Lemma name_before_total (a b : Node) :
  name_before a b \/ filename a = filename b \/ name_before b a.
Proof.
  unfold name_before. rewrite !ltb_compare.
  rewrite (String.compare_antisym (filename b)).
  destruct (String.compare (filename a) (filename b)) eqn:E; simpl; auto.
  right; left. now apply String.compare_eq_iff.
Qed.

(** [a] does not come after [b]. *)
Local Abbreviation not_after a b := (~ name_before b a).

Lemma insert_entry_sorted (x : Node) (l : list Node) :
  StronglySorted (fun a b => not_after a b) l ->
  StronglySorted (fun a b => not_after a b)
                 (insert_entry (fun e => e) x l).
Proof.
  induction 1 as [| y l Hl IH Hy]; simpl.
  - repeat constructor.
  - unfold name_lt. destruct (String.ltb (filename x) (filename y)) eqn:E.
    + constructor; [now constructor |].
      constructor.
      * intro H. eapply name_before_irrefl, name_before_trans; eassumption.
      * rewrite Forall_forall in *. intros z Hz Hzx.
        apply (Hy z Hz). eapply name_before_trans; eassumption.
    + constructor; [exact IH |].
      apply Forall_forall. intros z Hz.
      eapply Permutation_in in Hz;
        [| apply Permutation_sym, insert_entry_perm].
      destruct Hz as [<- | Hz].
      * unfold name_before. congruence.
      * rewrite Forall_forall in Hy. now apply Hy.
Qed.

Lemma sort_entries_sorted (l : list Node) :
  StronglySorted (fun a b => not_after a b) (sort_entries (fun e => e) l).
Proof.
  induction l as [| x l IH]; simpl; [constructor |].
  now apply insert_entry_sorted.
Qed.

Lemma sorted_strict (l : list Node) :
  NoDup (map filename l) ->
  StronglySorted (fun a b => not_after a b) l ->
  StronglySorted name_before l.
Proof.
  induction 2 as [| x l Hl IH Hx]; [constructor |].
  inversion H as [| ? ? Hnin Hnd]; subst.
  constructor; [now apply IH |].
  rewrite Forall_forall in *. intros y Hy.
  destruct (name_before_total x y) as [Hlt | [Heq | Hgt]].
  - exact Hlt.
  - elim Hnin. rewrite Heq. now apply in_map.
  - now elim (Hx y Hy).
Qed.

(** Two lists in strict order that hold the same entries are equal. *)
Lemma sorted_perm_unique (l l' : list Node) :
  StronglySorted name_before l -> StronglySorted name_before l' ->
  Permutation l l' -> l = l'.
Proof.
  intro H. revert l'. induction H as [| x l Hl IH Hx]; intros l' H' Hp.
  - now apply Permutation_nil in Hp.
  - destruct H' as [| x' l' Hl' Hx'].
    + apply Permutation_sym, Permutation_nil in Hp. discriminate.
    + assert (x = x').
      { assert (Hin : In x (x' :: l'))
          by (eapply Permutation_in; [exact Hp | now left]).
        assert (Hin' : In x' (x :: l))
          by (eapply Permutation_in;
              [apply Permutation_sym; exact Hp | now left]).
        destruct Hin as [-> | Hin]; [reflexivity |].
        destruct Hin' as [-> | Hin']; [reflexivity |].
        rewrite Forall_forall in Hx, Hx'.
        elim (name_before_irrefl x).
        eapply name_before_trans; [apply Hx, Hin' | apply Hx', Hin]. }
      subst x'. f_equal. apply IH; [exact Hl' |].
      eapply Permutation_cons_inv; exact Hp.
Qed.

Lemma name_in_spec (s : string) (l : list Node) :
  name_in s l = true <-> In s (map filename l).
Proof.
  induction l as [| e l IH]; simpl; [split; [discriminate | tauto] |].
  rewrite orb_true_iff, IH, String.eqb_eq. split; intros [H | H]; auto.
Qed.

Lemma distinct_names_in_NoDup (l : list Node) :
  distinct_names_in l = true -> NoDup (map filename l).
Proof.
  induction l as [| e l IH]; simpl; [constructor |].
  rewrite andb_true_iff, negb_true_iff. intros [Hn Hd].
  constructor; [| now apply IH].
  intro Hin. apply name_in_spec in Hin. congruence.
Qed.

Section OrderFacts.
Variable is_console : bool.
Variable formatIntWithCommas : Z -> string.
Variable regex_match : string -> string -> result bool.
Variable not_a_directory : string.
Variable args : Args.

Local Abbreviation printTree :=
  (Tree.printTree is_console formatIntWithCommas regex_match
     not_a_directory args).
Local Abbreviation collect := (Tree.collect regex_match args (fun e : Node => e)).
Local Abbreviation traversal := (Tree.traversal regex_match args).
Local Abbreviation listing := (Tree.listing regex_match args).
Local Abbreviation survivors := (Tree.survivors regex_match args).
Local Abbreviation reachable := (Tree.reachable regex_match args).
Local Abbreviation grows_by :=
  (Tree.grows_by is_console formatIntWithCommas args).

Lemma collect_NoDup (l : list Node) failure entries :
  NoDup (map filename l) -> collect l failure = Ok entries ->
  NoDup (map filename entries).
Proof.
  revert entries. induction l as [| x l IH]; simpl; intros entries Hnd H.
  - destruct failure; inversion H. constructor.
  - inversion Hnd as [| ? ? Hnin Hnd']; subst.
    destruct (negb (showHidden args) && _); [eauto |].
    destruct (if empty (excludePattern args) then _ else _) as [[|] | what];
      [eauto | | discriminate].
    destruct (showDirsOnly args && _); [eauto |].
    destruct (collect l failure) as [es |] eqn:Hc; [| discriminate].
    inversion H; subst. simpl. constructor; [| eauto].
    intro Hin. apply Hnin. apply in_map_iff in Hin.
    destruct Hin as (y & Hy & Hin). rewrite <- Hy. apply in_map.
    eapply collect_In; eassumption.
Qed.

(** The filter loop does not care in which order the entries come. *)
Lemma collect_perm (l l' : list Node) failure :
  Permutation l l' ->
  match collect l failure, collect l' failure with
  | Ok es, Ok es' => Permutation es es'
  | Throw _, Throw _ => True
  | _, _ => False
  end.
Proof.
  induction 1 as [| x l l' Hp IH | x y l | l l' l'' Hp1 IH1 Hp2 IH2].
  - simpl. now destruct failure.
  - simpl.
    destruct (negb (showHidden args) && _); [exact IH |].
    destruct (if empty (excludePattern args) then _ else _) as [[|] | what];
      [exact IH | | exact I].
    destruct (showDirsOnly args && _); [exact IH |].
    destruct (collect l failure), (collect l' failure);
      try exact IH. now constructor.
  - simpl.
    destruct (negb (showHidden args) &&
              match filename x with String "."%char _ => true | _ => false end),
             (negb (showHidden args) &&
              match filename y with String "."%char _ => true | _ => false end),
             (if empty (excludePattern args) then Ok false
              else matchesPattern regex_match (filename x)
                     (excludePattern args)) as [[|] | whatx],
             (if empty (excludePattern args) then Ok false
              else matchesPattern regex_match (filename y)
                     (excludePattern args)) as [[|] | whaty],
             (showDirsOnly args && negb (is_directory x)),
             (showDirsOnly args && negb (is_directory y)),
             (collect l failure) as [es | what];
      try exact I; try apply Permutation_refl; apply perm_swap.
  - destruct (collect l failure), (collect l' failure),
      (collect l'' failure); try contradiction; try exact I.
    eapply Permutation_trans; eassumption.
Qed.

Lemma survivors_sorted (d : Node) :
  distinct_names d = true -> StronglySorted name_before (survivors d).
Proof.
  destruct d as [nm md sz | nm md ch fl]; simpl; [constructor |].
  rewrite andb_true_iff. intros [Hd _].
  destruct (collect ch fl) as [es |] eqn:Hc; [| constructor].
  apply sorted_strict; [| apply sort_entries_sorted].
  eapply Permutation_NoDup;
    [apply Permutation_map, sort_entries_perm |].
  eapply collect_NoDup; [| exact Hc]. now apply distinct_names_in_NoDup.
Qed.

Lemma survivors_perm (d : Node) (l' : list Node) :
  distinct_names d = true -> Permutation (children_of d) l' ->
  survivors (relisted d l') = survivors d.
Proof.
  intros Hd Hp.
  destruct d as [nm md sz | nm md ch fl]; [reflexivity |].
  cbn [children_of relisted] in *.
  assert (Hd' : distinct_names_in ch = true)
    by (simpl in Hd; now apply andb_true_iff in Hd).
  apply distinct_names_in_NoDup in Hd'.
  assert (Hd'' : NoDup (map filename l'))
    by (eapply Permutation_NoDup; [apply Permutation_map, Hp | exact Hd']).
  pose proof (collect_perm ch l' fl Hp) as Hc. cbn [Tree.survivors].
  destruct (collect ch fl) as [es |] eqn:E,
           (collect l' fl) as [es' |] eqn:E'; try contradiction;
    [| reflexivity].
  apply sorted_perm_unique.
  - apply sorted_strict; [| apply sort_entries_sorted].
    eapply Permutation_NoDup;
      [apply Permutation_map, sort_entries_perm |].
    eapply collect_NoDup; [| exact E']. exact Hd''.
  - apply sorted_strict; [| apply sort_entries_sorted].
    eapply Permutation_NoDup;
      [apply Permutation_map, sort_entries_perm |].
    eapply collect_NoDup; [| exact E]. exact Hd'.
  - eapply Permutation_trans;
      [apply Permutation_sym, sort_entries_perm |].
    eapply Permutation_trans; [| apply sort_entries_perm].
    now apply Permutation_sym.
Qed.

Lemma distinct_names_child (d c : Node) :
  distinct_names d = true -> In c (survivors d) -> distinct_names c = true.
Proof.
  destruct d as [nm md sz | nm md ch fl]; [intros _ [] |].
  intros Hd Hc. apply survivors_In in Hc.
  simpl in Hd. apply andb_true_iff in Hd. destruct Hd as [_ Hd].
  rewrite forallb_forall in Hd. now apply Hd.
Qed.

Lemma distinct_names_reachable (root d : Node) :
  distinct_names root = true -> reachable root d ->
  distinct_names d = true.
Proof.
  intros Hr H. induction H as [root e Hin | root c e Hin Hreach IH].
  - eapply distinct_names_child; eassumption.
  - apply IH. eapply distinct_names_child; eassumption.
Qed.

(** *** The order of enumeration does not matter *)

Lemma same_tree_attrs (a b : Node) :
  same_tree a b ->
  filename a = filename b /\ is_directory a = is_directory b /\
  file_size a = file_size b /\ permissions a = permissions b.
Proof. destruct 1; repeat split; reflexivity. Qed.

Lemma insert_entry_same (x x' : Node) (l l' : list Node) :
  same_tree x x' -> Forall2 same_tree l l' ->
  Forall2 same_tree (insert_entry (fun e => e) x l)
                    (insert_entry (fun e => e) x' l').
Proof.
  intros Hx. induction 1 as [| y y' l l' Hy Hl IH]; simpl.
  - repeat constructor. exact Hx.
  - unfold name_lt.
    destruct (same_tree_attrs _ _ Hx) as (-> & _).
    destruct (same_tree_attrs _ _ Hy) as (-> & _).
    destruct (String.ltb (filename x') (filename y')).
    + repeat constructor; assumption.
    + constructor; assumption.
Qed.

Lemma sort_entries_same (l l' : list Node) :
  Forall2 same_tree l l' ->
  Forall2 same_tree (sort_entries (fun e => e) l)
                    (sort_entries (fun e => e) l').
Proof.
  induction 1 as [| x x' l l' Hx Hl IH]; simpl; [constructor |].
  now apply insert_entry_same.
Qed.

Lemma collect_same (l l' : list Node) failure :
  Forall2 same_tree l l' ->
  match collect l failure, collect l' failure with
  | Ok es, Ok es' => Forall2 same_tree es es'
  | Throw what, Throw what' => what = what'
  | _, _ => False
  end.
Proof.
  induction 1 as [| x x' l l' Hx Hl IH]; simpl.
  - destruct failure; [reflexivity | constructor].
  - destruct (same_tree_attrs _ _ Hx) as (-> & -> & _).
    destruct (negb (showHidden args) && _); [exact IH |].
    destruct (if empty (excludePattern args) then _ else _) as [[|] | what];
      [exact IH | | reflexivity].
    destruct (showDirsOnly args && _); [exact IH |].
    destruct (collect l failure), (collect l' failure); try exact IH.
    now constructor.
Qed.

Lemma render_line_same (prefix : string) (last : bool) (a b : Node) :
  same_tree a b ->
  render_line is_console formatIntWithCommas args prefix last a =
  render_line is_console formatIntWithCommas args prefix last b.
Proof.
  intro H. destruct (same_tree_attrs _ _ H) as (Hn & Hd & Hs & Hp).
  unfold render_line, getPermissions. now rewrite Hn, Hd, Hs, Hp.
Qed.

Lemma make_row_same (dir relpath : string) (a b : Node) :
  same_tree a b -> make_row dir relpath a = make_row dir relpath b.
Proof.
  intro H. destruct (same_tree_attrs _ _ H) as (Hn & Hd & Hs & Hp).
  unfold make_row, getPermissions, size_or_zero. now rewrite Hn, Hd, Hs, Hp.
Qed.

Local Abbreviation order_blind e :=
  (forall e', same_tree e e' ->
   forall dir level prefix isLast relpath (w1 w2 : World),
     same_output w1 w2 ->
     same_output (printTree e dir level prefix isLast relpath w1)
                 (printTree e' dir level prefix isLast relpath w2)).

Lemma processEntries_same dir level prefix relpath (es es' : list Node) :
  Forall2 same_tree es es' ->
  Forall (fun e => order_blind e) es ->
  forall w1 w2 : World,
    same_output w1 w2 ->
    same_output
      (Tree.processEntries is_console formatIntWithCommas args (fun e => e)
         (fun e => printTree e) dir level prefix relpath es w1)
      (Tree.processEntries is_console formatIntWithCommas args (fun e => e)
         (fun e => printTree e) dir level prefix relpath es' w2).
Proof.
  induction 1 as [| e e' es es' He Hes IH]; intros Hall w1 w2 Hw;
    [exact Hw |].
  inversion Hall as [| ? ? Hrec Hall']; subst.
  cbn [Tree.processEntries]. apply IH; [exact Hall' |].
  replace (match es' with [] => true | _ :: _ => false end)
    with (match es with [] => true | _ :: _ => false end)
    by (destruct Hes; reflexivity).
  unfold Tree.processEntry.
  destruct (same_tree_attrs _ _ He) as (Hn & Hd & _).
  rewrite <- Hn, <- Hd, <- (render_line_same _ _ _ _ He),
    <- (make_row_same _ _ _ _ He).
  destruct Hw as [Hc Hs].
  assert (Hw' : forall last,
             same_output
               (if empty (csvOut args)
                then cout_line (render_line is_console formatIntWithCommas
                                  args prefix last e)
                       (note_visit {| v_dir := dir; v_level := level;
                                      v_prefix := prefix;
                                      v_relpath := relpath;
                                      v_isLast := last; v_entry := e |} w1)
                else with_stats (push_row (make_row dir relpath e))
                       (note_visit {| v_dir := dir; v_level := level;
                                      v_prefix := prefix;
                                      v_relpath := relpath;
                                      v_isLast := last; v_entry := e |} w1))
               (if empty (csvOut args)
                then cout_line (render_line is_console formatIntWithCommas
                                  args prefix last e)
                       (note_visit {| v_dir := dir; v_level := level;
                                      v_prefix := prefix;
                                      v_relpath := relpath;
                                      v_isLast := last; v_entry := e' |} w2)
                else with_stats (push_row (make_row dir relpath e))
                       (note_visit {| v_dir := dir; v_level := level;
                                      v_prefix := prefix;
                                      v_relpath := relpath;
                                      v_isLast := last; v_entry := e' |} w2))).
  { intro last. unfold same_output.
    destruct (empty (csvOut args)); simpl; now rewrite Hc, Hs. }
  destruct (is_directory e).
  - apply Hrec; [exact He |].
    destruct (Hw' (match es with [] => true | _ :: _ => false end))
      as [Hc' Hs'].
    split; simpl; [exact Hc' | now rewrite Hs'].
  - destruct (Hw' (match es with [] => true | _ :: _ => false end))
      as [Hc' Hs'].
    split; simpl; [exact Hc' | now rewrite Hs'].
Qed.

(** Lines, rows and statistics are the same for two trees that differ in
    the order of enumeration only. *)
Lemma printTree_order_blind (node : Node) :
  distinct_names node = true -> order_blind node.
Proof.
  induction node as [nm md sz | nm md ch fl IH] using Node_ind';
    intros Hd node' Hsame dir level prefix isLast relpath w1 w2 Hw.
  - inversion Hsame; subst. rewrite !printTree_File.
    destruct (pruned args level); [exact Hw |].
    destruct Hw as [Hc Hs]. split; simpl; assumption.
  - inversion Hsame as [| ? ? ? ch0 ch' ? Hperm Hall]; subst.
    rewrite !printTree_Dir.
    destruct (pruned args level); [exact Hw |].
    cbn [distinct_names] in Hd. apply andb_true_iff in Hd.
    destruct Hd as [Hdn Hdc].
    pose proof (distinct_names_in_NoDup _ Hdn) as Hnd.
    pose proof (collect_perm ch ch0 fl Hperm) as Hcp.
    pose proof (collect_same ch0 ch' fl Hall) as Hcs.
    destruct (collect ch fl) as [es | what] eqn:E,
             (collect ch0 fl) as [es0 | what0] eqn:E0; try contradiction;
      destruct (collect ch' fl) as [es' | what'] eqn:E'; try contradiction.
    + assert (Hsort : sort_entries (fun e => e) es =
                      sort_entries (fun e => e) es0).
      { apply sorted_perm_unique.
        - apply sorted_strict; [| apply sort_entries_sorted].
          eapply Permutation_NoDup;
            [apply Permutation_map, sort_entries_perm |].
          eapply collect_NoDup; [| exact E]. exact Hnd.
        - apply sorted_strict; [| apply sort_entries_sorted].
          eapply Permutation_NoDup;
            [apply Permutation_map, sort_entries_perm |].
          eapply collect_NoDup; [| exact E0].
          eapply Permutation_NoDup; [apply Permutation_map, Hperm | exact Hnd].
        - eapply Permutation_trans;
            [apply Permutation_sym, sort_entries_perm |].
          eapply Permutation_trans; [exact Hcp | apply sort_entries_perm]. }
      rewrite Hsort.
      assert (Hout : same_output
                (Tree.processEntries is_console formatIntWithCommas args
                   (fun e => e) (fun e => printTree e) dir level prefix
                   relpath (sort_entries (fun e => e) es0) w1)
                (Tree.processEntries is_console formatIntWithCommas args
                   (fun e => e) (fun e => printTree e) dir level prefix
                   relpath (sort_entries (fun e => e) es') w2)).
      { apply processEntries_same; [now apply sort_entries_same | | exact Hw].
        apply Forall_forall. intros e He.
        assert (Hin : In e ch).
        { rewrite <- Hsort in He. apply sort_entries_In in He.
          eapply collect_In; eassumption. }
        rewrite Forall_forall in IH. apply IH; [exact Hin |].
        rewrite forallb_forall in Hdc. now apply Hdc. }
      destruct Hout as [Hc Hs]. split; simpl; [exact Hc | now rewrite Hs].
    + destruct Hw as [Hc Hs]. split; simpl; assumption.
Qed.

(** C5.  On a tree in which no directory holds two entries of one name:
    a call of [printTree] takes up the pre-order walk [vs] of its
    listing, each entry followed by all that lies below it before the
    next entry of the same directory, and there is one such walk only;
    lines and rows follow [vs] ([grows_by]).  The entries that any
    directory of the tree contributes to the walk stand in the strict
    order of their names as byte strings, they are the entries that
    pass the filters, and they are the same in whatever order the
    directory hands out its children.  A run on the same tree with its
    directories enumerated in another order writes the same lines and
    collects the same rows and statistics. *)
Theorem children_walked_in_byte_order_depth_first
  (node : Node) dir level prefix isLast relpath (w : World) :
  distinct_names node = true ->
  exists vs errs,
    grows_by w (printTree node dir level prefix isLast relpath w) vs errs /\
    traversal dir level prefix relpath (listing level node) vs /\
    (forall vs',
        traversal dir level prefix relpath (listing level node) vs' ->
        vs' = vs) /\
    (forall d, d = node \/ reachable node d ->
       StronglySorted name_before (survivors d) /\
       (forall entries,
           collect (children_of d) (failure_of d) = Ok entries ->
           Permutation entries (survivors d)) /\
       (forall l', Permutation (children_of d) l' ->
                   survivors (relisted d l') = survivors d)) /\
    (forall node', same_tree node node' ->
       same_output (printTree node dir level prefix isLast relpath w)
                   (printTree node' dir level prefix isLast relpath w)).
Proof.
  intro Hd.
  destruct (printTree_effect is_console formatIntWithCommas regex_match
              not_a_directory args node dir level prefix isLast relpath w)
    as (vs & errs & Htr & Hg).
  exists vs, errs. split; [exact Hg |]. split; [exact Htr |].
  split; [| split].
  - intros vs' H'. eapply traversal_functional; eassumption.
  - intros d Hr.
    assert (Hdd : distinct_names d = true).
    { destruct Hr as [-> | Hr]; [exact Hd |].
      eapply distinct_names_reachable; eassumption. }
    split; [now apply survivors_sorted |]. split.
    + intros entries Hc.
      destruct d as [nm md sz | nm md ch fl].
      * inversion Hc. constructor.
      * cbn [children_of failure_of] in Hc. cbn [Tree.survivors].
        rewrite Hc. apply sort_entries_perm.
    + intros l' Hp. now apply survivors_perm.
  - intros node' Hsame. apply printTree_order_blind; try assumption.
    split; reflexivity.
Qed.

End OrderFacts.

Section RunFacts.
Variable is_console : bool.
Variable formatIntWithCommas : Z -> string.
Variable regex_match : string -> string -> result bool.
Variable not_a_directory : string.

Local Abbreviation printTree :=
  (Tree.printTree is_console formatIntWithCommas regex_match
     not_a_directory).
Local Abbreviation main :=
  (Tree.main is_console formatIntWithCommas regex_match not_a_directory).
Local Abbreviation collect args :=
  (Tree.collect regex_match args (fun e : Node => e)).
Local Abbreviation redirected := (Tree.redirected is_console).

Lemma collect_redirected (args : Args) (l : list Node) failure :
  collect (redirected args) l failure = collect args l failure.
Proof.
  unfold Tree.redirected. destruct (negb is_console); reflexivity.
Qed.

Lemma pruned_level_1 (args : Args) : pruned args 1 = false.
Proof.
  unfold pruned.
  destruct (0 <? maxLevel args)%Z eqn:H0; [| reflexivity].
  destruct (maxLevel args <? 1)%Z eqn:H1; [| reflexivity].
  apply Z.ltb_lt in H0, H1. lia.
Qed.

Lemma csvOut_redirected (args : Args) :
  csvOut (redirected args) = csvOut args.
Proof. unfold Tree.redirected. now destruct (negb is_console). Qed.

(** C10.  A directory that the depth limit does not cut off: when its
    enumeration succeeds, [maxDepth] is at least its level after the
    call, whatever survives the filters; when its enumeration throws,
    the statistics are what they were.  A run of [main] on a root
    directory of which nothing survives ends with [maxDepth = 1],
    [folders = 0], [files = 0], and without export its last line is the
    summary with these numbers.  A directory that the process may not
    read is enumerated with success, as an empty directory (the
    iterator skips the denial): [maxDepth] is raised to its level. *)
Theorem maxDepth_raised_unless_enumeration_fails
  (args : Args) name mode children failure dir level prefix isLast relpath
  (w : World) :
  let d := Dir name mode children failure in
  let w' := printTree args d dir level prefix isLast relpath w in
  (pruned args level = false ->
   forall entries, collect args children failure = Ok entries ->
     (level <= maxDepth (stats w'))%Z) /\
  (pruned args level = false ->
   forall what, collect args children failure = Throw what ->
     stats w' = stats w) /\
  (collect args children failure = Ok [] ->
   let wm := fst (main args d) in
   maxDepth (stats wm) = 1%Z /\ folders (stats wm) = 0%Z /\
   files (stats wm) = 0%Z /\
   (empty (csvOut args) = true ->
    exists before,
      cout wm =
      (before ++ ["The tree counts 1 layers, 0 folders, 0 files."])%list)) /\
  (pruned args level = false ->
   forall held : list Node,
     (level <=
      maxDepth (stats (printTree args
                         (directory name mode PermissionDenied held)
                         dir level prefix isLast relpath w)))%Z).
Proof.
  intros d w'. subst d w'.
  assert (Hdenied : pruned args level = false ->
            forall held : list Node,
              (level <=
               maxDepth (stats (printTree args
                                  (directory name mode PermissionDenied held)
                                  dir level prefix isLast relpath w)))%Z).
  { intros Hp held. unfold directory. cbn [iterate fst snd].
    rewrite printTree_Dir, Hp. simpl. lia. }
  repeat split; try exact Hdenied.
  - intros Hp entries Hc. rewrite printTree_Dir, Hp, Hc. simpl. lia.
  - intros Hp what Hc. rewrite printTree_Dir, Hp, Hc. reflexivity.
  - unfold Tree.main. rewrite printTree_Dir, pruned_level_1,
      collect_redirected, H, csvOut_redirected.
    destruct (empty (csvOut args)); reflexivity.
  - unfold Tree.main. rewrite printTree_Dir, pruned_level_1,
      collect_redirected, H, csvOut_redirected.
    destruct (empty (csvOut args)); reflexivity.
  - unfold Tree.main. rewrite printTree_Dir, pruned_level_1,
      collect_redirected, H, csvOut_redirected.
    destruct (empty (csvOut args)); reflexivity.
  - intro He. unfold Tree.main. rewrite printTree_Dir, pruned_level_1,
      collect_redirected, H, csvOut_redirected, He.
    simpl. eexists [_; _]. reflexivity.
Qed.

End RunFacts.

(* ===================================================================== *)
(** * The claims at work on the examples *)
(* ===================================================================== *)

(** The examples run with stdout redirected, the numbers of the classic
    locale, and the modelled fragment of the regular expressions. *)
Local Abbreviation printTree_ex :=
  (Tree.printTree false decimal fragment_engine "Not a directory").

Lemma depth_limit_cuts_levels_above_it_witness :
  let args := set_maxLevel 1 default_args in
  (0 < maxLevel args)%Z /\ (maxLevel default_args <= 0)%Z /\
  (exists vs vs0,
      visited (printTree_ex args example_root "." 1 "" true "" World_init)
        = vs /\
      visited (printTree_ex (set_maxLevel 0 args) example_root "." 1 ""
                 true "" World_init) = vs0 /\
      Forall (fun v => (v_level v <= maxLevel args)%Z) vs /\
      vs = filter (fun v => (v_level v <=? maxLevel args)%Z) vs0) /\
  (forall e, In e (map v_entry
                     (visited (printTree_ex default_args example_root "."
                                 1 "" true "" World_init))) <->
             below fragment_engine default_args example_root e) /\
  below fragment_engine default_args example_root
        (File "f.txt" 420 (Some 10)).
Proof.
  intro args. split; [reflexivity |]. split; [discriminate |]. split.
  - destruct (depth_limit_cuts_levels_above_it false decimal fragment_engine
                "Not a directory" args example_root "." 1 "" true ""
                World_init)
      as (vs & vs0 & errs & errs0 & Hg & Hg0 & Hpos & _).
    destruct (Hpos eq_refl) as [Hall Hfil].
    exists vs, vs0.
    destruct Hg as (Hv & _). destruct Hg0 as (Hv0 & _).
    repeat split; assumption.
  - destruct (depth_limit_cuts_levels_above_it false decimal fragment_engine
                "Not a directory" default_args example_root "." 1 "" true ""
                World_init)
      as (vs & vs0 & errs & errs0 & Hg & Hg0 & _ & Hneg).
    destruct (Hneg ltac:(discriminate)) as [_ Hreach].
    destruct Hg as (Hv & _).
    change (visited World_init ++ vs)%list with vs in Hv.
    rewrite Hv. split; [exact Hreach |].
    apply Hreach. rewrite <- Hv. vm_compute. tauto.
Defined.

(** C4, as the specification words it, fails: a directory with the single
    file [f] is not drawn with the box glyphs. *)
Lemma box_glyphs_are_not_what_is_drawn :
  ~ (empty (csvOut default_args) = true ->
     exists lines,
       cout (printTree_ex default_args one_file_root "." 1 "" true ""
               World_init) = (cout World_init ++ lines)%list /\
       drawing false fragment_engine default_args box_last box_other 1 ""
               (listing fragment_engine default_args 1 one_file_root) lines).
Proof.
  intro H. destruct (H eq_refl) as (lines & Hc & Hd).
  vm_compute in Hc. subst lines.
  vm_compute in Hd. inversion Hd.
Qed.

Lemma lines_draw_the_tree_with_ascii_glyphs_witness :
  empty (csvOut default_args) = true /\
  exists lines,
    cout (printTree_ex default_args example_root "." 1 "" true ""
            World_init) = (cout World_init ++ lines)%list /\
    drawing false fragment_engine default_args "`-- " "|-- " 1 ""
            (listing fragment_engine default_args 1 example_root) lines.
Proof.
  split; [reflexivity |].
  apply (lines_draw_the_tree_with_ascii_glyphs false decimal fragment_engine
           "Not a directory" default_args example_root "." 1 "" true ""
           World_init).
  reflexivity.
Defined.

Lemma children_walked_in_byte_order_depth_first_witness :
  distinct_names example_root = true /\
  StronglySorted name_before
    (survivors fragment_engine default_args example_root) /\
  survivors fragment_engine default_args
    (relisted example_root (rev (children_of example_root))) =
  survivors fragment_engine default_args example_root /\
  same_output
    (printTree_ex default_args example_root "." 1 "" true "" World_init)
    (printTree_ex default_args
       (relisted example_root (rev (children_of example_root)))
       "." 1 "" true "" World_init).
Proof.
  split; [reflexivity |].
  destruct (children_walked_in_byte_order_depth_first false decimal
              fragment_engine "Not a directory" default_args example_root
              "." 1 "" true "" World_init eq_refl)
    as (vs & errs & _ & _ & _ & Hdirs & Hblind).
  destruct (Hdirs example_root (or_introl eq_refl)) as (Hs & _ & Hp).
  split; [exact Hs |]. split; [apply Hp, Permutation_rev |].
  apply Hblind. unfold example_root. cbn [relisted children_of].
  eapply same_dir; [apply Permutation_rev |].
  repeat constructor.
  apply (same_dir _ _ _ [File "f.txt" 420 (Some 10)]);
    [apply Permutation_refl | repeat constructor].
Defined.

Lemma row_relpath_is_parent_relpath_slash_name_witness :
  valid_names example_root = true /\
  empty (csvOut export_args) = false /\
  exists rows,
    csvRows (stats (printTree_ex export_args example_root "/x" 1 "" true ""
                      World_init)) = (csvRows (stats World_init) ++ rows)%list /\
    rows_under fragment_engine export_args 1 ""
               (listing fragment_engine export_args 1 example_root) rows /\
    Forall (fun r => Tree.relpath r <> "" /\
                     starts_with_slash (Tree.relpath r) = false) rows.
Proof.
  split; [reflexivity |]. split; [reflexivity |].
  apply (row_relpath_is_parent_relpath_slash_name false decimal
           fragment_engine "Not a directory" export_args example_root "/x" 1
           "" true World_init); reflexivity.
Defined.

(** C8, as the specification words it, fails: of the two failures it
    names, a denial of permission is not reported. *)
Lemma unreadable_directory_is_not_reported :
  ~ (forall o : opening,
       o = PermissionDenied \/ o = Fails "No such file or directory" ->
       exists line,
         cerr (printTree_ex default_args
                 (directory "locked" 448 o [File "key" 384 (Some 1)])
                 "./locked" (1 + 1) "|   " false "locked" World_init) =
         [line]).
Proof.
  intro H. destruct (H PermissionDenied (or_introl eq_refl)) as (line & Hc).
  vm_compute in Hc. discriminate Hc.
Qed.

Lemma failed_enumeration_is_reported_once_and_skipped_witness :
  pruned default_args (1 + 1) = false /\
  Tree.collect fragment_engine default_args (fun e => e)
               (children_of vanished_dir) (failure_of vanished_dir) =
    Throw "No such file or directory" /\
  cerr (printTree_ex default_args vanished_dir "./gone" (1 + 1) "|   " false
          "gone" World_init) =
    ["[etree] Failed to enumerate directory './gone': No such file or directory"] /\
  cout (Tree.processEntries false decimal default_args (fun e => e)
          (fun e => printTree_ex default_args e) "." 1 "" ""
          [vanished_dir; File "z" 420 (Some 1)] World_init) =
    ["|-- gone"; "`-- z"] /\
  printTree_ex default_args locked_dir "./locked" (1 + 1) "|   " false
    "locked" World_init =
  with_stats (raise_maxDepth (1 + 1)) World_init.
Proof.
  split; [reflexivity |]. split; [reflexivity |].
  destruct (failed_enumeration_is_reported_once_and_skipped false decimal
              fragment_engine "Not a directory" default_args "gone" 493 []
              (Some "No such file or directory")
              "No such file or directory" "." 1 "" ""
              [File "z" 420 (Some 1)] World_init eq_refl eq_refl)
    as (Hcall & Hloop & _).
  destruct (failed_enumeration_is_reported_once_and_skipped false decimal
              fragment_engine "Not a directory" default_args "locked" 448 []
              (Some "No such file or directory")
              "No such file or directory" "." 1 "" ""
              [] World_init eq_refl eq_refl)
    as (_ & _ & Hdenied).
  split; [| split].
  - unfold vanished_dir, directory. cbn [iterate fst snd].
    rewrite Hcall. reflexivity.
  - unfold vanished_dir, directory. cbn [iterate fst snd].
    rewrite Hloop. reflexivity.
  - unfold locked_dir. apply Hdenied.
Defined.

Lemma maxDepth_raised_unless_enumeration_fails_witness :
  pruned default_args 1 = false /\
  Tree.collect fragment_engine default_args (fun e => e) [] None = Ok [] /\
  Tree.collect fragment_engine default_args (fun e => e)
               (children_of vanished_dir) (failure_of vanished_dir) =
    Throw "No such file or directory" /\
  (1 <= maxDepth (stats (printTree_ex default_args empty_root "." 1 "" true
                           "" World_init)))%Z /\
  stats (printTree_ex default_args vanished_dir "." 1 "" true "" World_init) =
    stats World_init /\
  cout (fst (Tree.main false decimal fragment_engine "Not a directory"
               default_args empty_root)) =
    ["."; ""; "The tree counts 1 layers, 0 folders, 0 files."] /\
  (1 <= maxDepth (stats (printTree_ex default_args locked_dir "." 1 "" true
                           "" World_init)))%Z.
Proof.
  split; [reflexivity |]. split; [reflexivity |]. split; [reflexivity |].
  destruct (maxDepth_raised_unless_enumeration_fails false decimal
              fragment_engine "Not a directory" default_args "x" 493 [] None
              "." 1 "" true "" World_init) as (Hok & _ & Hrun & _).
  destruct (maxDepth_raised_unless_enumeration_fails false decimal
              fragment_engine "Not a directory" default_args "gone" 493 []
              (Some "No such file or directory") "." 1 "" true ""
              World_init)
    as (_ & Hthrow & _).
  destruct (maxDepth_raised_unless_enumeration_fails false decimal
              fragment_engine "Not a directory" default_args "locked" 448 []
              None "." 1 "" true "" World_init)
    as (_ & _ & _ & Hdenied).
  split; [exact (Hok eq_refl [] eq_refl) |].
  split; [exact (Hthrow eq_refl "No such file or directory" eq_refl) |].
  destruct (Hrun eq_refl) as (_ & _ & _ & Hsum).
  destruct (Hsum eq_refl) as (before & Hcout).
  split; [reflexivity |].
  exact (Hdenied eq_refl [File "key" 384 (Some 1)]).
Defined.

(** The examples of the specification. *)
Example matches_is_case_insensitive :
  matchesPattern fragment_engine "FILE.TXT" "*.txt" = Ok true.
Proof. reflexivity. Qed.

Example matches_is_anchored :
  matchesPattern fragment_engine "file.txtx" "*.txt" = Ok false.
Proof. reflexivity. Qed.

Example run_of_the_example_tree :
  cout (fst (Tree.main false decimal fragment_engine "Not a directory"
               default_args example_root)) =
  ["."; "|-- a"; "|   `-- f.txt"; "`-- b.tmp"; "";
   "The tree counts 2 layers, 1 folders, 2 files."].
Proof. reflexivity. Qed.

Example export_of_the_example_tree :
  snd (Tree.main false decimal fragment_engine "Not a directory"
         export_args example_root) =
  Some [tsv_header;
        "a" ++ TAB ++ "a" ++ TAB ++ "folder" ++ TAB ++ "0" ++ TAB ++ TAB ++
        TAB ++ "rwxr-xr-x";
        "a/f.txt" ++ TAB ++ "f.txt" ++ TAB ++ "file" ++ TAB ++ "10" ++ TAB ++
        TAB ++ TAB ++ "rw-r--r--"] /\
  stats (fst (Tree.main false decimal fragment_engine "Not a directory"
                export_args example_root)) =
  {| maxDepth := 2; folders := 1; files := 1;
     csvRows := csvRows (stats (fst (Tree.main false decimal fragment_engine
                                       "Not a directory" export_args
                                       example_root))) |}.
Proof. split; reflexivity. Qed.


(* ===================================================================== *)
(** * What else the code keeps true *)
(* ===================================================================== *)

(* --------------------------------------------------------------------- *)
(** ** The matcher, case and endings *)

Lemma to_lower_line_terminator (d : ascii) :
  is_line_terminator (to_lower d) = is_line_terminator d.
Proof.
  unfold to_lower.
  destruct ((65 <=? N_of_ascii d)%N && (N_of_ascii d <=? 90)%N) eqn:E;
    [| reflexivity].
  apply andb_true_iff in E. destruct E as [E1 E2].
  apply N.leb_le in E1, E2.
  assert (Hd : d = ascii_of_N (N_of_ascii d)) by (now rewrite ascii_N_embedding).
  remember (N_of_ascii d) as n eqn:Hn. clear Hn.
  assert (Hcases : forall k, (k <= 25)%nat -> n = (65 + N.of_nat k)%N ->
            is_line_terminator (ascii_of_N (n + 32)) = is_line_terminator d).
  { intros k Hk ->. rewrite Hd.
    do 26 (destruct k as [| k]; [reflexivity |]). lia. }
  apply (Hcases (N.to_nat (n - 65))); lia.
Qed.

Lemma to_lower_idem (d : ascii) : to_lower (to_lower d) = to_lower d.
Proof.
  unfold to_lower at 2 3.
  destruct ((65 <=? N_of_ascii d)%N && (N_of_ascii d <=? 90)%N) eqn:E;
    [| unfold to_lower; now rewrite E].
  apply andb_true_iff in E. destruct E as [E1 E2].
  apply N.leb_le in E1, E2.
  unfold to_lower. rewrite N_ascii_embedding by lia.
  replace ((65 <=? N_of_ascii d + 32)%N && (N_of_ascii d + 32 <=? 90)%N)
    with false; [reflexivity |].
  symmetry. apply andb_false_iff. right. apply N.leb_gt. lia.
Qed.

Lemma atom_matches_lower (a : atom) (d d' : ascii) :
  to_lower d = to_lower d' -> atom_matches a d = atom_matches a d'.
Proof.
  intro H. destruct a as [c |]; simpl.
  - now rewrite H.
  - now rewrite <- (to_lower_line_terminator d), H, to_lower_line_terminator.
Qed.

Lemma match_terms_lower (ts : list term) : forall s s',
  map to_lower s = map to_lower s' -> match_terms ts s = match_terms ts s'.
Proof.
  induction ts as [| [a q] ts IH]; intros s s' H.
  - destruct s, s'; try discriminate; reflexivity.
  - assert (Hmany : forall s s', map to_lower s = map to_lower s' ->
              match_terms ((a, ZeroOrMore) :: ts) s =
              match_terms ((a, ZeroOrMore) :: ts) s').
    { clear s s' H. induction s as [| d s IHs]; intros [| d' s'] H;
        try discriminate.
      - reflexivity.
      - rewrite (match_terms_many a ts (d :: s)),
          (match_terms_many a ts (d' :: s')). injection H as Hd Hs.
        rewrite (IH (d :: s) (d' :: s')) by (simpl; now rewrite Hd, Hs).
        rewrite (atom_matches_lower a d d' Hd), (IHs s' Hs). reflexivity. }
    destruct q.
    + rewrite !match_terms_once.
      destruct s as [| d s], s' as [| d' s']; try discriminate; [reflexivity |].
      injection H as Hd Hs.
      now rewrite (atom_matches_lower a d d' Hd), (IH s s' Hs).
    + now apply Hmany.
    + destruct s as [| d s], s' as [| d' s']; try discriminate; [reflexivity |].
      injection H as Hd Hs.
      change (match_terms ((a, OneOrMore) :: ts) (d :: s))
        with (atom_matches a d && match_terms ((a, ZeroOrMore) :: ts) s).
      change (match_terms ((a, OneOrMore) :: ts) (d' :: s'))
        with (atom_matches a d' && match_terms ((a, ZeroOrMore) :: ts) s').
      now rewrite (atom_matches_lower a d d' Hd), (Hmany s s' Hs).
    + change (match_terms ((a, ZeroOrOne) :: ts) s)
        with (match_terms ts s || match_terms ((a, Once) :: ts) s).
      change (match_terms ((a, ZeroOrOne) :: ts) s')
        with (match_terms ts s' || match_terms ((a, Once) :: ts) s').
      rewrite (IH s s' H), !match_terms_once.
      destruct s as [| d s], s' as [| d' s']; try discriminate; [reflexivity |].
      injection H as Hd Hs.
      now rewrite (atom_matches_lower a d d' Hd), (IH s s' Hs).
Qed.

(** X6.  On such patterns [matchesPattern] does not tell names apart that
    differ in the case of ASCII letters only. *)
Theorem matchesPattern_ignores_case
  (regex_match : string -> string -> result bool) (name name' pattern : string) :
  standard regex_match ->
  glob_only pattern = true ->
  map to_lower (list_ascii_of_string name) =
  map to_lower (list_ascii_of_string name') ->
  matchesPattern regex_match name pattern =
  matchesPattern regex_match name' pattern.
Proof.
  intros Hstd Hp Hn. unfold matchesPattern.
  destruct pattern as [| c p]; [reflexivity |].
  pose proof (Hstd ("^" ++ regexPattern (String c p) ++ "$") name) as H1.
  pose proof (Hstd ("^" ++ regexPattern (String c p) ++ "$") name') as H2.
  unfold ecma_fragment in *. rewrite parse_regexPattern in H1, H2 by exact Hp.
  rewrite H1, H2. f_equal. now apply match_terms_lower.
Qed.

Lemma glob_literal_eq (x s : list ascii) :
  forallb literal_char x = true ->
  glob x s = true <-> map to_lower x = map to_lower s.
Proof.
  revert s. induction x as [| c x IH]; intros s Hx.
  - destruct s; simpl; split; congruence.
  - cbn [forallb] in Hx. apply andb_true_iff in Hx. destruct Hx as [Hc Hx].
    unfold literal_char in Hc. apply andb_true_iff in Hc.
    destruct Hc as [Hs Hq]. apply negb_true_iff in Hs, Hq.
    rewrite glob_literal
      by (intro E; subst c; discriminate).
    destruct s as [| d s]; [simpl; split; congruence |].
    rewrite andb_true_iff, (IH s Hx). cbn [map].
    split.
    + intros [E1 E2]. apply Ascii.eqb_eq in E1. now rewrite E1, E2.
    + intro E. injection E as E1 E2. split; [now apply Ascii.eqb_eq | exact E2].
Qed.

Lemma glob_star_ends (x s : list ascii) :
  forallb literal_char x = true ->
  glob ("*"%char :: x) s = true <->
  exists pre suf, s = (pre ++ suf)%list /\ map to_lower x = map to_lower suf.
Proof.
  intro Hx. induction s as [| d s IH].
  - rewrite glob_star, orb_false_r, (glob_literal_eq x [] Hx). split.
    + intro H. now exists [], [].
    + intros (pre & suf & Hs & H). symmetry in Hs.
      apply app_eq_nil in Hs. destruct Hs as [_ ->]. exact H.
  - rewrite glob_star, orb_true_iff, (glob_literal_eq x (d :: s) Hx), IH.
    split.
    + intros [H | (pre & suf & -> & H)].
      * now exists [], (d :: s).
      * now exists (d :: pre), suf.
    + intros (pre & suf & Hs & H). destruct pre as [| d' pre].
      * left. simpl in Hs. now rewrite Hs.
      * right. injection Hs as _ Hs. now exists pre, suf.
Qed.

(** X7.  Of the names without a line break, a pattern that is a star
    and then plain characters matches those that end with these
    characters, whatever the case of the letters, and no other. *)
Theorem star_pattern_matches_by_ending
  (regex_match : string -> string -> result bool) (name tail : string) :
  standard regex_match ->
  glob_only tail = true ->
  forallb literal_char (list_ascii_of_string tail) = true ->
  no_line_terminator name = true ->
  matchesPattern regex_match name ("*" ++ tail) = Ok true <->
  exists pre suf,
    list_ascii_of_string name = (pre ++ suf)%list /\
    map to_lower (list_ascii_of_string tail) = map to_lower suf.
Proof.
  intros Hstd Hg Hl Hn.
  assert (Hm : matchesPattern regex_match name ("*" ++ tail) =
               Ok (glob_matches name ("*" ++ tail))).
  { specialize (Hstd ("^" ++ regexPattern ("*" ++ tail) ++ "$") name).
    unfold ecma_fragment in Hstd.
    rewrite parse_regexPattern in Hstd by exact Hg.
    unfold matchesPattern, glob_matches. cbn [append]. cbn [append] in Hstd.
    rewrite Hstd. f_equal. now apply match_terms_glob. }
  rewrite Hm.
  pose proof (glob_star_ends (list_ascii_of_string tail)
                (list_ascii_of_string name) Hl) as HG.
  change (glob_matches name ("*" ++ tail))
    with (glob ("*"%char :: list_ascii_of_string tail)
            (list_ascii_of_string name)).
  split.
  - intros [= E]. apply HG. exact E.
  - intro E. apply HG in E. f_equal. exact E.
Qed.

(* --------------------------------------------------------------------- *)
(** ** What every call of [printTree] keeps true *)

Lemma string_append_nil_r (s : string) : s ++ "" = s.
Proof. induction s as [| c s IH]; simpl; [reflexivity | now rewrite IH]. Qed.

Lemma string_length_app (a b : string) :
  String.length (a ++ b) = (String.length a + String.length b)%nat.
Proof. induction a as [| c a IH]; simpl; [reflexivity | now rewrite IH]. Qed.

Lemma indent_only_app (a b : string) :
  indent_only a = true -> indent_only b = true -> indent_only (a ++ b) = true.
Proof.
  intros Ha Hb. induction a as [| c a IH]; simpl in *; [exact Hb |].
  apply andb_true_iff in Ha. destruct Ha as [Hc Ha].
  now rewrite Hc, IH.
Qed.

Section WalkFacts.
Variable is_console : bool.
Variable formatIntWithCommas : Z -> string.
Variable regex_match : string -> string -> result bool.
Variable not_a_directory : string.
Variable args : Args.

Local Abbreviation printTree :=
  (Tree.printTree is_console formatIntWithCommas regex_match
     not_a_directory args).
Local Abbreviation processEntries :=
  (Tree.processEntries is_console formatIntWithCommas args
     (fun e : Node => e) (fun e : Node => printTree e)).
Local Abbreviation processEntry :=
  (Tree.processEntry is_console formatIntWithCommas args
     (fun e : Node => e) (fun e : Node => printTree e)).
Local Abbreviation collect := (Tree.collect regex_match args (fun e : Node => e)).
Local Abbreviation sort_entries := (Tree.sort_entries (fun e : Node => e)).
Local Abbreviation traversal := (Tree.traversal regex_match args).
Local Abbreviation listing := (Tree.listing regex_match args).
Local Abbreviation pruned := (Tree.pruned args).
Local Abbreviation passes := (Notions.passes regex_match args).

Lemma collect_passes (l : list Node) failure entries :
  collect l failure = Ok entries ->
  Forall (fun e => passes e = true) entries.
Proof.
  revert entries. induction l as [| x l IH]; simpl; intros entries H.
  - destruct failure; inversion H; constructor.
  - destruct (negb (showHidden args) && _) eqn:E1; [eauto |].
    destruct (if empty (excludePattern args) then _ else _)
      as [[|] | what] eqn:E2; [eauto | | discriminate].
    destruct (showDirsOnly args && _) eqn:E3; [eauto |].
    destruct (collect l failure) as [es |]; [| discriminate].
    inversion H; subst. constructor; [| eauto].
    unfold Notions.passes, hidden_name.
    destruct (showHidden args), (showDirsOnly args), (is_directory x);
      simpl in E1, E3 |- *; try discriminate; rewrite ?E1; simpl;
      (destruct (empty (excludePattern args));
       [reflexivity | now rewrite E2]).
Qed.

Lemma listing_passes level (e : Node) :
  Forall (fun c => passes c = true) (listing level e).
Proof.
  unfold Tree.listing. destruct (pruned level); [constructor |].
  destruct e as [| nm md ch fl]; simpl; [constructor |].
  destruct (collect ch fl) as [es |] eqn:Hc; [| constructor].
  apply Forall_forall. intros c Hin. apply sort_entries_In in Hin.
  pose proof (collect_passes _ _ _ Hc) as Hall.
  rewrite Forall_forall in Hall. now apply Hall.
Qed.

Lemma traversal_passes dir level prefix relpath es vs :
  traversal dir level prefix relpath es vs ->
  Forall (fun e => passes e = true) es ->
  Forall (fun v => passes (v_entry v) = true) vs.
Proof.
  induction 1 as [| dir level prefix relpath e rest sub vs Hs IHs Hr IHr];
    intro Hall; [constructor |].
  inversion Hall; subst.
  constructor; [assumption |].
  apply Forall_app. split; [apply IHs, listing_passes | now apply IHr].
Qed.

(** X8.  No entry is taken up that the filter loop skips: whatever a call
    of [printTree] adds to the entries taken up is not hidden unless
    hidden entries are asked for, is not matched by the exclude pattern
    when there is one, and is a directory when only directories are
    asked for, at every depth. *)
Theorem every_entry_taken_up_passes_the_filters
  (node : Node) dir level prefix isLast relpath (w : World) :
  exists vs : list Visit,
    visited (printTree node dir level prefix isLast relpath w) =
      (visited w ++ vs)%list /\
    Forall (fun v => passes (v_entry v) = true) vs.
Proof.
  destruct (printTree_effect is_console formatIntWithCommas regex_match
              not_a_directory args node dir level prefix isLast relpath w)
    as (vs & errs & Htr & Hv & _).
  exists vs. split; [exact Hv |].
  eapply traversal_passes; [exact Htr | apply listing_passes].
Qed.

Lemma traversal_indented dir level prefix relpath es vs :
  traversal dir level prefix relpath es vs ->
  Forall (indented level prefix) vs.
Proof.
  induction 1 as [| dir level prefix relpath e rest sub vs Hs IHs Hr IHr];
    [constructor |].
  constructor.
  - exists "". cbn [v_prefix v_level]. rewrite string_append_nil_r.
    split; [reflexivity | split; [reflexivity |]].
    change (Z.of_nat (String.length "")) with 0. lia.
  - apply Forall_app. split; [| exact IHr].
    eapply Forall_impl; [| exact IHs].
    intros v (ext & Hp & Hi & Hl).
    exists ((if is_nil rest then "    " else "|   ") ++ ext).
    rewrite Hp, string_append_assoc, string_length_app.
    split; [reflexivity | split].
    + apply indent_only_app; [now destruct (is_nil rest) | exact Hi].
    + rewrite Nat2Z.inj_add, Hl.
      replace (Z.of_nat (String.length (if is_nil rest then "    " else "|   ")))
        with 4 by now destruct (is_nil rest).
      lia.
Qed.

(** X9.  The prefix of an entry is the prefix of the call with four
    characters, bars and spaces only, for every level the entry lies
    below the call: the indentation of a line tells its depth. *)
Theorem prefix_grows_by_four_per_level
  (node : Node) dir level prefix isLast relpath (w : World) :
  exists vs : list Visit,
    visited (printTree node dir level prefix isLast relpath w) =
      (visited w ++ vs)%list /\
    Forall (indented level prefix) vs.
Proof.
  destruct (printTree_effect is_console formatIntWithCommas regex_match
              not_a_directory args node dir level prefix isLast relpath w)
    as (vs & errs & Htr & Hv & _).
  exists vs. split; [exact Hv |].
  eapply traversal_indented; exact Htr.
Qed.

(** *** The number of layers *)

Local Abbreviation below m w :=
  (Forall (fun v => v_level v <= Z.max (maxDepth (stats w)) m) (visited w)).

Lemma processEntries_layers dir level prefix relpath (es : list Node) :
  Forall (fun e => forall d l p il r w m,
            below m w -> below m (printTree e d l p il r w)) es ->
  forall (w : World) m, level <= m ->
    below m w -> below m (processEntries dir level prefix relpath es w).
Proof.
  induction 1 as [| e rest He _ IH]; intros w m Hm Hw; [exact Hw |].
  cbn [Tree.processEntries]. apply IH; [exact Hm |].
  rewrite processEntry_unfold. cbv zeta.
  assert (H1 : forall w1 : World,
             visited w1 =
               (visited w ++ [{| v_dir := dir; v_level := level;
                                 v_prefix := prefix; v_relpath := relpath;
                                 v_isLast := match rest with
                                             | [] => true | _ => false end;
                                 v_entry := e |}])%list ->
             maxDepth (stats w1) = maxDepth (stats w) ->
             below m w1).
  { intros w1 Hv Hd. rewrite Hv, Hd. apply Forall_app. split; [exact Hw |].
    constructor; [simpl; lia | constructor]. }
  destruct (is_directory e).
  - apply He, H1; destruct (empty (csvOut args)); reflexivity.
  - apply H1; destruct (empty (csvOut args)); reflexivity.
Qed.

Lemma printTree_layers (node : Node) :
  forall dir level prefix isLast relpath (w : World) m,
    below m w -> below m (printTree node dir level prefix isLast relpath w).
Proof.
  induction node as [nm md sz | nm md ch fl IH] using Node_ind';
    intros dir level prefix isLast relpath w m Hw.
  - rewrite printTree_File. destruct (pruned level); exact Hw.
  - rewrite printTree_Dir. destruct (pruned level); [exact Hw |].
    pose proof (survivors_In regex_match args nm md ch fl) as Hsub.
    cbn [Tree.survivors] in Hsub.
    destruct (collect ch fl) as [entries | what]; [| exact Hw].
    assert (Hall : Forall (fun e => forall d l p il r w m,
                     below m w -> below m (printTree e d l p il r w))
                   (sort_entries entries)).
    { rewrite Forall_forall in *. intros e He. apply IH, Hsub, He. }
    pose proof (processEntries_layers dir level prefix relpath _ Hall w
                  (Z.max m level) (Z.le_max_r _ _)) as Hp.
    cbn [visited with_stats stats raise_maxDepth maxDepth].
    eapply Forall_impl; [| apply Hp].
    + intros v Hv. simpl in Hv. lia.
    + eapply Forall_impl; [| exact Hw]. intros v Hv. simpl in Hv. lia.
Qed.

Lemma processEntries_limit dir level prefix relpath (es : list Node) (m : Z) :
  Forall (fun e => forall d l p il r (w : World),
            maxDepth (stats w) <= m ->
            maxDepth (stats (printTree e d l p il r w)) <= m) es ->
  forall w : World,
    maxDepth (stats w) <= m ->
    maxDepth (stats (processEntries dir level prefix relpath es w)) <= m.
Proof.
  induction 1 as [| e rest He _ IH]; intros w Hw; [exact Hw |].
  cbn [Tree.processEntries]. apply IH.
  rewrite processEntry_unfold. cbv zeta.
  destruct (is_directory e).
  - apply He. destruct (empty (csvOut args)); exact Hw.
  - destruct (empty (csvOut args)); exact Hw.
Qed.

Lemma printTree_limit (node : Node) (m : Z) :
  0 < maxLevel args -> maxLevel args <= m ->
  forall dir level prefix isLast relpath (w : World),
    maxDepth (stats w) <= m ->
    maxDepth (stats (printTree node dir level prefix isLast relpath w)) <= m.
Proof.
  intros H0 Hm.
  induction node as [nm md sz | nm md ch fl IH] using Node_ind';
    intros dir level prefix isLast relpath w Hw.
  - rewrite printTree_File. destruct (pruned level); exact Hw.
  - rewrite printTree_Dir. destruct (pruned level) eqn:Hp; [exact Hw |].
    pose proof (survivors_In regex_match args nm md ch fl) as Hsub.
    cbn [Tree.survivors] in Hsub.
    destruct (collect ch fl) as [entries | what]; [| exact Hw].
    cbn [with_stats stats raise_maxDepth maxDepth].
    apply Z.max_lub.
    + apply processEntries_limit; [| exact Hw].
      rewrite Forall_forall in *. intros e He. apply IH, Hsub, He.
    + unfold Tree.pruned in Hp. apply Z.ltb_lt in H0. rewrite H0 in Hp.
      apply Z.ltb_ge in Hp. lia.
Qed.

(** *** Error lines *)

Lemma collect_readable (l : list Node) :
  (forall name what,
     matchesPattern regex_match name (excludePattern args) <> Throw what) ->
  exists entries, collect l None = Ok entries.
Proof.
  intro Hq. induction l as [| x l (es & IH)]; simpl; [now exists [] |].
  rewrite IH.
  destruct (negb (showHidden args) && _); [now exists es |].
  destruct (empty (excludePattern args)).
  - destruct (showDirsOnly args && _); eauto.
  - destruct (matchesPattern regex_match (filename x) (excludePattern args))
      as [[|] | what] eqn:E; [now exists es | | now elim (Hq _ _ E)].
    destruct (showDirsOnly args && _); eauto.
Qed.

Lemma processEntries_quiet dir level prefix relpath (es : list Node) :
  Forall (fun e => is_directory e = true ->
            forall d l p il r (w : World),
              cerr (printTree e d l p il r w) = cerr w) es ->
  forall w : World,
    cerr (processEntries dir level prefix relpath es w) = cerr w.
Proof.
  induction 1 as [| e rest He _ IH]; intro w; [reflexivity |].
  cbn [Tree.processEntries]. rewrite IH.
  rewrite processEntry_unfold. cbv zeta.
  destruct (is_directory e).
  - rewrite He by reflexivity. now destruct (empty (csvOut args)).
  - now destruct (empty (csvOut args)).
Qed.

Lemma printTree_quiet (node : Node) :
  (forall name what,
     matchesPattern regex_match name (excludePattern args) <> Throw what) ->
  readable node = true -> is_directory node = true ->
  forall dir level prefix isLast relpath (w : World),
    cerr (printTree node dir level prefix isLast relpath w) = cerr w.
Proof.
  intro Hq.
  induction node as [nm md sz | nm md ch fl IH] using Node_ind';
    intros Hr Hd dir level prefix isLast relpath w; [discriminate |].
  rewrite printTree_Dir. destruct (pruned level); [reflexivity |].
  cbn [readable] in Hr. apply andb_true_iff in Hr. destruct Hr as [Hf Hr].
  destruct fl; [discriminate |].
  pose proof (survivors_In regex_match args nm md ch None) as Hsub.
  cbn [Tree.survivors] in Hsub.
  destruct (collect_readable ch Hq) as (entries & Hc).
  rewrite Hc in *. cbn [cerr with_stats].
  apply processEntries_quiet.
  rewrite Forall_forall in *. rewrite forallb_forall in Hr.
  intros e He Hde. apply IH; [apply Hsub, He | apply Hr, Hsub, He | exact Hde].
Qed.

End WalkFacts.

(* --------------------------------------------------------------------- *)
(** ** Runs of [main], and runs under other arguments *)

Section ProgramFacts.
Variable is_console : bool.
Variable formatIntWithCommas : Z -> string.
Variable regex_match : string -> string -> result bool.
Variable not_a_directory : string.

Local Abbreviation printTree :=
  (Tree.printTree is_console formatIntWithCommas regex_match
     not_a_directory).
Local Abbreviation processEntries args :=
  (Tree.processEntries is_console formatIntWithCommas args
     (fun e : Node => e) (fun e : Node => printTree args e)).
Local Abbreviation main :=
  (Tree.main is_console formatIntWithCommas regex_match not_a_directory).
Local Abbreviation collect args :=
  (Tree.collect regex_match args (fun e : Node => e)).
Local Abbreviation sort_entries := (Tree.sort_entries (fun e : Node => e)).
Local Abbreviation redirected := (Tree.redirected is_console).
Local Abbreviation enable_colors := (Tree.enable_colors is_console).

(** The world in which [main] calls [printTree]. *)
Local Abbreviation start args0 :=
  (if empty (csvOut (redirected args0))
   then cout_line
          ((if enable_colors (nocolors (redirected args0))
            then dircolor else "") ++
           folder (redirected args0) ++
           (if enable_colors (nocolors (redirected args0))
            then resetcolor else ""))
          World_init
   else World_init).

Local Abbreviation walked args0 root :=
  (printTree (redirected args0) root (folder (redirected args0)) 1 "" true ""
     (start args0)).

Lemma main_unfold (args0 : Args) (root : Node) :
  main args0 root =
  if negb (empty (csvOut args0))
  then (walked args0 root, Some (writeTsv (stats (walked args0 root))))
  else (cout_line (summary (stats (walked args0 root)))
          (cout_line "" (walked args0 root)), None).
Proof.
  unfold Tree.main. cbv zeta. now rewrite csvOut_redirected.
Qed.

Lemma maxLevel_redirected (args0 : Args) :
  maxLevel (redirected args0) = maxLevel args0.
Proof. unfold Tree.redirected. now destruct (negb is_console). Qed.

Lemma folder_redirected (args0 : Args) :
  folder (redirected args0) = folder args0.
Proof. unfold Tree.redirected. now destruct (negb is_console). Qed.

(** X10.  The number of layers that the summary names is at least the
    level of every entry the run has listed, and the levels start at 1. *)
Theorem layers_cover_every_entry_listed (args0 : Args) (root : Node) :
  let w := fst (main args0 root) in
  Forall (fun v => 1 <= v_level v <= maxDepth (stats w)) (visited w).
Proof.
  intro w.
  assert (Hw : visited w = visited (walked args0 root) /\
               stats w = stats (walked args0 root)).
  { subst w. rewrite main_unfold.
    now destruct (negb (empty (csvOut args0))). }
  destruct Hw as [Hv Hs]. rewrite Hv, Hs.
  assert (H0 : visited (start args0) = [] /\
               maxDepth (stats (start args0)) = 0).
  { now destruct (empty (csvOut (redirected args0))). }
  destruct H0 as [Hv0 Hd0].
  destruct (printTree_effect is_console formatIntWithCommas regex_match
              not_a_directory (redirected args0) root
              (folder (redirected args0)) 1 "" true "" (start args0))
    as (vs & errs & Htr & Hvs & _ & _ & _ & _ & _ & Hm).
  apply traversal_levels in Htr.
  pose proof (printTree_layers is_console formatIntWithCommas regex_match
                not_a_directory (redirected args0) root
                (folder (redirected args0)) 1 "" true "" (start args0) 0)
    as Hl.
  rewrite Hv0 in Hl. specialize (Hl (Forall_nil _)).
  rewrite Hvs, Hv0 in *. cbn [app] in *.
  rewrite Forall_forall in *. intros v Hin.
  specialize (Htr v Hin). specialize (Hl v Hin). simpl in Hl. lia.
Qed.

(** X11.  Under a limit [k > 0] the summary never names more than [k]
    layers. *)
Theorem layers_stay_within_the_limit (args0 : Args) (root : Node) :
  0 < maxLevel args0 ->
  maxDepth (stats (fst (main args0 root))) <= maxLevel args0.
Proof.
  intro Hk.
  assert (Hs : stats (fst (main args0 root)) = stats (walked args0 root)).
  { rewrite main_unfold. now destruct (negb (empty (csvOut args0))). }
  rewrite Hs, <- (maxLevel_redirected args0).
  apply printTree_limit.
  - now rewrite maxLevel_redirected.
  - lia.
  - rewrite maxLevel_redirected.
    destruct (empty (csvOut (redirected args0))); simpl; lia.
Qed.

(** X12.  A run with an export file writes nothing to [cout]; the file
    (when it can be written) holds the header and one row for each
    folder and each file counted, in the order they were taken up. *)
Theorem export_run_writes_one_row_per_entry (args0 : Args) (root : Node) :
  csvOut args0 <> "" ->
  let w := fst (main args0 root) in
  cout w = [] /\
  exists rows : list string,
    snd (main args0 root) = Some (tsv_header :: rows) /\
    rows = map (fun v => tsv_row (row_of v)) (visited w) /\
    Z.of_nat (List.length rows) = folders (stats w) + files (stats w).
Proof.
  intros Hout w. subst w. rewrite main_unfold.
  assert (He : empty (csvOut args0) = false)
    by (destruct (csvOut args0); [now elim Hout | reflexivity]).
  rewrite He. cbn [negb fst snd].
  destruct (printTree_effect is_console formatIntWithCommas regex_match
              not_a_directory (redirected args0) root
              (folder (redirected args0)) 1 "" true "" (start args0))
    as (vs & errs & _ & Hvs & Hc & Hr & Hd & Hf & _).
  rewrite csvOut_redirected, He in *. cbn [visited cout stats World_init] in *.
  cbn [csvRows folders files TreeStats_init app] in *.
  rewrite ?app_nil_r in Hc. split; [exact Hc |].
  exists (map tsv_row (csvRows (stats (walked args0 root)))).
  rewrite csvOut_redirected, He.
  split; [reflexivity |]. rewrite Hr, Hvs, map_map, !length_map, Hd, Hf.
  split; [reflexivity |]. rewrite <- dirs_files_in. lia.
Qed.

(** X13.  A run without an export file writes no file and collects no
    row; [cout] holds the folder asked for, one line for each folder and
    each file counted, an empty line, and the summary. *)
Theorem display_run_frames_one_line_per_entry (args0 : Args) (root : Node) :
  csvOut args0 = "" ->
  let w := fst (main args0 root) in
  snd (main args0 root) = None /\
  csvRows (stats w) = [] /\
  exists lines : list string,
    cout w =
      (((if enable_colors (nocolors (redirected args0)) then dircolor
         else "") ++ folder args0 ++
        (if enable_colors (nocolors (redirected args0)) then resetcolor
         else ""))%string :: lines ++ [""; summary (stats w)])%list /\
    lines = map (line_of is_console formatIntWithCommas (redirected args0))
                (visited w) /\
    Z.of_nat (List.length lines) = folders (stats w) + files (stats w).
Proof.
  intros Hout w. subst w. rewrite main_unfold.
  rewrite Hout. cbn [empty negb fst snd].
  destruct (printTree_effect is_console formatIntWithCommas regex_match
              not_a_directory (redirected args0) root
              (folder (redirected args0)) 1 "" true "" (start args0))
    as (vs & errs & _ & Hvs & Hc & Hr & Hd & Hf & _).
  rewrite csvOut_redirected, Hout in *. cbn [empty] in *.
  cbn [visited cout stats World_init cout_line] in *.
  cbn [csvRows folders files TreeStats_init app] in *.
  rewrite ?app_nil_r in Hr.
  split; [reflexivity |]. split; [exact Hr |].
  exists (map (line_of is_console formatIntWithCommas (redirected args0)) vs).
  rewrite Hc, Hvs.
  split; [| split; [reflexivity |]].
  - rewrite <- !app_assoc, folder_redirected. reflexivity.
  - rewrite length_map, Hd, Hf, <- dirs_files_in. lia.
Qed.

(** X14.  When the folder asked for is no directory, a run without an
    export file reports it as a directory that could not be
    enumerated, with the text of the exception, and that is all it
    writes to [cerr]; it lists nothing and counts nothing, and [cout]
    holds the folder, an empty line and the summary of an empty
    tree. *)
Theorem run_on_what_is_no_directory
  (args0 : Args) (name : string) (mode : Z) (size : option Z) :
  csvOut args0 = "" ->
  let w := fst (main args0 (File name mode size)) in
  cerr w = ["[etree] Failed to enumerate directory '" ++ folder args0 ++
            "': " ++ not_a_directory] /\
  visited w = [] /\
  stats w = TreeStats_init /\
  exists head : string,
    cout w = [head; ""; "The tree counts 0 layers, 0 folders, 0 files."].
Proof.
  intros Hout w. subst w.
  rewrite main_unfold, printTree_File, pruned_level_1.
  rewrite folder_redirected, csvOut_redirected, Hout.
  repeat split. eexists. reflexivity.
Qed.

(** *** Arguments that only change what a line or a row shows *)

Lemma collect_same_filters (a b : Args) (l : list Node) failure :
  same_filters a b -> collect a l failure = collect b l failure.
Proof.
  intros (Hp & _ & Hh & Hd).
  induction l as [| x l IH]; simpl; [reflexivity |].
  now rewrite Hp, Hh, Hd, IH.
Qed.

Lemma processEntries_skeleton (a b : Args) dir level prefix relpath
      (es : list Node) :
  Forall (fun e => forall d l p il r (w1 w2 : World),
            skeleton w1 = skeleton w2 ->
            skeleton (printTree a e d l p il r w1) =
            skeleton (printTree b e d l p il r w2)) es ->
  forall w1 w2 : World,
    skeleton w1 = skeleton w2 ->
    skeleton (processEntries a dir level prefix relpath es w1) =
    skeleton (processEntries b dir level prefix relpath es w2).
Proof.
  induction 1 as [| e rest He _ IH]; intros w1 w2 Hw; [exact Hw |].
  cbn [Tree.processEntries]. apply IH.
  rewrite !processEntry_unfold. cbv zeta.
  unfold skeleton in Hw. injection Hw as Hv Hc Hm Hd Hf.
  destruct (is_directory e).
  - apply He. unfold skeleton.
    destruct (empty (csvOut a)), (empty (csvOut b)); simpl; congruence.
  - unfold skeleton.
    destruct (empty (csvOut a)), (empty (csvOut b)); simpl; congruence.
Qed.

(** X15.  Arguments that filter and cut alike walk alike: the entries
    taken up, their order, the error lines and the three counts do not
    depend on whether sizes, permissions or colours are shown, nor on
    whether the run prints lines or collects rows. *)
Theorem arguments_that_filter_alike_walk_alike
  (a b : Args) (node : Node) dir level prefix isLast relpath
  (w1 w2 : World) :
  same_filters a b ->
  skeleton w1 = skeleton w2 ->
  skeleton (printTree a node dir level prefix isLast relpath w1) =
  skeleton (printTree b node dir level prefix isLast relpath w2).
Proof.
  intro Hab. revert dir level prefix isLast relpath w1 w2.
  induction node as [nm md sz | nm md ch fl IH] using Node_ind';
    intros dir level prefix isLast relpath w1 w2 Hw.
  - rewrite !printTree_File.
    replace (pruned b level) with (pruned a level)
      by (unfold pruned; destruct Hab as (_ & -> & _); reflexivity).
    destruct (pruned a level); [exact Hw |].
    unfold skeleton in *. injection Hw as Hv Hc Hm Hd Hf.
    simpl. congruence.
  - rewrite !printTree_Dir.
    replace (pruned b level) with (pruned a level)
      by (unfold pruned; destruct Hab as (_ & -> & _); reflexivity).
    destruct (pruned a level); [exact Hw |].
    rewrite <- (collect_same_filters a b ch fl Hab).
    pose proof (survivors_In regex_match a nm md ch fl) as Hsub.
    cbn [Tree.survivors] in Hsub.
    destruct (collect a ch fl) as [entries | what].
    + assert (Hp : skeleton
                (processEntries a dir level prefix relpath
                   (sort_entries entries) w1) =
              skeleton
                (processEntries b dir level prefix relpath
                   (sort_entries entries) w2)).
      { apply processEntries_skeleton; [| exact Hw].
        rewrite Forall_forall in *. intros e He. apply IH, Hsub, He. }
      unfold skeleton in *. injection Hp as Hv Hc Hm Hd Hf.
      simpl. congruence.
    + unfold skeleton in *. injection Hw as Hv Hc Hm Hd Hf.
      simpl. congruence.
Qed.

(** *** A pattern that is no regular expression *)

Lemma collect_rejected (args : Args) (l : list Node) failure :
  standard regex_match ->
  parse ("^" ++ regexPattern (excludePattern args) ++ "$") = SyntaxError ->
  existsb (fun c => showHidden args || negb (hidden_name (filename c))) l
    = true ->
  exists what, collect args l failure = Throw what.
Proof.
  intros Hstd Hp. induction l as [| x l IH]; simpl; [discriminate |].
  intro Hex.
  destruct (showHidden args || negb (hidden_name (filename x))) eqn:Hx.
  - replace (negb (showHidden args) &&
             match filename x with String "."%char _ => true | _ => false end)
      with false
      by (unfold hidden_name in Hx; destruct (showHidden args);
          [reflexivity | simpl in Hx |- *; now apply negb_true_iff in Hx]).
    destruct (excludePattern args) as [| c p] eqn:Hpat; [discriminate |].
    cbn [empty]. unfold matchesPattern.
    specialize (Hstd ("^" ++ regexPattern (String c p) ++ "$") (filename x)).
    unfold ecma_fragment in Hstd. rewrite Hp in Hstd.
    destruct Hstd as (what & ->). now exists what.
  - simpl in Hex. destruct (IH Hex) as (what & Hc). rewrite Hc.
    unfold hidden_name in Hx. apply orb_false_iff in Hx.
    destruct Hx as [-> Hx]. apply negb_false_iff in Hx.
    simpl. rewrite Hx. now exists what.
Qed.

(** X16.  When the exclude pattern makes a regular expression that the
    library rejects (a pattern that begins with [+], say), the exception
    is caught by the handler meant for the enumeration: a directory with
    an entry that reaches the pattern test is reported as one that could
    not be enumerated, and nothing of it is listed or counted. *)
Theorem rejected_pattern_is_reported_as_failed_enumeration
  (args : Args) name mode children failure dir level prefix isLast relpath
  (w : World) :
  standard regex_match ->
  parse ("^" ++ regexPattern (excludePattern args) ++ "$") = SyntaxError ->
  existsb (fun c => showHidden args || negb (hidden_name (filename c)))
    children = true ->
  pruned args level = false ->
  exists what,
    printTree args (Dir name mode children failure) dir level prefix isLast
      relpath w =
    cerr_line ("[etree] Failed to enumerate directory '" ++ dir ++ "': " ++
               what) w.
Proof.
  intros Hstd Hp Hex Hpr.
  destruct (collect_rejected args children failure Hstd Hp Hex)
    as (what & Hc).
  exists what. now rewrite printTree_Dir, Hpr, Hc.
Qed.

(** X17.  On a root directory below which every directory can be
    enumerated, with an exclude pattern of wildcards and plain
    characters or none, a run without an export file writes nothing to
    [cerr]. *)
Theorem readable_tree_leaves_cerr_empty (args0 : Args) (root : Node) :
  standard regex_match ->
  glob_only (excludePattern args0) = true ->
  readable root = true -> is_directory root = true ->
  csvOut args0 = "" ->
  cerr (fst (main args0 root)) = [].
Proof.
  intros Hstd Hg Hr Hd Hout.
  assert (Hs : cerr (fst (main args0 root)) = cerr (walked args0 root)).
  { rewrite main_unfold. now destruct (negb (empty (csvOut args0))). }
  rewrite Hs, printTree_quiet; try assumption.
  - now destruct (empty (csvOut (redirected args0))).
  - intros name what.
    replace (excludePattern (redirected args0)) with (excludePattern args0)
      by (unfold Tree.redirected; now destruct (negb is_console)).
    unfold matchesPattern.
    destruct (excludePattern args0) as [| c p] eqn:Hpat; [discriminate |].
    specialize (Hstd ("^" ++ regexPattern (String c p) ++ "$") name).
    unfold ecma_fragment in Hstd. rewrite parse_regexPattern in Hstd
      by exact Hg.
    rewrite Hstd. discriminate.
Qed.

End ProgramFacts.

(* --------------------------------------------------------------------- *)
(** ** The command line *)

Import Cli.

(** *** [std::stoi] reads back what a stream writes *)

Local Abbreviation digits_of := DecimalString.NilEmpty.string_of_uint.

Lemma scan_digits_acc (d : Decimal.uint) (p : positive) :
  scan_digits (digits_of d) (Z.pos p) true =
  Some (Z.pos (Pos.of_uint_acc d p)).
Proof.
  revert p. induction d; intro p;
    cbn [DecimalString.NilEmpty.string_of_uint scan_digits Pos.of_uint_acc];
    [reflexivity | ..];
    match goal with
    | |- context [isdigit ?c] => change (isdigit c) with true
    end; cbv iota;
    match goal with
    | |- scan_digits _ ?z true = Some (Z.pos (Pos.of_uint_acc _ ?q)) =>
        replace z with (Z.pos q)
          by (match goal with
              | |- context [digit_value ?c] =>
                  let v := eval vm_compute in (digit_value c) in
                  change (digit_value c) with v
              end; lia)
    end; apply IHd.
Qed.

Lemma scan_digits_zero (d : Decimal.uint) :
  scan_digits (digits_of d) 0 true = Some (Z.of_N (Pos.of_uint d)).
Proof.
  induction d;
    cbn [DecimalString.NilEmpty.string_of_uint scan_digits Pos.of_uint];
    [reflexivity | ..];
    match goal with
    | |- context [isdigit ?c] => change (isdigit c) with true
    end; cbv iota;
    [exact IHd | ..];
    match goal with
    | |- scan_digits _ ?z true = _ =>
        let v := eval vm_compute in z in change z with v
    end; apply scan_digits_acc.
Qed.

Lemma scan_digits_first (d : Decimal.uint) :
  d <> Decimal.Nil ->
  scan_digits (digits_of d) 0 false = scan_digits (digits_of d) 0 true.
Proof. destruct d; [congruence | reflexivity ..]. Qed.

Lemma digits_of_led_by_digit (d : Decimal.uint) :
  d <> Decimal.Nil ->
  exists c s,
    digits_of d = String c s /\ isdigit c = true /\
    skip_spaces (String c s) = String c s /\
    match c with "-"%char | "+"%char => false | _ => true end = true.
Proof.
  destruct d; [congruence | ..]; intros _; eexists _, _;
    (split; [reflexivity | repeat split]).
Qed.

Lemma stoi_digits (p : positive) :
  Z.pos p <= INT_MAX ->
  stoi (digits_of (Pos.to_uint p)) = Ok (Z.pos p).
Proof.
  intro Hp.
  pose proof (DecimalPos.Unsigned.to_uint_nonnil p) as Hn.
  pose proof (scan_digits_first _ Hn) as Hs.
  rewrite scan_digits_zero, DecimalPos.Unsigned.of_to in Hs.
  destruct (digits_of_led_by_digit _ Hn) as (c & s & E & _ & Hsk & Hc).
  unfold stoi. rewrite E in *. rewrite Hsk.
  assert (Hd : (let '(negative, digits) :=
                  match String c s with
                  | String "-"%char s' => (true, s')
                  | String "+"%char s' => (false, s')
                  | _ => (false, String c s)
                  end in
                match scan_digits digits 0 false with
                | None => Throw "stoi"
                | Some v =>
                    let n := if negative then - v else v in
                    if ((INT_MIN <=? n)%Z && (n <=? INT_MAX)%Z) then Ok n
                    else Throw "stoi"
                end) =
               match scan_digits (String c s) 0 false with
               | None => Throw "stoi"
               | Some v =>
                   if ((INT_MIN <=? v)%Z && (v <=? INT_MAX)%Z) then Ok v
                   else Throw "stoi"
               end).
  { destruct c as [[] [] [] [] [] [] [] []]; try reflexivity;
      discriminate Hc. }
  refine (eq_trans Hd _). rewrite Hs. cbn [Z.of_N].
  replace ((INT_MIN <=? Z.pos p)%Z && (Z.pos p <=? INT_MAX)%Z) with true;
    [reflexivity |].
  symmetry. apply andb_true_iff. split; apply Z.leb_le;
    unfold INT_MIN, INT_MAX in *; lia.
Qed.

Lemma decimal_pos (p : positive) :
  decimal (Z.pos p) = digits_of (Pos.to_uint p).
Proof.
  unfold decimal. cbn [Z.to_int DecimalString.NilZero.string_of_int].
  unfold DecimalString.NilZero.string_of_uint.
  pose proof (DecimalPos.Unsigned.to_uint_nonnil p).
  now destruct (Pos.to_uint p).
Qed.

Lemma stoi_decimal (n : Z) :
  0 <= n <= INT_MAX -> stoi (decimal n) = Ok n.
Proof.
  intros [H0 H1]. destruct n as [| p | p]; [reflexivity | | lia].
  rewrite decimal_pos. now apply stoi_digits.
Qed.

Lemma decimal_led_by_digit (n : Z) :
  0 <= n ->
  exists c s, decimal n = String c s /\ isdigit c = true.
Proof.
  intro H0. destruct n as [| p | p]; [now exists "0"%char, "" | | lia].
  rewrite decimal_pos.
  destruct (digits_of_led_by_digit _ (DecimalPos.Unsigned.to_uint_nonnil p))
    as (c & s & E & Hc & _).
  now exists c, s.
Qed.

Lemma level_attached (lead : ascii) (s : string) (n : Z) rest a fu :
  lead = "-"%char \/ lead = "/"%char ->
  stoi s = Ok n -> s <> "" ->
  parse_from (String lead (String "l" s) :: rest) a fu =
  parse_from rest (set_maxLevel n a) fu.
Proof.
  intros Hl Hs Hne. destruct s as [| c s]; [congruence |].
  destruct Hl as [-> | ->]; cbn -[stoi]; now rewrite Hs.
Qed.

Lemma level_separate (lead : ascii) (next : string) (n : Z) rest a fu :
  lead = "-"%char \/ lead = "/"%char ->
  stoi next = Ok n ->
  match next with String c _ => isdigit c | _ => false end = true ->
  parse_from (String lead "l" :: next :: rest) a fu =
  parse_from rest (set_maxLevel n a) fu.
Proof.
  intros Hl Hs Hd. destruct next as [| c s]; [discriminate |].
  destruct Hl as [-> | ->]; cbn -[stoi isdigit]; now rewrite Hd, Hs.
Qed.

(** X18.  A depth that fits an [int] and is written in decimal is read
    back as it is, whether it is attached to the option or follows it,
    and whether the option is led by a dash or by a slash; the arguments
    behind are read as if the level had been set beforehand. *)
Theorem level_option_reads_back (n : Z) (rest : list string) (a : Args)
        (foundUnknown : bool) :
  0 <= n <= INT_MAX ->
  parse_from (("-l" ++ decimal n) :: rest) a foundUnknown =
    parse_from rest (set_maxLevel n a) foundUnknown /\
  parse_from (("/l" ++ decimal n) :: rest) a foundUnknown =
    parse_from rest (set_maxLevel n a) foundUnknown /\
  parse_from ("-l" :: decimal n :: rest) a foundUnknown =
    parse_from rest (set_maxLevel n a) foundUnknown.
Proof.
  intro Hn. pose proof (stoi_decimal n Hn) as Hs.
  destruct (decimal_led_by_digit n (proj1 Hn)) as (c & s & E & Hc).
  repeat split.
  - apply level_attached; [now left | exact Hs | rewrite E; discriminate].
  - apply level_attached; [now right | exact Hs | rewrite E; discriminate].
  - apply level_separate; [now left | exact Hs | now rewrite E].
Qed.

(** X19.  An option that begins with [-l] and goes on with what is no
    number ends the parse with the exception of [std::stoi], which
    [parseArgs] does not catch: nothing behind it is read. *)
Theorem level_option_with_no_number_throws
  (c : ascii) (s : string) (rest : list string) (a : Args)
  (foundUnknown : bool) :
  isdigit c = false -> isspace c = false ->
  Ascii.eqb c "-" = false -> Ascii.eqb c "+" = false ->
  parse_from (("-l" ++ String c s) :: rest) a foundUnknown = Throw "stoi".
Proof.
  intros Hd Hs Hm Hp.
  assert (Hstoi : stoi (String c s) = Throw "stoi").
  { destruct c as [[] [] [] [] [] [] [] []];
      try discriminate Hd; try discriminate Hs; try discriminate Hm;
      try discriminate Hp; reflexivity. }
  cbn -[stoi]. now rewrite Hstoi.
Qed.

(** *** Combined options *)

Lemma flag_char_cases (c : ascii) :
  flag_char c = true ->
  c = "d"%char \/ c = "a"%char \/ c = "s"%char \/ c = "p"%char.
Proof.
  unfold flag_char. rewrite !orb_true_iff, !Ascii.eqb_eq. tauto.
Qed.

Lemma parse_flags (c : ascii) (cs : string) rest a fu :
  flag_char c = true ->
  parse_from (String "-" (String c cs) :: rest) a fu =
  parse_from rest (fst (short_options (String c cs) (a, fu)))
             (snd (short_options (String c cs) (a, fu))).
Proof.
  intro Hc.
  destruct (flag_char_cases c Hc) as [-> | [-> | [-> | ->]]];
    cbn -[short_options]; now destruct (short_options _ _).
Qed.

Lemma parse_one_by_one (cs : string) rest :
  flags_only cs = true ->
  forall a fu,
    parse_from (one_by_one cs ++ rest)%list a fu =
    parse_from rest (fst (short_options cs (a, fu)))
               (snd (short_options cs (a, fu))).
Proof.
  induction cs as [| c cs IH]; intros Hf a fu; [reflexivity |].
  cbn [flags_only] in Hf. apply andb_true_iff in Hf. destruct Hf as [Hc Hf].
  cbn [one_by_one app]. rewrite (parse_flags c "" _ a fu Hc).
  cbn [short_options]. rewrite (IH Hf).
  now destruct (short_option c (a, fu)).
Qed.

(** X20.  A combined option made of the flags [d], [a], [s] and [p] is
    read as the same flags given one by one. *)
Theorem combined_flags_read_as_single_flags
  (cs : string) (rest : list string) (a : Args) (foundUnknown : bool) :
  flags_only cs = true -> cs <> "" ->
  parse_from (("-" ++ cs) :: rest) a foundUnknown =
  parse_from (one_by_one cs ++ rest)%list a foundUnknown.
Proof.
  intros Hf Hne. destruct cs as [| c cs]; [congruence |].
  rewrite parse_one_by_one by exact Hf.
  cbn [flags_only] in Hf. apply andb_true_iff in Hf.
  apply parse_flags, Hf.
Qed.

(** *** What the loop never does *)

Lemma short_options_keep (cs : string) (st : Args * bool) :
  folder (fst (short_options cs st)) = folder (fst st) /\
  showVersion (fst (short_options cs st)) = showVersion (fst st) /\
  showHelp (fst (short_options cs st)) = showHelp (fst st).
Proof.
  revert st. induction cs as [| c cs IH]; intro st; [now repeat split |].
  cbn [short_options].
  destruct (IH (short_option c st)) as (-> & -> & ->).
  destruct st as [a fu]. unfold short_option.
  repeat match goal with
         | |- context [if ?b then _ else _] => destruct b
         end; now repeat split.
Qed.

Lemma dashed_plain (raw : string) :
  ((2 <=? String.length (dashed raw))%nat && begins_with "-" (dashed raw))
    = false ->
  dashed raw = raw /\ positional raw = true.
Proof.
  unfold dashed, positional.
  destruct raw as [| c [| c' s]]; [now split | |].
  - intros _. now split.
  - cbn [String.length Nat.ltb Nat.leb begins_with andb orb negb].
    destruct (Ascii.eqb "/" c) eqn:Hs.
    + cbn. discriminate.
    + cbn [andb]. cbn [String.length Nat.leb andb begins_with].
      intro H. split; [reflexivity |].
      destruct (Ascii.eqb "-" c); [discriminate | reflexivity].
Qed.


Lemma behind_length (rest : list string) :
  (List.length (match rest with _ :: r => r | [] => rest end)
   <= List.length rest)%nat.
Proof. destruct rest; simpl; lia. Qed.

Ltac go_on Hgo H :=
  eapply Hgo; [| | | | exact H];
  [first [now left | now right] | now left | reflexivity | reflexivity].

(** What holds of the result of the loop when it holds of every way the
    loop goes on: used for the two facts below. *)
Lemma parse_from_rule (Q : list string -> Args -> bool * Args -> Prop) :
  (forall a fu, Q [] a (negb fu, a)) ->
  (forall argv a, Q argv a (true, set_showVersion a)) ->
  (forall argv a, Q argv a (true, set_showHelp a)) ->
  (forall raw rest later a a1 r,
     (later = rest \/ later = match rest with _ :: x => x | [] => rest end) ->
     (folder a1 = folder a \/
      (folder a1 = raw /\ positional raw = true)) ->
     showVersion a1 = showVersion a -> showHelp a1 = showHelp a ->
     Q later a1 r -> Q (raw :: rest) a r) ->
  forall argv a fu r, parse_from argv a fu = Ok r -> Q argv a r.
Proof.
  intros Hnil Hver Hhelp Hstep argv.
  induction argv as [argv IH]
    using (well_founded_induction
             (Wf_nat.well_founded_ltof _ (@List.length string))).
  destruct argv as [| raw rest]; intros a fu r H.
  - cbn in H. injection H as <-. apply Hnil.
  - cbn [parse_from] in H.
    assert (Hgo : forall later a1 fu1,
               (later = rest \/
                later = match rest with _ :: x => x | [] => rest end) ->
               (folder a1 = folder a \/
                (folder a1 = raw /\ positional raw = true)) ->
               showVersion a1 = showVersion a -> showHelp a1 = showHelp a ->
               parse_from later a1 fu1 = Ok r -> Q (raw :: rest) a r).
    { intros later a1 fu1 Hl Hf Hv Hh Hp.
      eapply Hstep; try eassumption.
      eapply IH; [| exact Hp]. unfold Wf_nat.ltof.
      destruct Hl as [-> | ->]; simpl;
        [| pose proof (behind_length rest)]; lia. }
    destruct (String.eqb (dashed raw) "-v" ||
              String.eqb (dashed raw) "--version");
      [injection H as <-; apply Hver |].
    destruct (String.eqb (dashed raw) "-?" ||
              String.eqb (dashed raw) "--help");
      [injection H as <-; apply Hhelp |].
    destruct (String.eqb (dashed raw) "-nc"); [go_on Hgo H |].
    destruct (String.eqb (dashed raw) "-o" && _); [go_on Hgo H |].
    destruct (begins_with "-l" (dashed raw)).
    { destruct (2 <? String.length (dashed raw))%nat.
      - destruct (stoi _); [| discriminate]. go_on Hgo H.
      - destruct (negb _ && _).
        + destruct (stoi _); [| discriminate]. go_on Hgo H.
        + go_on Hgo H. }
    destruct (begins_with "-I" (dashed raw)).
    { destruct (2 <? String.length (dashed raw))%nat;
        [| destruct (negb _)]; go_on Hgo H. }
    destruct ((2 <=? String.length (dashed raw))%nat && _) eqn:Hblock.
    { pose proof (short_options_keep (substr 1 (dashed raw)) (a, fu))
        as (Hf & Hv & Hh).
      destruct (short_options _ _) as [a1 fu1].
      eapply Hgo; [| | | | exact H];
        [now left | left; exact Hf | exact Hv | exact Hh]. }
    destruct (dashed_plain raw Hblock) as [Hraw Hpos].
    destruct (String.eqb (folder a) "."); [| go_on Hgo H].
    eapply Hgo; [| | | | exact H];
      [now left | right; split; [exact Hraw | exact Hpos]
      | reflexivity | reflexivity].
Qed.


(** X22.  Starting from arguments that ask for neither, [parseArgs]
    never asks for both the version and the help, and when it asks for
    one of them it reports success, whatever was unknown before. *)
Theorem version_and_help_stop_the_parse
  (argv : list string) (args : Args) (ok : bool) (args' : Args) :
  showVersion args = false -> showHelp args = false ->
  parseArgs argv args = Ok (ok, args') ->
  showVersion args' && showHelp args' = false /\
  (showVersion args' || showHelp args' = true -> ok = true).
Proof.
  unfold parseArgs. intros Hv Hh H.
  refine (parse_from_rule
            (fun l a r => showVersion a = false -> showHelp a = false ->
                          showVersion (snd r) && showHelp (snd r) = false /\
                          (showVersion (snd r) || showHelp (snd r) = true ->
                           fst r = true))
            _ _ _ _ (tl argv) args false (ok, args') H Hv Hh); clear.
  - intros a fu Hv Hh. cbn [fst snd]. rewrite Hv, Hh. now split.
  - intros _ a Hv Hh. cbn [fst snd set_showVersion showVersion showHelp].
    rewrite Hh. now split.
  - intros _ a Hv Hh. cbn [fst snd set_showHelp showVersion showHelp].
    rewrite Hv. now split.
  - intros raw rest later a a1 r _ _ Hv1 Hh1 IH Hv Hh.
    apply IH; congruence.
Qed.

(* --------------------------------------------------------------------- *)
(** ** Permission strings *)

Lemma testbit_land_511 (p i : Z) :
  0 <= i ->
  Z.testbit (Z.land p 511) i = Z.testbit p i && (i <? 9)%Z.
Proof.
  intro Hi. rewrite Z.land_spec. f_equal.
  change 511 with (Z.ones 9).
  destruct (i <? 9)%Z eqn:E.
  - apply Z.ltb_lt in E. apply Z.ones_spec_low. lia.
  - apply Z.ltb_ge in E. apply Z.ones_spec_high. lia.
Qed.

Lemma bit_char (a b : bool) (c : ascii) :
  c <> "-"%char ->
  (if a then c else "-"%char) = (if b then c else "-"%char) -> a = b.
Proof. destruct a, b; congruence. Qed.

(** X23.  On POSIX the permission string has nine characters, so that
    the dash kept for an empty string is never what is returned, and two
    entries get the same string exactly when their modes agree on the
    nine permission bits. *)
Theorem getPermissions_shows_the_nine_mode_bits (e1 e2 : Node) :
  String.length (Tree.getPermissions e1) = 9%nat /\
  (Tree.getPermissions e1 = Tree.getPermissions e2 <->
   Z.land (permissions e1) 511 = Z.land (permissions e2) 511).
Proof.
  split; [reflexivity |].
  unfold Tree.getPermissions. cbn [append empty].
  split.
  - intro H. injection H as H8 H7 H6 H5 H4 H3 H2 H1 H0.
    apply bit_char in H8, H7, H6, H5, H4, H3, H2, H1, H0; try discriminate.
    apply Z.bits_inj'. intros i Hi. rewrite !testbit_land_511 by exact Hi.
    destruct (i <? 9)%Z eqn:E; [| now rewrite !andb_false_r].
    apply Z.ltb_lt in E. rewrite !andb_true_r.
    assert (Hc : i = 0 \/ i = 1 \/ i = 2 \/ i = 3 \/ i = 4 \/ i = 5 \/
                 i = 6 \/ i = 7 \/ i = 8) by lia.
    repeat (destruct Hc as [-> | Hc]); [.. | subst i]; assumption.
  - intro H.
    assert (Hb : forall i, 0 <= i < 9 ->
               Z.testbit (permissions e1) i = Z.testbit (permissions e2) i).
    { intros i Hi.
      pose proof (f_equal (fun z => Z.testbit z i) H) as Hi'.
      cbv beta in Hi'. rewrite !testbit_land_511 in Hi' by lia.
      replace (i <? 9)%Z with true in Hi' by (symmetry; apply Z.ltb_lt; lia).
      now rewrite !andb_true_r in Hi'. }
    rewrite !(Hb 0), !(Hb 1), !(Hb 2), !(Hb 3), !(Hb 4), !(Hb 5), !(Hb 6),
      !(Hb 7), !(Hb 8) by lia.
    reflexivity.
Qed.

(** X24.  On Windows the permission string is a dash, or some of the
    letters R, H, S and A in this order and at least one of them,
    whatever the attribute masks are. *)
Theorem windows_permissions_are_a_dash_or_letters_of_RHSA
  (READONLY HIDDEN SYSTEM ARCHIVE INVALID attr : Z) :
  let perms :=
    Win.getPermissions READONLY HIDDEN SYSTEM ARCHIVE INVALID attr in
  perms = "-" \/
  (Win.subsequence perms "RHSA" = true /\ empty perms = false).
Proof.
  intro perms. subst perms. unfold Win.getPermissions, Win.flag.
  destruct (attr =? INVALID)%Z; [now left |].
  destruct (Z.land attr READONLY =? 0)%Z, (Z.land attr HIDDEN =? 0)%Z,
    (Z.land attr SYSTEM =? 0)%Z, (Z.land attr ARCHIVE =? 0)%Z;
    cbn; (now left) || (right; now split).
Qed.

(* --------------------------------------------------------------------- *)
(** ** The facts above at work on examples *)

Local Abbreviation main_ex :=
  (Tree.main false decimal fragment_engine "Not a directory").

Lemma matchesPattern_is_glob_matching_witness :
  standard fragment_engine /\ glob_only "*.t?t" = true /\
  no_line_terminator "FILE.TXT" = true /\
  matchesPattern fragment_engine "FILE.TXT" "*.t?t" =
    Ok (glob_matches "FILE.TXT" "*.t?t").
Proof.
  split; [exact fragment_engine_standard |].
  split; [reflexivity |]. split; [reflexivity |].
  apply (matchesPattern_is_glob_matching fragment_engine "FILE.TXT" "*.t?t");
    [exact fragment_engine_standard | reflexivity | reflexivity].
Defined.

Lemma matchesPattern_ignores_case_witness :
  standard fragment_engine /\ glob_only "*.txt" = true /\
  map to_lower (list_ascii_of_string "Notes.TXT") =
    map to_lower (list_ascii_of_string "notes.txt") /\
  matchesPattern fragment_engine "Notes.TXT" "*.txt" =
    matchesPattern fragment_engine "notes.txt" "*.txt".
Proof.
  split; [exact fragment_engine_standard |].
  split; [reflexivity |]. split; [reflexivity |].
  apply (matchesPattern_ignores_case fragment_engine "Notes.TXT" "notes.txt"
           "*.txt");
    [exact fragment_engine_standard | reflexivity | reflexivity].
Defined.

Lemma star_pattern_matches_by_ending_witness :
  standard fragment_engine /\ glob_only ".tmp" = true /\
  forallb literal_char (list_ascii_of_string ".tmp") = true /\
  no_line_terminator "b.TMP" = true /\
  (matchesPattern fragment_engine "b.TMP" ("*" ++ ".tmp") = Ok true <->
   exists pre suf,
     list_ascii_of_string "b.TMP" = (pre ++ suf)%list /\
     map to_lower (list_ascii_of_string ".tmp") = map to_lower suf).
Proof.
  split; [exact fragment_engine_standard |].
  split; [reflexivity |]. split; [reflexivity |]. split; [reflexivity |].
  apply (star_pattern_matches_by_ending fragment_engine "b.TMP" ".tmp");
    [exact fragment_engine_standard | reflexivity | reflexivity
    | reflexivity].
Defined.

Lemma rejected_pattern_is_reported_as_failed_enumeration_witness :
  let args := set_excludePattern "+" default_args in
  standard fragment_engine /\
  parse ("^" ++ regexPattern (excludePattern args) ++ "$") = SyntaxError /\
  existsb (fun c => showHidden args || negb (hidden_name (filename c)))
    (children_of one_file_root) = true /\
  pruned args 1 = false /\
  exists what,
    printTree_ex args one_file_root "." 1 "" true "" World_init =
    cerr_line ("[etree] Failed to enumerate directory '" ++ "." ++ "': " ++
               what) World_init.
Proof.
  intro args.
  split; [exact fragment_engine_standard |].
  split; [reflexivity |]. split; [reflexivity |]. split; [reflexivity |].
  apply (rejected_pattern_is_reported_as_failed_enumeration false decimal
           fragment_engine "Not a directory" args "x" 493
           [File "f" 420 (Some 1)] None "." 1 "" true "" World_init);
    [exact fragment_engine_standard | reflexivity | reflexivity
    | reflexivity].
Defined.

Lemma layers_stay_within_the_limit_witness :
  0 < maxLevel (set_maxLevel 1 default_args) /\
  maxDepth (stats (fst (main_ex (set_maxLevel 1 default_args) example_root)))
    <= maxLevel (set_maxLevel 1 default_args).
Proof.
  split; [reflexivity |].
  apply (layers_stay_within_the_limit false decimal fragment_engine
           "Not a directory" (set_maxLevel 1 default_args) example_root).
  reflexivity.
Defined.

Lemma arguments_that_filter_alike_walk_alike_witness :
  let b := set_csvOut "out.tsv" (set_showSize default_args) in
  same_filters default_args b /\
  skeleton World_init = skeleton World_init /\
  skeleton (printTree_ex default_args example_root "." 1 "" true ""
              World_init) =
  skeleton (printTree_ex b example_root "." 1 "" true "" World_init).
Proof.
  intro b.
  split; [repeat split |]. split; [reflexivity |].
  apply (arguments_that_filter_alike_walk_alike false decimal fragment_engine
           "Not a directory" default_args b example_root "." 1 "" true ""
           World_init World_init);
    [repeat split | reflexivity].
Defined.

Lemma readable_tree_leaves_cerr_empty_witness :
  let args0 := set_excludePattern "*.tmp" default_args in
  standard fragment_engine /\
  glob_only (excludePattern args0) = true /\
  readable example_root = true /\ is_directory example_root = true /\
  csvOut args0 = "" /\
  cerr (fst (main_ex args0 example_root)) = [].
Proof.
  intro args0.
  split; [exact fragment_engine_standard |].
  split; [reflexivity |]. split; [reflexivity |]. split; [reflexivity |].
  split; [reflexivity |].
  apply (readable_tree_leaves_cerr_empty false decimal fragment_engine
           "Not a directory" args0 example_root);
    [exact fragment_engine_standard | reflexivity | reflexivity
    | reflexivity | reflexivity].
Defined.

Lemma run_on_what_is_no_directory_witness :
  csvOut default_args = "" /\
  cerr (fst (main_ex default_args (File "notes.txt" 420 (Some 7)))) =
    ["[etree] Failed to enumerate directory '.': Not a directory"] /\
  cout (fst (main_ex default_args (File "notes.txt" 420 (Some 7)))) =
    ["."; ""; "The tree counts 0 layers, 0 folders, 0 files."].
Proof.
  split; [reflexivity |].
  destruct (run_on_what_is_no_directory false decimal fragment_engine
              "Not a directory" default_args "notes.txt" 420 (Some 7)
              eq_refl) as (Hcerr & _ & _ & head & Hcout).
  split; [exact Hcerr |]. reflexivity.
Defined.

Lemma export_run_writes_one_row_per_entry_witness :
  let w := fst (main_ex export_args example_root) in
  cout w = [] /\
  exists rows : list string,
    snd (main_ex export_args example_root) = Some (tsv_header :: rows) /\
    rows = map (fun v => tsv_row (row_of v)) (visited w) /\
    Z.of_nat (List.length rows) = folders (stats w) + files (stats w).
Proof.
  apply (export_run_writes_one_row_per_entry false decimal fragment_engine
           "Not a directory" export_args example_root).
  discriminate.
Defined.

Lemma display_run_frames_one_line_per_entry_witness :
  let w := fst (main_ex default_args example_root) in
  snd (main_ex default_args example_root) = None /\
  csvRows (stats w) = [] /\
  exists lines : list string,
    cout w = ("." :: lines ++ [""; summary (stats w)])%list /\
    lines = map (line_of false decimal default_args) (visited w) /\
    Z.of_nat (List.length lines) = folders (stats w) + files (stats w).
Proof.
  apply (display_run_frames_one_line_per_entry false decimal fragment_engine
           "Not a directory" default_args example_root).
  reflexivity.
Defined.

Lemma level_option_reads_back_witness :
  0 <= 12 <= INT_MAX /\
  parse_from ["-l12"; "src"] default_args false =
    parse_from ["src"] (set_maxLevel 12 default_args) false /\
  parse_from ["/l12"; "src"] default_args false =
    parse_from ["src"] (set_maxLevel 12 default_args) false /\
  parse_from ["-l"; "12"; "src"] default_args false =
    parse_from ["src"] (set_maxLevel 12 default_args) false.
Proof.
  split; [split; discriminate |].
  apply (level_option_reads_back 12 ["src"] default_args false).
  split; discriminate.
Defined.

Lemma level_option_with_no_number_throws_witness :
  isdigit "e" = false /\ isspace "e" = false /\
  Ascii.eqb "e" "-" = false /\ Ascii.eqb "e" "+" = false /\
  parseArgs ["etree"; "-level"; "src"] default_args = Throw "stoi".
Proof.
  repeat (split; [reflexivity |]).
  apply (level_option_with_no_number_throws "e" "vel" ["src"] default_args
           false); reflexivity.
Defined.

Lemma combined_flags_read_as_single_flags_witness :
  flags_only "asp" = true /\
  parse_from ["-asp"; "src"] default_args false =
  parse_from ["-a"; "-s"; "-p"; "src"] default_args false.
Proof.
  split; [reflexivity |].
  apply (combined_flags_read_as_single_flags "asp" ["src"] default_args
           false); [reflexivity | discriminate].
Defined.


Lemma version_and_help_stop_the_parse_witness :
  exists ok args',
    parseArgs ["etree"; "-x"; "a"; "b"; "--help"; "-v"] default_args =
      Ok (ok, args') /\
    showVersion args' && showHelp args' = false /\
    (showVersion args' || showHelp args' = true -> ok = true).
Proof.
  eexists _, _. split; [reflexivity |].
  eapply (version_and_help_stop_the_parse
            ["etree"; "-x"; "a"; "b"; "--help"; "-v"] default_args);
    reflexivity.
Defined.
